(** * Credential-at-rest protection, screenshots and page objects

    A shallow embedding of the TypeScript sources
      - [src/utils/encryptionHelper.ts]  ([encrypt], [decrypt]; its text is
        the second part of [src/utils/ScreenshotUtils.ts], from the second
        [import * as crypto] on),
      - [src/utils/jsonhelper.ts]        ([readJsonFile]),
      - [scripts/encryptPassword.ts]     (the offline command-line encoder,
        [unnamed/part_000]),
      - [src/utils/ScreenshotUtils.ts]   ([generateScreenshotFilename],
        [takeScreenshot], [screenshotExists]),
      - [src/pages/GoogleLoginPage.ts] and [src/pages/YouTubePage.ts] (the
        page objects; their text follows the helper's in
        [src/utils/ScreenshotUtils.ts]),
      - [tests/authSetup/auth.setup.ts]  (the authentication set-up),
    together with the part of the Node.js runtime and of Playwright they
    call: [Buffer] (UTF-8 and base64 conversions), [crypto.randomBytes],
    [crypto.pbkdf2Sync], the AES-256-GCM [Cipher]/[Decipher] objects,
    [fs], [path.join], [JSON.parse], [process.env], [console], [Date],
    and the requests a page and its locators take. *)

From Stdlib Require Import String Ascii.
From Stdlib Require Import List NArith ZArith Lia Bool PeanoNat.
From Stdlib Require Import Strings.Byte.
From Stdlib Require Floats.SpecFloat.
From Stdlib Require DecimalString.
Import ListNotations.

Set Warnings "-register-all".

(* ================================================================== *)
(** * Part I.  Definitions                                              *)
(* ================================================================== *)

(** ** Bytes

    A [Buffer] is a list of bytes. *)

Definition bytes : Type := list byte.

Definition byte_of_N (n : N) : byte :=
  match Byte.of_N (n mod 256) with
  | Some b => b
  | None => x00
  end.

Definition byte_xor (a b : byte) : byte :=
  let '(a0, (a1, (a2, (a3, (a4, (a5, (a6, a7))))))) := Byte.to_bits a in
  let '(b0, (b1, (b2, (b3, (b4, (b5, (b6, b7))))))) := Byte.to_bits b in
  Byte.of_bits (xorb a0 b0, (xorb a1 b1, (xorb a2 b2, (xorb a3 b3,
               (xorb a4 b4, (xorb a5 b5, (xorb a6 b6, xorb a7 b7))))))).

(** Bytewise exclusive or of a buffer with a key stream (the shorter
    length wins, as in a counter-mode cipher that stops at the end of its
    input). *)
Fixpoint xor_bytes (xs ks : bytes) : bytes :=
  match xs, ks with
  | x :: xs', k :: ks' => byte_xor x k :: xor_bytes xs' ks'
  | _, _ => []
  end.

(** [buf.subarray(start, end)] and [buf.subarray(start)]: both clamp to
    the buffer's length. *)
Definition subarray (buf : bytes) (start stop : nat) : bytes :=
  firstn (stop - start) (skipn start buf).

Definition subarray_from (buf : bytes) (start : nat) : bytes :=
  skipn start buf.

(** ** JavaScript strings

    A JavaScript string is a sequence of UTF-16 code units, each below
    [0x10000]; a code point outside the Basic Multilingual Plane is a pair
    of a high and a low surrogate. *)

Definition jsstring := list N.

Definition js (s : string) : jsstring :=
  map N_of_ascii (list_ascii_of_string s).

Fixpoint jsstring_eqb (s t : jsstring) : bool :=
  match s, t with
  | [], [] => true
  | a :: s', b :: t' => N.eqb a b && jsstring_eqb s' t'
  | _, _ => false
  end.

(** [s.startsWith(prefix)] *)
Fixpoint startsWith (s prefix : jsstring) {struct prefix} : bool :=
  match prefix, s with
  | [], _ => true
  | p :: prefix', c :: s' => N.eqb c p && startsWith s' prefix'
  | _ :: _, [] => false
  end.

(** [s.substring(start)] *)
Definition substring (s : jsstring) (start : nat) : jsstring := skipn start s.

(** [s.includes(t)] *)
Fixpoint includes (s t : jsstring) : bool :=
  startsWith s t ||
  match s with
  | [] => false
  | _ :: s' => includes s' t
  end.

Definition is_high_surrogate (u : N) : bool := ((0xD800 <=? u) && (u <=? 0xDBFF))%N.
Definition is_low_surrogate (u : N) : bool := ((0xDC00 <=? u) && (u <=? 0xDFFF))%N.

(** [s.isWellFormed()]: every code unit is a 16-bit value and every
    surrogate is half of a high-low pair. *)
Fixpoint isWellFormed (s : jsstring) : bool :=
  match s with
  | [] => true
  | u :: rest =>
    if is_high_surrogate u then
      match rest with
      | l :: rest' => is_low_surrogate l && isWellFormed rest'
      | [] => false
      end
    else negb (is_low_surrogate u) && (u <? 0x10000)%N && isWellFormed rest
  end.

(** A Unicode scalar value: a code point that is not a surrogate. *)
Definition scalar_value (c : N) : Prop :=
  (c < 0xD800 \/ 0xE000 <= c < 0x110000)%N.

(** ** UTF-8, as [Buffer.from(s, 'utf8')] and [buf.toString('utf8')] do it *)

Definition REPLACEMENT_CHARACTER : N := 0xFFFD%N.

Definition utf8_of_code_point (c : N) : bytes :=
  (if c <? 0x80 then [byte_of_N c]
   else if c <? 0x800 then
     [byte_of_N (0xC0 + c / 64); byte_of_N (0x80 + c mod 64)]
   else if c <? 0x10000 then
     [byte_of_N (0xE0 + c / 4096); byte_of_N (0x80 + (c / 64) mod 64);
      byte_of_N (0x80 + c mod 64)]
   else
     [byte_of_N (0xF0 + c / 262144); byte_of_N (0x80 + (c / 4096) mod 64);
      byte_of_N (0x80 + (c / 64) mod 64); byte_of_N (0x80 + c mod 64)])%N.

(** Encoding a string: a surrogate pair is one code point; a surrogate
    that is not part of a pair cannot be encoded and is written as
    U+FFFD (bytes EF BF BD). *)
Fixpoint utf8_encode (s : jsstring) : bytes :=
  match s with
  | [] => []
  | u :: rest =>
    if is_high_surrogate u then
      match rest with
      | l :: rest' =>
        if is_low_surrogate l then
          utf8_of_code_point (0x10000 + (u - 0xD800) * 0x400 + (l - 0xDC00))%N
            ++ utf8_encode rest'
        else utf8_of_code_point REPLACEMENT_CHARACTER ++ utf8_encode rest
      | [] => utf8_of_code_point REPLACEMENT_CHARACTER
      end
    else if is_low_surrogate u then
      utf8_of_code_point REPLACEMENT_CHARACTER ++ utf8_encode rest
    else utf8_of_code_point u ++ utf8_encode rest
  end.

Definition in_range (lo hi n : N) : bool := ((lo <=? n) && (n <=? hi))%N.

Definition continuation (b : byte) : bool := in_range 0x80 0xBF (Byte.to_N b).

Definition code_units_of_code_point (c : N) : jsstring :=
  (if c <? 0x10000 then [c]
   else [0xD800 + (c - 0x10000) / 0x400; 0xDC00 + (c - 0x10000) mod 0x400])%N.

(** Decoding never fails: every maximal ill-formed subsequence becomes
    one U+FFFD, and decoding resumes at the byte that broke the
    sequence. *)
Fixpoint utf8_decode (bs : bytes) : jsstring :=
  match bs with
  | [] => []
  | b0 :: r0 =>
    let n0 := Byte.to_N b0 in
    if (n0 <? 0x80)%N then n0 :: utf8_decode r0
    else if in_range 0xC2 0xDF n0 then
      match r0 with
      | [] => [REPLACEMENT_CHARACTER]
      | b1 :: r1 =>
        if continuation b1 then
          ((n0 - 0xC0) * 64 + (Byte.to_N b1 - 0x80))%N :: utf8_decode r1
        else REPLACEMENT_CHARACTER :: utf8_decode r0
      end
    else if in_range 0xE0 0xEF n0 then
      match r0 with
      | [] => [REPLACEMENT_CHARACTER]
      | b1 :: r1 =>
        if in_range (if n0 =? 0xE0 then 0xA0 else 0x80)%N
                    (if n0 =? 0xED then 0x9F else 0xBF)%N (Byte.to_N b1) then
          match r1 with
          | [] => [REPLACEMENT_CHARACTER]
          | b2 :: r2 =>
            if continuation b2 then
              ((n0 - 0xE0) * 4096 + (Byte.to_N b1 - 0x80) * 64
               + (Byte.to_N b2 - 0x80))%N :: utf8_decode r2
            else REPLACEMENT_CHARACTER :: utf8_decode r1
          end
        else REPLACEMENT_CHARACTER :: utf8_decode r0
      end
    else if in_range 0xF0 0xF4 n0 then
      match r0 with
      | [] => [REPLACEMENT_CHARACTER]
      | b1 :: r1 =>
        if in_range (if n0 =? 0xF0 then 0x90 else 0x80)%N
                    (if n0 =? 0xF4 then 0x8F else 0xBF)%N (Byte.to_N b1) then
          match r1 with
          | [] => [REPLACEMENT_CHARACTER]
          | b2 :: r2 =>
            if continuation b2 then
              match r2 with
              | [] => [REPLACEMENT_CHARACTER]
              | b3 :: r3 =>
                if continuation b3 then
                  code_units_of_code_point
                    ((n0 - 0xF0) * 262144 + (Byte.to_N b1 - 0x80) * 4096
                     + (Byte.to_N b2 - 0x80) * 64 + (Byte.to_N b3 - 0x80))%N
                    ++ utf8_decode r3
                else REPLACEMENT_CHARACTER :: utf8_decode r2
              end
            else REPLACEMENT_CHARACTER :: utf8_decode r1
          end
        else REPLACEMENT_CHARACTER :: utf8_decode r0
      end
    else REPLACEMENT_CHARACTER :: utf8_decode r0
  end.

(** ** Base64, as [buf.toString('base64')] and [Buffer.from(s, 'base64')] do it *)

Definition base64_char (v : N) : N :=
  (if v <? 26 then 65 + v          (* A-Z *)
   else if v <? 52 then 71 + v     (* a-z *)
   else if v <? 62 then v - 4      (* 0-9 *)
   else if v =? 62 then 43         (* + *)
   else 47)%N.                     (* / *)

Definition BASE64_PAD : N := 61%N.  (* = *)

Fixpoint base64_encode (bs : bytes) : jsstring :=
  match bs with
  | [] => []
  | [a] =>
    let a := Byte.to_N a in
    [base64_char (a / 4); base64_char (a mod 4 * 16); BASE64_PAD; BASE64_PAD]%N
  | [a; b] =>
    let a := Byte.to_N a in
    let b := Byte.to_N b in
    [base64_char (a / 4); base64_char (a mod 4 * 16 + b / 16);
     base64_char (b mod 16 * 4); BASE64_PAD]%N
  | a :: b :: c :: rest =>
    let a := Byte.to_N a in
    let b := Byte.to_N b in
    let c := Byte.to_N c in
    [base64_char (a / 4); base64_char (a mod 4 * 16 + b / 16);
     base64_char (b mod 16 * 4 + c / 64); base64_char (c mod 64)]%N
      ++ base64_encode rest
  end.

(** The decoder accepts the standard and the URL-safe alphabet. *)
Definition unbase64 (c : N) : option N :=
  (if in_range 65 90 c then Some (c - 65)
   else if in_range 97 122 c then Some (c - 71)
   else if in_range 48 57 c then Some (c + 4)
   else if (c =? 43) || (c =? 45) then Some 62
   else if (c =? 47) || (c =? 95) then Some 63
   else None)%N.

(** The decoder reads a code unit of the string through a cast to
    [uint8_t]: of a code unit above 0xFF only the low byte counts, so
    that U+0141 is read as [A] and U+3D3D as [=]. *)
Definition low_byte (u : N) : N := (u mod 256)%N.

(** Decoding never throws: characters outside the alphabet (white space
    among them) are skipped, and the first [=] ends the input. *)
Fixpoint base64_sextets (s : jsstring) : list N :=
  match s with
  | [] => []
  | u :: rest =>
    let c := low_byte u in
    if (c =? BASE64_PAD)%N then []
    else match unbase64 c with
         | Some v => v :: base64_sextets rest
         | None => base64_sextets rest
         end
  end.

Fixpoint base64_bytes (vs : list N) : bytes :=
  match vs with
  | v0 :: v1 :: v2 :: v3 :: rest =>
    byte_of_N (v0 * 4 + v1 / 16) :: byte_of_N (v1 mod 16 * 16 + v2 / 4)
      :: byte_of_N (v2 mod 4 * 64 + v3) :: base64_bytes rest
  | [v0; v1; v2] =>
    [byte_of_N (v0 * 4 + v1 / 16); byte_of_N (v1 mod 16 * 16 + v2 / 4)]
  | [v0; v1] => [byte_of_N (v0 * 4 + v1 / 16)]
  | _ => []
  end%N.

Definition base64_decode (s : jsstring) : bytes :=
  base64_bytes (base64_sextets s).

(** ** JSON values, as [JSON.parse] returns them

    A number is an IEEE 754 double.  The fields of an object and the
    items of an array are listed in the order of their own property keys,
    the order in which [Object.keys] reports them; every key occurs
    once. *)

Inductive json : Type :=
| JNull
| JBool (b : bool)
| JNumber (x : SpecFloat.spec_float)
| JString (s : jsstring)
| JArray (items : list json)
| JObject (fields : list (jsstring * json)).

(** ** Errors, events and the world

    A thrown value is an [Error] object; the sources read only its
    [message]. *)

Record Error : Type := { message : jsstring }.

Inductive Result (A : Type) : Type :=
| Ok (value : A)
| Throw (error : Error).
Arguments Ok {A} value.
Arguments Throw {A} error.

(** What a run does that an instrumented test could observe. *)
Inductive event : Type :=
| CallDecrypt (encryptedData password : jsstring)
| CallPbkdf2 (password salt : bytes) (iterations : N) (keylen : nat) (digest : jsstring)
| Stdout (text : jsstring)
| Stderr (text : jsstring)
| ReadlineClose
| ProcessExit (code : N).

Record World : Type := {
  entropy : nat -> byte;                    (* the system's random source *)
  drawn : nat;                              (* random bytes consumed so far *)
  files : jsstring -> option jsstring;      (* the file system, by path *)
  ENCRYPTION_KEY : option jsstring;         (* process.env.ENCRYPTION_KEY *)
  trace : list event                        (* oldest event first *)
}.

(** A computation runs in a world, changes it, and returns or throws. *)
Definition M (A : Type) : Type := World -> Result A * World.

Definition ret {A} (a : A) : M A := fun w => (Ok a, w).

Definition throw {A} (e : Error) : M A := fun w => (Throw e, w).

Definition bind {A B} (c : M A) (k : A -> M B) : M B :=
  fun w =>
    match c w with
    | (Ok a, w') => k a w'
    | (Throw e, w') => (Throw e, w')
    end.

(** [try { c } catch (error) { handler }] *)
Definition try_catch {A} (c : M A) (handler : Error -> M A) : M A :=
  fun w =>
    match c w with
    | (Ok a, w') => (Ok a, w')
    | (Throw e, w') => handler e w'
    end.

Declare Scope js_scope.
Delimit Scope js_scope with js.
Notation "x <- c ;; k" := (bind c (fun x => k))
  (at level 61, c at next level, right associativity) : js_scope.
Notation "c ;; k" := (bind c (fun _ => k))
  (at level 61, right associativity) : js_scope.
Open Scope js_scope.

(** The world after an event, and after [n] random bytes were drawn. *)
Definition record (e : event) (w : World) : World :=
  {| entropy := entropy w; drawn := drawn w; files := files w;
     ENCRYPTION_KEY := ENCRYPTION_KEY w; trace := trace w ++ [e] |}.

Definition consume (n : nat) (w : World) : World :=
  {| entropy := entropy w; drawn := drawn w + n; files := files w;
     ENCRYPTION_KEY := ENCRYPTION_KEY w; trace := trace w |}.

(** The world with another value of the environment variable. *)
Definition set_ENCRYPTION_KEY (key : option jsstring) (w : World) : World :=
  {| entropy := entropy w; drawn := drawn w; files := files w;
     ENCRYPTION_KEY := key; trace := trace w |}.

(** The next [n] bytes of the random source. *)
Definition next_random (n : nat) (w : World) : bytes :=
  map (fun i => entropy w (drawn w + i)) (seq 0 n).

Definition emit (e : event) : M unit := fun w => (Ok tt, record e w).

(** [crypto.randomBytes(size)] *)
Definition randomBytes (size : nat) : M bytes :=
  fun w => (Ok (next_random size w), consume size w).

(** [fs.readFileSync(path, 'utf-8')] *)
Definition readFileSync (path : jsstring) : M jsstring :=
  fun w =>
    match files w path with
    | Some content => (Ok content, w)
    | None =>
      (Throw {| message := js "ENOENT: no such file or directory, open '" ++ path ++ js "'" |}, w)
    end.

(** [process.env.ENCRYPTION_KEY] *)
Definition process_env_ENCRYPTION_KEY : M (option jsstring) :=
  fun w => (Ok (ENCRYPTION_KEY w), w).

Definition console_log (text : jsstring) : M unit := emit (Stdout text).
Definition console_error (text : jsstring) : M unit := emit (Stderr text).

(** ** The cryptographic primitives

    SHA-512, the AES-256 counter-mode key stream of GCM and the GCM tag
    computation are taken as given, and so is the JSON parser. *)

Class Primitives : Type := {
  (** SHA-512 of a message: 64 bytes. *)
  sha512 : bytes -> bytes;
  (** The GCM key stream for a key and an initialization vector:
      [len] bytes from byte offset [offset]. *)
  gcm_keystream : forall (key iv : bytes) (offset len : nat), bytes;
  (** The 16-byte GCM authentication tag of a ciphertext under a key and
      an initialization vector (no additional authenticated data). *)
  gcm_tag : forall (key iv ciphertext : bytes), bytes
}.

(** [JSON.parse]: a document, or a [SyntaxError]. *)
Class Parser : Type := {
  JSON_parse : jsstring -> Result json
}.

Class PrimitiveLaws (P : Primitives) : Prop := {
  sha512_length : forall m, length (sha512 m) = 64%nat;
  gcm_keystream_length : forall key iv offset len,
      length (gcm_keystream key iv offset len) = len;
  gcm_tag_length : forall key iv c, length (gcm_tag key iv c) = 16%nat
}.

Fixpoint bytes_eqb (xs ys : bytes) : bool :=
  match xs, ys with
  | [], [] => true
  | x :: xs', y :: ys' => Byte.eqb x y && bytes_eqb xs' ys'
  | _, _ => false
  end.

(** [String(n)] for a length or an array index. *)
Definition decimal (n : nat) : jsstring :=
  js (DecimalString.NilZero.string_of_uint (Nat.to_uint n)).

Section Node.
Context {P : Primitives} {J : Parser}.

(** *** HMAC-SHA-512 (RFC 2104) and PBKDF2 (RFC 8018, section 5.2) *)

Definition SHA512_BLOCK_SIZE : nat := 128.
Definition SHA512_OUTPUT_SIZE : nat := 64.

(** The key is hashed when longer than a block, and padded with zero
    bytes to a full block. *)
Definition hmac_block_key (key : bytes) : bytes :=
  let k := if (SHA512_BLOCK_SIZE <? length key)%nat then sha512 key else key in
  k ++ repeat x00 (SHA512_BLOCK_SIZE - length k).

Definition hmac_sha512 (key message : bytes) : bytes :=
  let k := hmac_block_key key in
  sha512 (map (byte_xor x5c) k ++ sha512 (map (byte_xor x36) k ++ message)).

Definition INT_32_BE (i : N) : bytes :=
  [byte_of_N (i / 16777216); byte_of_N (i / 65536); byte_of_N (i / 256); byte_of_N i]%N.

(** One output block: [U_1 xor U_2 xor ... xor U_c]. *)
Definition pbkdf2_block (password salt : bytes) (c : N) (i : N) : bytes :=
  let U1 := hmac_sha512 password (salt ++ INT_32_BE i) in
  snd (N.iter (c - 1)
         (fun UT : bytes * bytes =>
            let U := hmac_sha512 password (fst UT) in (U, xor_bytes (snd UT) U))
         (U1, U1)).

Fixpoint pbkdf2_blocks (password salt : bytes) (c : N) (count : nat) (i : N) : bytes :=
  match count with
  | O => []
  | S count' => pbkdf2_block password salt c i ++ pbkdf2_blocks password salt c count' (i + 1)
  end.

Definition pbkdf2_hmac_sha512 (password salt : bytes) (c : N) (dkLen : nat) : bytes :=
  firstn dkLen
    (pbkdf2_blocks password salt c
       ((dkLen + SHA512_OUTPUT_SIZE - 1) / SHA512_OUTPUT_SIZE) 1).

(** [crypto.pbkdf2Sync(password, salt, iterations, keylen, digest)]; a
    string password is taken as its UTF-8 bytes.  Only the digest the
    sources use is available. *)
Definition pbkdf2Sync (password : jsstring) (salt : bytes) (iterations : N)
    (keylen : nat) (digest : jsstring) : M bytes :=
  emit (CallPbkdf2 (utf8_encode password) salt iterations keylen digest) ;;
  if jsstring_eqb digest (js "sha512")
  then ret (pbkdf2_hmac_sha512 (utf8_encode password) salt iterations keylen)
  else throw {| message := js "Invalid digest: " ++ digest |}.

(** *** The AES-256-GCM [Cipher] and [Decipher] objects *)

Record Cipher : Type := {
  cipher_key : bytes;
  cipher_iv : bytes;
  cipher_output : bytes          (* the ciphertext produced so far *)
}.

Record Decipher : Type := {
  decipher_key : bytes;
  decipher_iv : bytes;
  decipher_tag : option bytes;   (* set by setAuthTag *)
  decipher_input : bytes         (* the ciphertext consumed so far *)
}.

Definition AES_256_KEY_LENGTH : nat := 32.

Definition check_cipher_arguments (algorithm : jsstring) (key iv : bytes) : M unit :=
  if negb (jsstring_eqb algorithm (js "aes-256-gcm"))
  then throw {| message := js "Unknown cipher" |}
  else if negb (length key =? AES_256_KEY_LENGTH)%nat
  then throw {| message := js "Invalid key length" |}
  else if (length iv =? 0)%nat
  then throw {| message := js "Invalid initialization vector" |}
  else ret tt.

(** [crypto.createCipheriv(algorithm, key, iv)] *)
Definition createCipheriv (algorithm : jsstring) (key iv : bytes) : M Cipher :=
  check_cipher_arguments algorithm key iv ;;
  ret {| cipher_key := key; cipher_iv := iv; cipher_output := [] |}.

(** [cipher.update(data)]: the new state and the bytes returned. *)
Definition cipher_update (c : Cipher) (data : bytes) : Cipher * bytes :=
  let out :=
    xor_bytes data
      (gcm_keystream (cipher_key c) (cipher_iv c) (length (cipher_output c)) (length data)) in
  ({| cipher_key := cipher_key c; cipher_iv := cipher_iv c;
      cipher_output := cipher_output c ++ out |}, out).

(** [cipher.final()]: a stream mode holds nothing back. *)
Definition cipher_final (c : Cipher) : Cipher * bytes := (c, []).

(** [cipher.getAuthTag()] *)
Definition getAuthTag (c : Cipher) : bytes :=
  gcm_tag (cipher_key c) (cipher_iv c) (cipher_output c).

(** [crypto.createDecipheriv(algorithm, key, iv)] *)
Definition createDecipheriv (algorithm : jsstring) (key iv : bytes) : M Decipher :=
  check_cipher_arguments algorithm key iv ;;
  ret {| decipher_key := key; decipher_iv := iv; decipher_tag := None;
         decipher_input := [] |}.

(** The tag lengths GCM accepts. *)
Definition valid_gcm_tag_length (n : nat) : bool :=
  ((n =? 4) || (n =? 8) || ((12 <=? n) && (n <=? 16)))%nat.

(** [decipher.setAuthTag(tag)] *)
Definition setAuthTag (d : Decipher) (tag : bytes) : M Decipher :=
  if valid_gcm_tag_length (length tag)
  then ret {| decipher_key := decipher_key d; decipher_iv := decipher_iv d;
              decipher_tag := Some tag; decipher_input := decipher_input d |}
  else throw {| message := js "Invalid authentication tag length: " ++ decimal (length tag) |}.

(** [decipher.update(data)] *)
Definition decipher_update (d : Decipher) (data : bytes) : Decipher * bytes :=
  let out :=
    xor_bytes data
      (gcm_keystream (decipher_key d) (decipher_iv d) (length (decipher_input d)) (length data)) in
  ({| decipher_key := decipher_key d; decipher_iv := decipher_iv d;
      decipher_tag := decipher_tag d; decipher_input := decipher_input d ++ data |}, out).

Definition AUTHENTICATION_FAILED : Error :=
  {| message := js "Unsupported state or unable to authenticate data" |}.

(** [decipher.final()]: the tag computed over the ciphertext consumed is
    compared with the tag set, over the length of the tag set. *)
Definition decipher_final (d : Decipher) : M bytes :=
  match decipher_tag d with
  | Some tag =>
    if bytes_eqb tag
         (firstn (length tag) (gcm_tag (decipher_key d) (decipher_iv d) (decipher_input d)))
    then ret []
    else throw AUTHENTICATION_FAILED
  | None => throw AUTHENTICATION_FAILED
  end.

(** ** src/utils/encryptionHelper.ts *)

Definition ALGORITHM : jsstring := js "aes-256-gcm".
Definition IV_LENGTH : nat := 16.
Definition SALT_LENGTH : nat := 64.
Definition TAG_LENGTH : nat := 16.
Definition ITERATIONS : N := 100000.

Definition encrypt (text password : jsstring) : M jsstring :=
  salt <- randomBytes SALT_LENGTH ;;
  iv <- randomBytes IV_LENGTH ;;
  key <- pbkdf2Sync password salt ITERATIONS 32 (js "sha512") ;;
  cipher <- createCipheriv ALGORITHM key iv ;;
  let (cipher1, chunk) := cipher_update cipher (utf8_encode text) in
  let (cipher2, rest) := cipher_final cipher1 in
  let encrypted := chunk ++ rest in
  let tag := getAuthTag cipher2 in
  let result := salt ++ iv ++ tag ++ encrypted in
  ret (base64_encode result).

Definition decrypt (encryptedData password : jsstring) : M jsstring :=
  emit (CallDecrypt encryptedData password) ;;
  let data := base64_decode encryptedData in
  let salt := subarray data 0 SALT_LENGTH in
  let iv := subarray data SALT_LENGTH (SALT_LENGTH + IV_LENGTH) in
  let tag := subarray data (SALT_LENGTH + IV_LENGTH) (SALT_LENGTH + IV_LENGTH + TAG_LENGTH) in
  let encrypted := subarray_from data (SALT_LENGTH + IV_LENGTH + TAG_LENGTH) in
  key <- pbkdf2Sync password salt ITERATIONS 32 (js "sha512") ;;
  decipher <- createDecipheriv ALGORITHM key iv ;;
  decipher1 <- setAuthTag decipher tag ;;
  let (decipher2, chunk) := decipher_update decipher1 encrypted in
  rest <- decipher_final decipher2 ;;
  let decrypted := chunk ++ rest in
  ret (utf8_decode decrypted).

(** ** src/utils/jsonhelper.ts *)

Fixpoint lookup (name : jsstring) (fields : list (jsstring * json)) : option json :=
  match fields with
  | [] => None
  | (k, v) :: rest => if jsstring_eqb k name then Some v else lookup name rest
  end.

(** [v?.name] for the two names the source reads, [credentials] and
    [password]: only an object can have them; on [undefined], [null], a
    primitive or an array the access yields [undefined]. *)
Definition get (v : option json) (name : jsstring) : option json :=
  match v with
  | Some (JObject fields) => lookup name fields
  | _ => None
  end.

(** The truthiness of a value in a condition. *)
Definition truthy (v : option json) : bool :=
  match v with
  | None => false
  | Some JNull => false
  | Some (JBool b) => b
  | Some (JNumber (SpecFloat.S754_zero _)) => false
  | Some (JNumber SpecFloat.S754_nan) => false
  | Some (JNumber _) => true
  | Some (JString s) => match s with [] => false | _ :: _ => true end
  | Some (JArray _) => true
  | Some (JObject _) => true
  end.

(** [typeof v === 'object'] *)
Definition typeof_object (v : json) : bool :=
  match v with
  | JNull | JArray _ | JObject _ => true
  | _ => false
  end.

(** [fields.name = v]: an existing property keeps its place, a new one
    is added last. *)
Fixpoint assign (name : jsstring) (v : json) (fields : list (jsstring * json))
  : list (jsstring * json) :=
  match fields with
  | [] => [(name, v)]
  | (k, x) :: rest =>
    if jsstring_eqb k name then (k, v) :: rest else (k, x) :: assign name v rest
  end.

(** [entry.credentials.password = v], where [entry.credentials] is an
    object: the credentials object is changed in place. *)
Definition set_password (entry : json) (v : json) : json :=
  match entry with
  | JObject fields =>
    match lookup (js "credentials") fields with
    | Some (JObject credentials) =>
      JObject (assign (js "credentials")
                 (JObject (assign (js "password") v credentials)) fields)
    | _ => entry
    end
  | _ => entry
  end.

(** The own properties of a document, as [Object.keys] lists their
    keys: the fields of an object, the indices of an array. *)
Definition own_entries (data : json) : list (jsstring * json) :=
  match data with
  | JObject fields => fields
  | JArray items => combine (map decimal (seq 0 (length items))) items
  | _ => []
  end.

Definition with_entries (data : json) (entries : list (jsstring * json)) : json :=
  match data with
  | JObject _ => JObject entries
  | JArray _ => JArray (map snd entries)
  | _ => data
  end.

Definition ENCRYPTED_PREFIX : jsstring := js "encrypted:".

Definition dquote : string := String "034"%char EmptyString.

Definition MISSING_KEY_MESSAGE : jsstring :=
  js "ENCRYPTION_KEY environment variable is required to decrypt passwords. "
  ++ js "Set it with: export ENCRYPTION_KEY=" ++ js dquote ++ js "your-key-here" ++ js dquote.

Definition decrypt_failed_message (env : jsstring) (error : Error) : jsstring :=
  js "Failed to decrypt password for " ++ env ++ js " environment. "
  ++ js "Verify ENCRYPTION_KEY is correct. Error: " ++ message error.

(** [!encryptionKey] *)
Definition key_missing (encryptionKey : option jsstring) : bool :=
  match encryptionKey with
  | None | Some [] => true
  | Some (_ :: _) => false
  end.

(** The body of the [forEach] callback, for the key [env] and the value
    [data[env]]; the result is the value of [data[env]] afterwards. *)
Definition visit_env (encryptionKey : option jsstring) (env : jsstring) (entry : json)
  : M json :=
  let field := get (get (Some entry) (js "credentials")) (js "password") in
  if truthy field then
    match field with
    | Some (JString password) =>
      if startsWith password ENCRYPTED_PREFIX then
        if key_missing encryptionKey then
          throw {| message := MISSING_KEY_MESSAGE |}
        else
          try_catch
            (let encryptedData := substring password (length ENCRYPTED_PREFIX) in
             plaintext <- decrypt encryptedData
                            (match encryptionKey with Some k => k | None => [] end) ;;
             ret (set_password entry (JString plaintext)))
            (fun error => throw {| message := decrypt_failed_message env error |})
      else ret entry
    | _ => ret entry
    end
  else ret entry.

(** [Object.keys(data).forEach(env => ...)]: the keys are visited in
    order; a visit reads and writes only [data[env]], so the loop is a
    traversal of the entries, and a throw ends it. *)
Fixpoint forEach_env (encryptionKey : option jsstring) (entries : list (jsstring * json))
  : M (list (jsstring * json)) :=
  match entries with
  | [] => ret []
  | (env, entry) :: rest =>
    entry' <- visit_env encryptionKey env entry ;;
    rest' <- forEach_env encryptionKey rest ;;
    ret ((env, entry') :: rest')
  end.

Definition parse (rawData : jsstring) : M json :=
  fun w => (JSON_parse rawData, w).

Definition readJsonFile (filePath : jsstring) : M json :=
  rawData <- readFileSync filePath ;;
  data <- parse rawData ;;
  encryptionKey <- process_env_ENCRYPTION_KEY ;;
  if truthy (Some data) && typeof_object data then
    entries <- forEach_env encryptionKey (own_entries data) ;;
    ret (with_entries data entries)
  else ret data.

(** ** scripts/encryptPassword.ts

    The script carries its own copy of [encrypt], the same text as the
    helper's.  The operator's two answers are the arguments. *)

Definition NEWLINE : jsstring := [10%N].
Definition CHECK_MARK : jsstring := [0x2713%N].

(** [!s] for a string *)
Definition empty_string (s : jsstring) : bool :=
  match s with [] => true | _ :: _ => false end.

(** [rl.question(query, callback)] writes the query to the output. *)
Definition question (query : jsstring) : M unit := emit (Stdout query).

Definition config_line (encrypted : jsstring) : jsstring :=
  js dquote ++ js "password" ++ js dquote ++ js ": " ++ js dquote
  ++ js "encrypted:" ++ encrypted ++ js dquote ++ NEWLINE.

Definition export_line (encryptionKey : jsstring) : jsstring :=
  js "export ENCRYPTION_KEY=" ++ js dquote ++ encryptionKey ++ js dquote.

Definition encryptPassword (password encryptionKey : jsstring) : M unit :=
  console_log (js "=== Password Encryption Utility ===" ++ NEWLINE) ;;
  question (js "Enter password to encrypt: ") ;;
  question (js "Enter encryption key (store in ENCRYPTION_KEY env var): ") ;;
  if empty_string password || empty_string encryptionKey then
    console_error (NEWLINE ++ js "Error: Both password and encryption key are required") ;;
    emit ReadlineClose ;;
    emit (ProcessExit 1)
  else
    try_catch
      (encrypted <- encrypt password encryptionKey ;;
       console_log (NEWLINE ++ CHECK_MARK ++ js " Password encrypted successfully!" ++ NEWLINE) ;;
       console_log (js "Add this to config.json:") ;;
       console_log (config_line encrypted) ;;
       console_log (js "Set this environment variable locally:") ;;
       console_log (export_line encryptionKey) ;;
       console_log (NEWLINE ++ js "For GitHub Actions, add ENCRYPTION_KEY to repository secrets."
                    ++ NEWLINE))
      (fun error => console_error (NEWLINE ++ js "Error: " ++ message error)) ;;
    emit ReadlineClose.

End Node.

(** ** Notions used in the statements *)

Section Notions.
Context {P : Primitives}.

(** The key [encrypt] and [decrypt] derive from a passphrase and a salt,
    and the event that records the derivation. *)
Definition derived_key (password : jsstring) (salt : bytes) : bytes :=
  pbkdf2_hmac_sha512 (utf8_encode password) salt 100000 32.

Definition key_derivation (password : jsstring) (salt : bytes) : event :=
  CallPbkdf2 (utf8_encode password) salt 100000 32 (js "sha512").

(** AES-256-GCM in one piece: counter-mode encryption, the same
    operation for decryption. *)
Definition gcm_crypt (key iv input : bytes) : bytes :=
  xor_bytes input (gcm_keystream key iv 0 (length input)).

Definition INVALID_IV : Error := {| message := js "Invalid initialization vector" |}.

Definition INVALID_TAG_LENGTH (n : nat) : Error :=
  {| message := js "Invalid authentication tag length: " ++ decimal n |}.

(** What the [Decipher] makes of a key, an initialization vector, a tag
    and a ciphertext. *)
Definition decipher_outcome (key iv tag ciphertext : bytes) : Result jsstring :=
  if (length iv =? 0)%nat then Throw INVALID_IV
  else if valid_gcm_tag_length (length tag) then
    if bytes_eqb tag (firstn (length tag) (gcm_tag key iv ciphertext))
    then Ok (utf8_decode (gcm_crypt key iv ciphertext))
    else Throw AUTHENTICATION_FAILED
  else Throw (INVALID_TAG_LENGTH (length tag)).

(** The bytes of the envelope [encrypt] makes in a world. *)
Definition sealed (text password : jsstring) (w : World) : bytes :=
  let salt := next_random 64 w in
  let iv := next_random 16 (consume 64 w) in
  let key := derived_key password salt in
  let ciphertext := gcm_crypt key iv (utf8_encode text) in
  salt ++ iv ++ gcm_tag key iv ciphertext ++ ciphertext.

(** [buf[i] = b] *)
Definition set_byte (i : nat) (b : byte) (buf : bytes) : bytes :=
  firstn i buf ++ b :: skipn (S i) buf.

(** What GCM's authentication gives for a key and an initialization
    vector: the tag tells a changed byte of the ciphertext.  The GHASH
    values of two ciphertexts that differ in one byte differ by the
    changed block times a power of the hash subkey (NIST SP 800-38D,
    section 6.4), so AES-GCM has this for every key whose hash subkey is
    not zero. *)
Definition tag_tells_a_changed_byte (key iv : bytes) : Prop :=
  forall (c : bytes) (i : nat) (b : byte),
    (i < length c)%nat -> nth i c x00 <> b ->
    gcm_tag key iv (set_byte i b c) <> gcm_tag key iv c.

(** The password of an entry when it bears the marker. *)
Definition marked_password (entry : json) : option jsstring :=
  match get (get (Some entry) (js "credentials")) (js "password") with
  | Some (JString password) =>
    if startsWith password ENCRYPTED_PREFIX then Some password else None
  | _ => None
  end.

Definition is_marked (entry : jsstring * json) : bool :=
  match marked_password (snd entry) with
  | Some _ => true
  | None => false
  end.

(** [fields'] is [fields] with the value of its property [name]
    replaced by [v], nothing else changed. *)
Definition replaced (name : jsstring) (v : json) (fields fields' : list (jsstring * json))
  : Prop :=
  exists before old after,
    fields = before ++ (name, old) :: after /\
    fields' = before ++ (name, v) :: after /\
    lookup name before = None.

(** [entry'] is [entry] with [credentials.password] replaced by [v],
    nothing else changed. *)
Definition password_replaced (v : json) (entry entry' : json) : Prop :=
  exists fields credentials credentials',
    entry = JObject fields /\
    lookup (js "credentials") fields = Some (JObject credentials) /\
    replaced (js "password") v credentials credentials' /\
    exists fields', entry' = JObject fields' /\
      replaced (js "credentials") (JObject credentials') fields fields'.

(** How an entry of the loaded document relates to the entry it was
    in the parsed document, under the key of the environment: the same
    key, and either the same value, or the value with its marked password
    replaced by the text [decrypt] returns for it. *)
Definition resolved (key : option jsstring) (w : World) (before after : jsstring * json)
  : Prop :=
  fst after = fst before /\
  match marked_password (snd before) with
  | None => snd after = snd before
  | Some password =>
    exists k plaintext,
      key = Some k /\ k <> [] /\
      fst (decrypt (substring password (length ENCRYPTED_PREFIX)) k w) = Ok plaintext /\
      password_replaced (JString plaintext) (snd before) (snd after)
  end.

(** An entry whose marked password [decrypt] rejects under a key. *)
Definition fails_to_decrypt (k : jsstring) (w : World) (entry : json) (error : Error) : Prop :=
  exists password,
    marked_password entry = Some password /\
    fst (decrypt (substring password (length ENCRYPTED_PREFIX)) k w) = Throw error.

Fixpoint count_decrypt_calls (t : list event) : nat :=
  match t with
  | [] => 0
  | CallDecrypt _ _ :: t' => S (count_decrypt_calls t')
  | _ :: t' => count_decrypt_calls t'
  end.

Fixpoint count_key_derivations (t : list event) : nat :=
  match t with
  | [] => 0
  | CallPbkdf2 _ _ _ _ _ :: t' => S (count_key_derivations t')
  | _ :: t' => count_key_derivations t'
  end.

(** Everything the script printed, on either stream. *)
Fixpoint printed (t : list event) : list jsstring :=
  match t with
  | [] => []
  | Stdout text :: t' => text :: printed t'
  | Stderr text :: t' => text :: printed t'
  | _ :: t' => printed t'
  end.

End Notions.

(** ** The structure of the GCM tag (NIST SP 800-38D, sections 6.4 and 7.1)

    The tag of a ciphertext (with no additional authenticated data) is
    the GHASH of its blocks and of the block of the lengths, masked with
    the encryption of the pre-counter block. *)

Definition ZERO_BLOCK : bytes := repeat x00 16.

(** The first [n] blocks of a buffer, 16 bytes each, the last one padded
    with zero bytes. *)
Fixpoint blocks_of (n : nat) (c : bytes) : list bytes :=
  match n with
  | O => []
  | S n' =>
    (firstn 16 c ++ repeat x00 (16 - length (firstn 16 c))) :: blocks_of n' (skipn 16 c)
  end.

Definition blocks (c : bytes) : list bytes := blocks_of ((length c + 15) / 16) c.

(** The lengths in bits of the additional data, none, and of the
    ciphertext, 64 bits each. *)
Definition length_block (c : bytes) : bytes :=
  repeat x00 8
  ++ map (fun k => byte_of_N (N.of_nat (8 * length c) / 256 ^ k)) [7; 6; 5; 4; 3; 2; 1; 0]%N.

(** GHASH under the hash subkey [H], with the multiplication of
    GF(2^128): [Y_0 = 0] and [Y_i = (Y_(i-1) xor X_i) * H]. *)
Definition ghash (mul : bytes -> bytes -> bytes) (H : bytes) (xs : list bytes) : bytes :=
  fold_left (fun Y X => mul (xor_bytes Y X) H) xs ZERO_BLOCK.

(** ** Stand-ins for the primitives, to run the model on examples *)

Definition stub_sha512 (m : bytes) : bytes := repeat (hd x00 m) 64.

Definition stub_keystream (key iv : bytes) (offset len : nat) : bytes :=
  map (fun i => byte_xor (nth (i mod 32) key x00) (nth (i mod 16) iv x00)) (seq offset len).

Definition stub_tag (key iv ciphertext : bytes) : bytes :=
  repeat (fold_left byte_xor (key ++ iv ++ ciphertext) x00) 16.

Definition stub_primitives : Primitives :=
  {| sha512 := stub_sha512;
     gcm_keystream := stub_keystream;
     gcm_tag := stub_tag |}.

(** Stand-ins with the structure of GCM's tag: a product that returns
    its first factor, and a hash subkey that is not zero. *)
Definition stub_block_mul (x h : bytes) : bytes := firstn 16 (x ++ ZERO_BLOCK).

Definition structured_primitives : Primitives :=
  {| sha512 := stub_sha512;
     gcm_keystream := stub_keystream;
     gcm_tag := fun key iv c =>
       xor_bytes ZERO_BLOCK
         (ghash stub_block_mul (repeat x01 16) (blocks c ++ [length_block c])) |}.

(** A parser that reads every file as the same document. *)
Definition stub_parser (parsed : Result json) : Parser :=
  {| JSON_parse := fun _ => parsed |}.

(** A world whose random source counts upwards, starting at [seed],
    with one file, [config.json]. *)
Definition sample_world (seed : nat) (key : option jsstring) : World :=
  {| entropy := fun i => byte_of_N (N.of_nat (seed + i));
     drawn := 0;
     files := fun path => if jsstring_eqb path (js "config.json") then Some (js "{}") else None;
     ENCRYPTION_KEY := key;
     trace := [] |}.

(** A configuration document: the environment [QA] with the given
    password, then the environment [UAT] with a plain password. *)
Definition sample_config (password : jsstring) : json :=
  JObject
    [(js "QA",
      JObject [(js "baseURL", JString (js "https://www.youtube.com"));
               (js "credentials",
                JObject [(js "username", JString (js "tester@example.com"));
                         (js "password", JString password)])]);
     (js "UAT",
      JObject [(js "baseURL", JString (js "https://uat.example.com"));
               (js "credentials",
                JObject [(js "username", JString (js "uat@example.com"));
                         (js "password", JString (js "plainPass123"))])])].

(* ================================================================== *)
(** * Part I, continued.  The screenshot utilities, the page objects and
    the authentication set-up                                          *)
(* ================================================================== *)

(** ** Notions used in the statements about envelope texts *)

(** The characters of a base64 text: letters, digits, [+], [/] and the
    padding [=]. *)
Definition base64_alphabet (c : N) : bool :=
  in_range 65 90 c || in_range 97 122 c || in_range 48 57 c
  || (c =? 43)%N || (c =? 47)%N || (c =? BASE64_PAD)%N.

(** White space as it occurs in a wrapped or copied base64 text. *)
Definition base64_white_space (c : N) : bool :=
  ((c =? 32) || (c =? 9) || (c =? 10) || (c =? 13))%N.


(** ** Dates (ECMA-262, section 21.4.1)

    A [Date] holds a time value: the milliseconds since 1 January 1970
    UTC, an integer.  Days, years, months and the fields of the time of
    day are computed from it as the standard defines them. *)

Module Date.
Local Open Scope Z_scope.

Definition msPerDay : Z := 86400000.

Definition Day (t : Z) : Z := t / msPerDay.

Definition DaysInYear (y : Z) : Z :=
  if negb (y mod 4 =? 0) then 365
  else if negb (y mod 100 =? 0) then 366
  else if negb (y mod 400 =? 0) then 365
  else 366.

Definition DayFromYear (y : Z) : Z :=
  365 * (y - 1970) + (y - 1969) / 4 - (y - 1901) / 100 + (y - 1601) / 400.

(** The largest year that starts on or before the day of [t]: the year
    estimated from the mean length of a year is off by one at most
    (lemma [YearFromTime_spec]). *)
Definition YearFromTime (t : Z) : Z :=
  let d := Day t in
  let e := 1970 + (400 * d) / 146097 in
  if DayFromYear (e + 1) <=? d then e + 1
  else if DayFromYear e <=? d then e
  else e - 1.

Definition InLeapYear (t : Z) : Z :=
  if DaysInYear (YearFromTime t) =? 366 then 1 else 0.

Definition DayWithinYear (t : Z) : Z := Day t - DayFromYear (YearFromTime t).

(** January is month 0. *)
Definition MonthFromTime (t : Z) : Z :=
  let d := DayWithinYear t in
  let leap := InLeapYear t in
  if d <? 31 then 0
  else if d <? 59 + leap then 1
  else if d <? 90 + leap then 2
  else if d <? 120 + leap then 3
  else if d <? 151 + leap then 4
  else if d <? 181 + leap then 5
  else if d <? 212 + leap then 6
  else if d <? 243 + leap then 7
  else if d <? 273 + leap then 8
  else if d <? 304 + leap then 9
  else if d <? 334 + leap then 10
  else 11.

Definition DateFromTime (t : Z) : Z :=
  let d := DayWithinYear t in
  let leap := InLeapYear t in
  match MonthFromTime t with
  | 0 => d + 1
  | 1 => d - 30
  | 2 => d - 58 - leap
  | 3 => d - 89 - leap
  | 4 => d - 119 - leap
  | 5 => d - 150 - leap
  | 6 => d - 180 - leap
  | 7 => d - 211 - leap
  | 8 => d - 242 - leap
  | 9 => d - 272 - leap
  | 10 => d - 303 - leap
  | _ => d - 333 - leap
  end.

(** The days of a year before a month. *)
Definition days_before_month (m leap : Z) : Z :=
  match m with
  | 0 => 0 | 1 => 31 | 2 => 59 + leap | 3 => 90 + leap | 4 => 120 + leap
  | 5 => 151 + leap | 6 => 181 + leap | 7 => 212 + leap | 8 => 243 + leap
  | 9 => 273 + leap | 10 => 304 + leap | _ => 334 + leap
  end.

Definition HourFromTime (t : Z) : Z := (t / 3600000) mod 24.
Definition MinFromTime (t : Z) : Z := (t / 60000) mod 60.
Definition SecFromTime (t : Z) : Z := (t / 1000) mod 60.
Definition msFromTime (t : Z) : Z := t mod 1000.

(** A number in [width] decimal digits, padded with zeros. *)
Fixpoint padded (width : nat) (n : Z) : jsstring :=
  match width with
  | O => []
  | S width' => padded width' (n / 10) ++ [(48 + Z.to_N (n mod 10))%N]
  end.

(** The year of the date-time format: four digits from 0 to 9999, and
    a sign and six digits otherwise. *)
Definition year_string (y : Z) : jsstring :=
  if (0 <=? y) && (y <=? 9999) then padded 4 y
  else (if y <? 0 then js "-" else js "+") ++ padded 6 (Z.abs y).

(** [date.toISOString()]: [YYYY-MM-DDTHH:mm:ss.sssZ] *)
Definition toISOString (t : Z) : jsstring :=
  year_string (YearFromTime t) ++ js "-" ++ padded 2 (MonthFromTime t + 1) ++ js "-"
  ++ padded 2 (DateFromTime t) ++ js "T" ++ padded 2 (HourFromTime t) ++ js ":"
  ++ padded 2 (MinFromTime t) ++ js ":" ++ padded 2 (SecFromTime t) ++ js "."
  ++ padded 3 (msFromTime t) ++ js "Z".

End Date.

(** [s.replace(/c/g, d)] for single characters [c] and [d] *)
Definition replace_all (c d : N) (s : jsstring) : jsstring :=
  map (fun u => if (u =? c)%N then d else u) s.

(** [s.split(sep)] for a separator of one character: the pieces between
    the separators, at least one. *)
Fixpoint split (sep : N) (s : jsstring) : list jsstring :=
  match s with
  | [] => [[]]
  | u :: rest =>
    if (u =? sep)%N then [] :: split sep rest
    else match split sep rest with
         | piece :: pieces => (u :: piece) :: pieces
         | [] => [[u]]
         end
  end.

Definition COLON : N := 58%N.
Definition HYPHEN : N := 45%N.
Definition FULL_STOP : N := 46%N.

(** ** src/utils/ScreenshotUtils.ts

    [now] is the time value of [new Date()], the reading of the clock. *)
Definition generateScreenshotFilename (now : Z) : jsstring :=
  let timestamp := hd [] (split FULL_STOP (replace_all COLON HYPHEN (Date.toISOString now))) in
  js "screenshot-" ++ timestamp ++ js ".png".

(** ** Notions used in the statements about the file name *)

Definition is_digit (c : N) : bool := in_range 48 57 c.

(** A string with neither a colon nor a full stop. *)
Definition plain (s : jsstring) : bool :=
  forallb (fun c => negb (c =? COLON)%N && negb (c =? FULL_STOP)%N) s.

(** The time stamp of the file name: the date and the time of day to
    the second, with hyphens for the colons. *)
Definition stamp (t : Z) : jsstring :=
  Date.year_string (Date.YearFromTime t) ++ js "-"
  ++ Date.padded 2 (Date.MonthFromTime t + 1) ++ js "-"
  ++ Date.padded 2 (Date.DateFromTime t) ++ js "T"
  ++ Date.padded 2 (Date.HourFromTime t) ++ js "-"
  ++ Date.padded 2 (Date.MinFromTime t) ++ js "-" ++ Date.padded 2 (Date.SecFromTime t).


(** ** Playwright: locators, the page and the browser behind it

    The page objects drive a browser through Playwright.  What they ask
    of the page is a [request]; the browser answers every request by
    resolving or rejecting its promise, and with a value where the
    request has one.  The answers are the browser's, whatever they are:
    they may depend on everything done before.  With the browser comes
    the file system that the files are written to. *)

Inductive Locator : Type :=
| locator (selector : jsstring)                        (* page.locator(selector) *)
| getByRole (role name : jsstring)                      (* page.getByRole(role, { name }) *)
| getByLabel (text : jsstring)                          (* page.getByLabel(text) *)
| first (target : Locator)                              (* target.first() *)
| locator_in (target : Locator) (selector : jsstring).  (* target.locator(selector) *)

Inductive request : Type :=
| page_goto (url : jsstring)
| page_waitForLoadState (state : jsstring) (timeout : option N)
| page_waitForTimeout (ms : N)
| page_waitForURL (url : jsstring) (timeout : N)
| page_screenshot (path : jsstring) (fullPage : bool)
| context_storageState (path : jsstring)
| locator_waitFor (target : Locator) (state : jsstring) (timeout : N)
| locator_click (target : Locator)
| locator_fill (target : Locator) (value : jsstring)
| locator_isVisible (target : Locator) (timeout : N)
| locator_textContent (target : Locator)
| locator_count (target : Locator).

(** What a run does, in order: requests to the page and lines written
    with [console.log]. *)
Inductive step : Type :=
| did (r : request)
| logged (text : jsstring).

Record Browser : Type := {
  (** the error a request is rejected with, if it is rejected *)
  rejects : list step -> request -> option Error;
  (** the values of [isVisible], [textContent] and [count] *)
  visible : list step -> Locator -> bool;
  content : list step -> Locator -> option jsstring;
  matches : list step -> Locator -> nat;
  (** the directories made on the way to a file or a directory: those
      above it that were missing *)
  made : list step -> jsstring -> bool
}.

Record Session : Type := {
  browser : Browser;
  steps : list step;            (* oldest step first *)
  cwd : jsstring;               (* process.cwd() *)
  disk : jsstring -> bool       (* the paths that exist in the file system *)
}.

(** An [async] function, awaited: it runs in a session, and resolves
    with a value or rejects with an error. *)
Definition Async (A : Type) : Type := Session -> Result A * Session.

Definition resolve {A} (a : A) : Async A := fun s => (Ok a, s).

Definition reject {A} (e : Error) : Async A := fun s => (Throw e, s).

(** [const x = await c; k] *)
Definition await {A B} (c : Async A) (k : A -> Async B) : Async B :=
  fun s =>
    match c s with
    | (Ok a, s') => k a s'
    | (Throw e, s') => (Throw e, s')
    end.

(** [try { c } catch (error) { handler }] *)
Definition try_await {A} (c : Async A) (handler : Error -> Async A) : Async A :=
  fun s =>
    match c s with
    | (Ok a, s') => (Ok a, s')
    | (Throw e, s') => handler e s'
    end.

(** The outcome of an awaited call inside a [try]: the statements after
    it run when it resolved, the [catch] block when it rejected. *)
Definition settled {A} (c : Async A) : Async (Result A) :=
  fun s =>
    match c s with
    | (Ok a, s') => (Ok (Ok a), s')
    | (Throw e, s') => (Ok (Throw e), s')
    end.

Declare Scope async_scope.
Delimit Scope async_scope with async.
Notation "x <~ c ;; k" := (await c (fun x => k))
  (at level 61, c at next level, right associativity) : async_scope.
Notation "c ;;; k" := (await c (fun _ => k))
  (at level 61, right associativity) : async_scope.

Definition after (x : step) (s : Session) : Session :=
  {| browser := browser s; steps := steps s ++ [x]; cwd := cwd s; disk := disk s |}.

(** The session once a file or a directory has been made at [path].
    The directories above it that were missing are made with it, by
    [mkdirSync] with [recursive: true] and by Playwright before it writes
    a file ([mkdir(dirname(path), { recursive: true })]); which paths
    those are is the environment's answer. *)
Definition with_path (path : jsstring) (s : Session) : Session :=
  {| browser := browser s; steps := steps s; cwd := cwd s;
     disk := fun p => jsstring_eqb p path || made (browser s) (steps s) p || disk s p |}.

(** A request to the page: it is made, and resolves or rejects. *)
Definition perform (r : request) : Async unit :=
  fun s =>
    match rejects (browser s) (steps s) r with
    | None => (Ok tt, after (did r) s)
    | Some error => (Throw error, after (did r) s)
    end.

(** [console.log(text)] in a test or a page object *)
Definition log (text : jsstring) : Async unit :=
  fun s => (Ok tt, after (logged text) s).

Section PageObjects.
Local Open Scope async_scope.

Definition waitFor (target : Locator) (state : jsstring) (timeout : N) : Async unit :=
  perform (locator_waitFor target state timeout).

Definition click (target : Locator) : Async unit := perform (locator_click target).

Definition fill (target : Locator) (value : jsstring) : Async unit :=
  perform (locator_fill target value).

Definition isVisible (target : Locator) (timeout : N) : Async bool :=
  fun s =>
    match perform (locator_isVisible target timeout) s with
    | (Ok _, s') => (Ok (visible (browser s) (steps s) target), s')
    | (Throw e, s') => (Throw e, s')
    end.

Definition textContent (target : Locator) : Async (option jsstring) :=
  fun s =>
    match perform (locator_textContent target) s with
    | (Ok _, s') => (Ok (content (browser s) (steps s) target), s')
    | (Throw e, s') => (Throw e, s')
    end.

Definition count (target : Locator) : Async nat :=
  fun s =>
    match perform (locator_count target) s with
    | (Ok _, s') => (Ok (matches (browser s) (steps s) target), s')
    | (Throw e, s') => (Throw e, s')
    end.

Definition goto (url : jsstring) : Async unit := perform (page_goto url).

Definition waitForLoadState (state : jsstring) (timeout : option N) : Async unit :=
  perform (page_waitForLoadState state timeout).

Definition waitForTimeout (ms : N) : Async unit := perform (page_waitForTimeout ms).

Definition waitForURL (url : jsstring) (timeout : N) : Async unit :=
  perform (page_waitForURL url timeout).

(** [fs.existsSync(path)] *)
Definition existsSync (path : jsstring) : Async bool :=
  fun s => (Ok (disk s path), s).

(** [fs.mkdirSync(path, { recursive: true })]: the directory is there
    afterwards, with the directories above it, and nothing is wrong if it
    was there before. *)
Definition mkdirSync (path : jsstring) : Async unit :=
  fun s => (Ok tt, with_path path s).

(** [process.cwd()] *)
Definition process_cwd : Async jsstring := fun s => (Ok (cwd s), s).

(** A request that writes a file when it resolves: the file is there
    afterwards, with the directories above it. *)
Definition written (path : jsstring) : Async unit :=
  fun s => (Ok tt, with_path path s).

(** [page.context().storageState({ path })] *)
Definition storageState (path : jsstring) : Async unit :=
  perform (context_storageState path) ;;;
  written path.

(** [page.screenshot({ path, fullPage })] *)
Definition screenshot (path : jsstring) (fullPage : bool) : Async unit :=
  perform (page_screenshot path fullPage) ;;;
  written path.

(** [expect(value).toBeTruthy()] *)
Definition expect_toBeTruthy (value : bool) : Async unit :=
  if value then resolve tt
  else reject {| message := js "expect(received).toBeTruthy()" |}.

(** ** String.prototype.trim

    White space and line terminators, as ECMA-262 lists them. *)
Definition is_white_space (c : N) : bool :=
  ((c =? 0x09) || (c =? 0x0A) || (c =? 0x0B) || (c =? 0x0C) || (c =? 0x0D)
   || (c =? 0x20) || (c =? 0xA0) || (c =? 0x1680)
   || ((0x2000 <=? c) && (c <=? 0x200A))
   || (c =? 0x2028) || (c =? 0x2029) || (c =? 0x202F) || (c =? 0x205F)
   || (c =? 0x3000) || (c =? 0xFEFF))%N.

Fixpoint trimStart (s : jsstring) : jsstring :=
  match s with
  | c :: rest => if is_white_space c then trimStart rest else s
  | [] => []
  end.

Definition trimEnd (s : jsstring) : jsstring := rev (trimStart (rev s)).

Definition trim (s : jsstring) : jsstring := trimEnd (trimStart s).

End PageObjects.

(** ** path.join and path.normalize (POSIX), segment by segment *)

Definition SLASH : N := 47%N.

Definition DOT : jsstring := js ".".
Definition DOT_DOT : jsstring := js "..".

(** [pieces.join('/')] *)
Fixpoint join_segments (pieces : list jsstring) : jsstring :=
  match pieces with
  | [] => []
  | [piece] => piece
  | piece :: rest => piece ++ SLASH :: join_segments rest
  end.

(** The segments of a path are taken in turn, with the segments kept so
    far as a stack, the last one first: an empty segment and [.] are
    dropped, [..] takes away the segment before it, or is kept where
    there is none to take away and the path is relative. *)
Fixpoint normalize_segments (allowAboveRoot : bool) (kept segments : list jsstring)
  : list jsstring :=
  match segments with
  | [] => kept
  | segment :: rest =>
    if empty_string segment || jsstring_eqb segment DOT
    then normalize_segments allowAboveRoot kept rest
    else if jsstring_eqb segment DOT_DOT then
      match kept with
      | top :: below =>
        if jsstring_eqb top DOT_DOT
        then normalize_segments allowAboveRoot
               (if allowAboveRoot then DOT_DOT :: kept else kept) rest
        else normalize_segments allowAboveRoot below rest
      | [] =>
        normalize_segments allowAboveRoot
          (if allowAboveRoot then [DOT_DOT] else []) rest
      end
    else normalize_segments allowAboveRoot (segment :: kept) rest
  end.

Definition isAbsolute (path : jsstring) : bool := (hd 0 path =? SLASH)%N.

Definition trailingSeparator (path : jsstring) : bool := (last path 0 =? SLASH)%N.

(** [path.normalize(path)] *)
Definition path_normalize (path : jsstring) : jsstring :=
  match path with
  | [] => DOT
  | _ :: _ =>
    let kept := normalize_segments (negb (isAbsolute path)) [] (split SLASH path) in
    match join_segments (rev kept) with
    | [] =>
      if isAbsolute path then [SLASH]
      else if trailingSeparator path then DOT ++ [SLASH] else DOT
    | normalized =>
      (if isAbsolute path then [SLASH] else [])
      ++ normalized ++ (if trailingSeparator path then [SLASH] else [])
    end
  end.

(** [path.join(...paths)] *)
Definition path_join (paths : list jsstring) : jsstring :=
  match filter (fun p => negb (empty_string p)) paths with
  | [] => DOT
  | parts => path_normalize (join_segments parts)
  end.

(** ** src/utils/ScreenshotUtils.ts: the methods that use the page and
    the file system *)

Section ScreenshotUtils.
Local Open Scope async_scope.

Definition takeScreenshot (filename : jsstring) : Async jsstring :=
  current <~ process_cwd ;;
  let screenshotDir := path_join [current; js "screenshots"] in
  present <~ existsSync screenshotDir ;;
  (if negb present then mkdirSync screenshotDir else resolve tt) ;;;
  let screenshotPath := path_join [screenshotDir; filename] in
  screenshot screenshotPath false ;;;
  log (js "Screenshot saved to: " ++ screenshotPath) ;;;
  resolve screenshotPath.

Definition screenshotExists (filename : jsstring) : Async bool :=
  current <~ process_cwd ;;
  let screenshotPath := path_join [current; js "screenshots"; filename] in
  existsSync screenshotPath.

End ScreenshotUtils.

(** ** src/pages/GoogleLoginPage.ts *)

Module GoogleLoginPage.
Section Methods.
Local Open Scope async_scope.

Definition emailInput : Locator :=
  locator (js "input[type=" ++ js dquote ++ js "email" ++ js dquote ++ js "]").

Definition nextButtonAfterEmail : Locator := getByRole (js "button") (js "Next").

Definition passwordInput : Locator := getByLabel (js "Enter your password").

Definition nextButtonAfterPassword : Locator := getByRole (js "button") (js "Next").

Definition signInButton : Locator :=
  locator (js "button[type=" ++ js dquote ++ js "submit" ++ js dquote ++ js "]").

Definition errorMessage : Locator :=
  locator (js "[role=" ++ js dquote ++ js "alert" ++ js dquote ++ js "], .error-message").

Definition enterEmail (email : jsstring) : Async unit :=
  waitFor emailInput (js "visible") 10000 ;;;
  fill emailInput email ;;;
  log (CHECK_MARK ++ js " Entered email: " ++ email).

Definition clickNextAfterEmail : Async unit :=
  waitFor nextButtonAfterEmail (js "visible") 10000 ;;;
  click nextButtonAfterEmail ;;;
  waitForLoadState (js "networkidle") None ;;;
  log (CHECK_MARK ++ js " Clicked Next after email").

Definition enterPassword (password : jsstring) : Async unit :=
  waitFor passwordInput (js "visible") 10000 ;;;
  fill passwordInput password ;;;
  log (CHECK_MARK ++ js " Entered password").

Definition clickNextAfterPassword : Async unit :=
  waitFor nextButtonAfterPassword (js "visible") 10000 ;;;
  click nextButtonAfterPassword ;;;
  log (CHECK_MARK ++ js " Clicked Next after password").

Definition performLogin (email password : jsstring) : Async unit :=
  log (js "Starting Google login process...") ;;;
  enterEmail email ;;;
  clickNextAfterEmail ;;;
  enterPassword password ;;;
  clickNextAfterPassword ;;;
  waitForTimeout 3000 ;;;
  log (CHECK_MARK ++ js " Google login completed").

Definition isLoginSuccessful : Async bool :=
  try_await
    (errorVisible <~ isVisible errorMessage 3000 ;;
     resolve (negb errorVisible))
    (fun _ => resolve true).

End Methods.
End GoogleLoginPage.

(** ** src/pages/YouTubePage.ts *)

Module YouTubePage.
Section Methods.
Local Open Scope async_scope.

Definition searchBox : Locator :=
  locator (js "input[name=" ++ js dquote ++ js "search_query" ++ js dquote ++ js "]").

Definition searchButton : Locator := locator (js "button.ytSearchboxComponentSearchButton").

Definition videoResults : Locator := locator (js "ytd-video-renderer").

Definition firstVideoThumbnail : Locator :=
  locator_in (first (locator (js "ytd-video-renderer"))) (js "a#thumbnail").

Definition videoTitle : Locator := locator (js "h1.ytd-watch-metadata yt-formatted-string").

Definition videoPlayer : Locator := first (locator (js "video.html5-main-video")).

Definition acceptCookiesButton : Locator :=
  first (locator (js "button[aria-label*=" ++ js dquote ++ js "Accept" ++ js dquote
                  ++ js "], button:has-text(" ++ js dquote ++ js "Accept all" ++ js dquote
                  ++ js ")")).

Definition skipAdButton : Locator :=
  first (locator (js "button.ytp-ad-skip-button, button.ytp-skip-ad-button, "
                  ++ js "button.ytp-ad-skip-button-modern, button:has-text("
                  ++ js dquote ++ js "Skip Ad" ++ js dquote ++ js "), button:has-text("
                  ++ js dquote ++ js "Skip Ads" ++ js dquote ++ js ")")).

Definition signInButton : Locator :=
  first (locator (js "a[aria-label=" ++ js dquote ++ js "Sign in" ++ js dquote ++ js "]")).

Definition userAvatar : Locator :=
  first (locator (js "button#avatar-btn, ytd-topbar-menu-button-renderer button[aria-label*="
                  ++ js dquote ++ js "Google Account" ++ js dquote ++ js "]")).

Definition navigate : Async unit :=
  goto [] ;;;
  waitForLoadState (js "domcontentloaded") None.

Definition acceptCookies : Async unit :=
  try_await
    (shown <~ isVisible acceptCookiesButton 5000 ;;
     if shown then click acceptCookiesButton else resolve tt)
    (fun _ => log (js "No cookie consent dialog found or already accepted")).

Definition maxAds : nat := 5.

Definition WARNING_SIGN : jsstring := [0x26A0%N].

(** The [catch] block of the loop; the [break] follows it. *)
Definition no_more_ads (adCount : nat) : Async unit :=
  if (adCount =? 0)%nat then log (js "No ads detected or skip button not available")
  else log (js "No additional ads detected after " ++ decimal adCount ++ js " ad(s)").

(** [while (adCount < maxAds) { try { ... } catch (error) { ...; break; } }]:
    the value of [adCount] when the loop ends.  [adCount] is raised
    inside the [try], between the two awaited calls, and read in the
    [catch]; a round that does not break raises it by one, so [fuel]
    rounds are enough when [maxAds - adCount <= fuel]. *)
Fixpoint skipAds_loop (fuel : nat) (adCount : nat) : Async nat :=
  match fuel with
  | O => resolve adCount
  | S fuel' =>
    if (adCount <? maxAds)%nat then
      detected <~ settled (waitFor skipAdButton (js "visible") 10000) ;;
      match detected with
      | Throw _ => no_more_ads adCount ;;; resolve adCount
      | Ok _ =>
        let adCount := S adCount in
        log (js "Ad " ++ decimal adCount
             ++ js " detected, waiting for skip button to be clickable...") ;;;
        skipped <~ settled (click skipAdButton) ;;
        match skipped with
        | Throw _ => no_more_ads adCount ;;; resolve adCount
        | Ok _ =>
          log (CHECK_MARK ++ js " Skipped ad " ++ decimal adCount) ;;;
          skipAds_loop fuel' adCount
        end
      end
    else resolve adCount
  end.

Definition skipAds : Async unit :=
  try_await
    (log (js "Checking for ads...") ;;;
     adCount <~ skipAds_loop maxAds 0 ;;
     (if (maxAds <=? adCount)%nat
      then log (WARNING_SIGN ++ js " Reached maximum ad limit (" ++ decimal maxAds
                ++ js "), continuing with test")
      else resolve tt) ;;;
     log (CHECK_MARK ++ js " Ad handling complete"))
    (fun _ => log (js "Ad handling completed or no ads present")).

Definition searchFor (keyword : jsstring) : Async unit :=
  waitFor searchBox (js "visible") 10000 ;;;
  fill searchBox keyword ;;;
  click searchButton ;;;
  waitForLoadState (js "domcontentloaded") (Some 60000%N).

Definition getResultsCount : Async nat :=
  waitFor (first videoResults) (js "visible") 20000 ;;;
  count videoResults.

Definition clickFirstVideo : Async unit :=
  waitFor firstVideoThumbnail (js "visible") 10000 ;;;
  click firstVideoThumbnail ;;;
  waitForLoadState (js "domcontentloaded") None ;;;
  waitFor videoPlayer (js "attached") 15000.

(** [title?.trim() || ''] *)
Definition trimmed_or_empty (title : option jsstring) : jsstring :=
  match title with
  | Some text => match trim text with [] => [] | trimmed => trimmed end
  | None => []
  end.

Definition getVideoTitle : Async jsstring :=
  waitFor videoTitle (js "visible") 10000 ;;;
  title <~ textContent videoTitle ;;
  resolve (trimmed_or_empty title).

Definition clickSignIn : Async unit :=
  waitFor signInButton (js "visible") 10000 ;;;
  click signInButton ;;;
  waitForLoadState (js "networkidle") None ;;;
  log (CHECK_MARK ++ js " Clicked Sign In button").

Definition isSignedIn : Async bool :=
  try_await
    (waitFor userAvatar (js "visible") 5000 ;;; resolve true)
    (fun _ => resolve false).

End Methods.
End YouTubePage.

(** ** tests/authSetup/auth.setup.ts

    The project's [use] options give the credentials and the base URL;
    [authFile] is the path of the storage state file. *)

Section AuthSetup.
Local Open Scope async_scope.

Definition authenticate (username password baseURL authFile : jsstring) : Async unit :=
  log (js "Starting authentication setup...") ;;;
  YouTubePage.navigate ;;;
  YouTubePage.acceptCookies ;;;
  log (CHECK_MARK ++ js " Navigated to YouTube and accepted cookies") ;;;
  log (js "Initiating Google sign-in...") ;;;
  YouTubePage.clickSignIn ;;;
  GoogleLoginPage.performLogin username password ;;;
  waitForURL baseURL 30000 ;;;
  isSignedIn <~ YouTubePage.isSignedIn ;;
  expect_toBeTruthy isSignedIn ;;;
  log (CHECK_MARK ++ js " Successfully authenticated with Google") ;;;
  storageState authFile ;;;
  log (CHECK_MARK ++ js " Authentication state saved to " ++ authFile).

End AuthSetup.

(** ** Notions used in the statements about the page objects *)

(** The session after more steps. *)
Definition extend (new : list step) (s : Session) : Session :=
  {| browser := browser s; steps := steps s ++ new; cwd := cwd s; disk := disk s |}.

(** The requests among some steps, and the lines logged. *)
Fixpoint requests (l : list step) : list request :=
  match l with
  | [] => []
  | did r :: l' => r :: requests l'
  | logged _ :: l' => requests l'
  end.

Fixpoint lines (l : list step) : list jsstring :=
  match l with
  | [] => []
  | did _ :: l' => lines l'
  | logged text :: l' => text :: lines l'
  end.

Definition is_click (r : request) : bool :=
  match r with
  | locator_click _ => true
  | _ => false
  end.

(** The requests of [skipAds], of [acceptCookies], and the check of
    [isSignedIn]. *)
Definition skip_ad_request (r : request) : Prop :=
  r = locator_waitFor YouTubePage.skipAdButton (js "visible") 10000 \/
  r = locator_click YouTubePage.skipAdButton.

Definition cookie_request (r : request) : Prop :=
  r = locator_isVisible YouTubePage.acceptCookiesButton 5000 \/
  r = locator_click YouTubePage.acceptCookiesButton.

Definition AVATAR_CHECK : request :=
  locator_waitFor YouTubePage.userAvatar (js "visible") 5000.

(** What [performLogin] does when nothing is rejected, in order. *)
Definition performLogin_steps (email password : jsstring) : list step :=
  [logged (js "Starting Google login process...");
   did (locator_waitFor GoogleLoginPage.emailInput (js "visible") 10000);
   did (locator_fill GoogleLoginPage.emailInput email);
   logged (CHECK_MARK ++ js " Entered email: " ++ email);
   did (locator_waitFor GoogleLoginPage.nextButtonAfterEmail (js "visible") 10000);
   did (locator_click GoogleLoginPage.nextButtonAfterEmail);
   did (page_waitForLoadState (js "networkidle") None);
   logged (CHECK_MARK ++ js " Clicked Next after email");
   did (locator_waitFor GoogleLoginPage.passwordInput (js "visible") 10000);
   did (locator_fill GoogleLoginPage.passwordInput password);
   logged (CHECK_MARK ++ js " Entered password");
   did (locator_waitFor GoogleLoginPage.nextButtonAfterPassword (js "visible") 10000);
   did (locator_click GoogleLoginPage.nextButtonAfterPassword);
   logged (CHECK_MARK ++ js " Clicked Next after password");
   did (page_waitForTimeout 3000);
   logged (CHECK_MARK ++ js " Google login completed")].

(** The lines the authentication set-up can write. *)
Definition authenticate_lines (username authFile : jsstring) : list jsstring :=
  [js "Starting authentication setup...";
   js "No cookie consent dialog found or already accepted";
   CHECK_MARK ++ js " Navigated to YouTube and accepted cookies";
   js "Initiating Google sign-in...";
   CHECK_MARK ++ js " Clicked Sign In button";
   js "Starting Google login process...";
   CHECK_MARK ++ js " Entered email: " ++ username;
   CHECK_MARK ++ js " Clicked Next after email";
   CHECK_MARK ++ js " Entered password";
   CHECK_MARK ++ js " Clicked Next after password";
   CHECK_MARK ++ js " Google login completed";
   CHECK_MARK ++ js " Successfully authenticated with Google";
   CHECK_MARK ++ js " Authentication state saved to " ++ authFile].


(** ** Notions used in the statements about paths *)

Definition no_slash (s : jsstring) : bool := forallb (fun c => negb (c =? SLASH)%N) s.

Definition is_dot_dot (segment : jsstring) : bool := jsstring_eqb segment DOT_DOT.

(** A segment that stays as it is. *)
Definition regular (segment : jsstring) : bool :=
  negb (empty_string segment) && negb (jsstring_eqb segment DOT)
  && negb (is_dot_dot segment) && no_slash segment.

(** The segments kept by [normalize_segments], the last one first: names,
    above as many [..] as were kept, which are kept in a relative path
    only. *)
Fixpoint normal (allowAboveRoot : bool) (kept : list jsstring) : bool :=
  match kept with
  | [] => true
  | segment :: below =>
    if is_dot_dot segment then allowAboveRoot && forallb is_dot_dot below
    else regular segment && normal allowAboveRoot below
  end.

(** What [path_normalize] makes of the segments it kept. *)
Definition assemble (absolute trailing : bool) (kept : list jsstring) : jsstring :=
  match join_segments (rev kept) with
  | [] => if absolute then [SLASH] else if trailing then DOT ++ [SLASH] else DOT
  | normalized =>
    (if absolute then [SLASH] else []) ++ normalized ++ (if trailing then [SLASH] else [])
  end.

Definition SCREENSHOTS : jsstring := js "screenshots".

(** ** A stand-in for the browser, to run the page objects on examples *)

(** A browser in which every request resolves, every element is
    visible and has the text [text], and every locator matches once. *)
Definition obliging_browser (text : option jsstring) : Browser :=
  {| rejects := fun _ _ => None;
     visible := fun _ _ => true;
     content := fun _ _ => text;
     matches := fun _ _ => 1%nat;
     made := fun _ _ => false |}.

(** A browser that shows the skip button for the first [ads] ads and
    then no more: the wait for the button times out. *)
Definition browser_with_ads (ads : nat) : Browser :=
  {| rejects := fun history r =>
       match r with
       | locator_waitFor _ _ _ =>
         if (length (filter is_click (requests history)) <? ads)%nat then None
         else Some {| message := js "Timeout 10000ms exceeded." |}
       | _ => None
       end;
     visible := fun _ _ => true;
     content := fun _ _ => None;
     matches := fun _ _ => 0%nat;
     made := fun _ _ => false |}.

(** A session at its start, in the working directory of a runner. *)
Definition sample_session (b : Browser) : Session :=
  {| browser := b; steps := []; cwd := js "/home/runner/work/e2e";
     disk := fun _ => false |}.


(* ================================================================== *)
(** * Part II.  Lemmas                                                  *)
(* ================================================================== *)

Ltac Zify.zify_post_hook ::= Z.to_euclidean_division_equations.

(** Decides the comparisons of the goal one after the other, closing the
    branches that contradict the arithmetic facts at hand. *)
Ltac plain_term t :=
  lazymatch t with
  | context [if _ then _ else _] => fail
  | _ => idtac
  end.

Ltac decide_comparisons :=
  repeat match goal with
  | |- context [N.eqb ?a ?b] =>
    plain_term a; plain_term b; destruct (N.eqb_spec a b); try lia
  | |- context [N.ltb ?a ?b] =>
    plain_term a; plain_term b; destruct (N.ltb_spec a b); try lia
  | |- context [N.leb ?a ?b] =>
    plain_term a; plain_term b; destruct (N.leb_spec a b); try lia
  end.

Lemma to_N_byte_of_N (n : N) : (n < 256)%N -> Byte.to_N (byte_of_N n) = n.
Proof.
  intros Hn. unfold byte_of_N.
  rewrite N.mod_small by exact Hn.
  destruct (Byte.of_N n) as [b|] eqn:E.
  - now apply Byte.to_of_N.
  - apply Byte.of_N_None_iff in E. lia.
Qed.

Lemma byte_of_N_to_N (b : byte) : byte_of_N (Byte.to_N b) = b.
Proof.
  unfold byte_of_N. pose proof (Byte.to_N_bounded b).
  rewrite N.mod_small by lia. now rewrite Byte.of_to_N.
Qed.

Section Utf8Decoder.
Variables (b0 b1 b2 b3 : byte) (r : bytes).
Let n0 := Byte.to_N b0.

Lemma utf8_decode_ascii :
  (n0 <? 0x80)%N = true -> utf8_decode (b0 :: r) = n0 :: utf8_decode r.
Proof. subst n0. intros H0. cbn [utf8_decode]. now rewrite H0. Qed.

Lemma utf8_decode_two :
  (n0 <? 0x80)%N = false -> in_range 0xC2 0xDF n0 = true ->
  continuation b1 = true ->
  utf8_decode (b0 :: b1 :: r)
  = ((n0 - 0xC0) * 64 + (Byte.to_N b1 - 0x80))%N :: utf8_decode r.
Proof. subst n0. intros H0 H1 H2. cbn [utf8_decode]. now rewrite H0, H1, H2. Qed.

Lemma utf8_decode_three :
  (n0 <? 0x80)%N = false -> in_range 0xC2 0xDF n0 = false ->
  in_range 0xE0 0xEF n0 = true ->
  in_range (if n0 =? 0xE0 then 0xA0 else 0x80)%N
           (if n0 =? 0xED then 0x9F else 0xBF)%N (Byte.to_N b1) = true ->
  continuation b2 = true ->
  utf8_decode (b0 :: b1 :: b2 :: r)
  = ((n0 - 0xE0) * 4096 + (Byte.to_N b1 - 0x80) * 64 + (Byte.to_N b2 - 0x80))%N
    :: utf8_decode r.
Proof.
  subst n0. intros H0 H1 H2 H3 H4. cbn [utf8_decode].
  now rewrite H0, H1, H2, H3, H4.
Qed.

Lemma utf8_decode_four :
  (n0 <? 0x80)%N = false -> in_range 0xC2 0xDF n0 = false ->
  in_range 0xE0 0xEF n0 = false -> in_range 0xF0 0xF4 n0 = true ->
  in_range (if n0 =? 0xF0 then 0x90 else 0x80)%N
           (if n0 =? 0xF4 then 0x8F else 0xBF)%N (Byte.to_N b1) = true ->
  continuation b2 = true -> continuation b3 = true ->
  utf8_decode (b0 :: b1 :: b2 :: b3 :: r)
  = code_units_of_code_point
      ((n0 - 0xF0) * 262144 + (Byte.to_N b1 - 0x80) * 4096
       + (Byte.to_N b2 - 0x80) * 64 + (Byte.to_N b3 - 0x80))%N
    ++ utf8_decode r.
Proof.
  subst n0. intros H0 H1 H2 H3 H4 H5 H6. cbn [utf8_decode].
  now rewrite H0, H1, H2, H3, H4, H5, H6.
Qed.
End Utf8Decoder.

Ltac utf8_side_condition :=
  unfold continuation, in_range; rewrite ?to_N_byte_of_N by lia;
  decide_comparisons; reflexivity.

Lemma utf8_decode_code_point (c : N) (bs : bytes) :
  scalar_value c ->
  utf8_decode (utf8_of_code_point c ++ bs) = code_units_of_code_point c ++ utf8_decode bs.
Proof.
  intros Hc. unfold scalar_value in Hc.
  unfold utf8_of_code_point.
  destruct (N.ltb_spec c 0x80);
    [|destruct (N.ltb_spec c 0x800); [|destruct (N.ltb_spec c 0x10000)]];
    cbn [app].
  - rewrite utf8_decode_ascii by utf8_side_condition.
    rewrite to_N_byte_of_N by lia.
    unfold code_units_of_code_point. decide_comparisons. reflexivity.
  - rewrite utf8_decode_two by utf8_side_condition.
    rewrite !to_N_byte_of_N by lia.
    unfold code_units_of_code_point. decide_comparisons. cbn [app]. f_equal. lia.
  - rewrite utf8_decode_three by utf8_side_condition.
    rewrite !to_N_byte_of_N by lia.
    unfold code_units_of_code_point. decide_comparisons. cbn [app]. f_equal. lia.
  - rewrite utf8_decode_four by utf8_side_condition.
    rewrite !to_N_byte_of_N by lia. f_equal. f_equal. lia.
Qed.

Lemma utf8_roundtrip_aux (n : nat) :
  forall s : jsstring, (length s <= n)%nat -> isWellFormed s = true ->
  utf8_decode (utf8_encode s) = s.
Proof.
  induction n as [|n IH]; intros s Hlen Hwf.
  - destruct s; [reflexivity | simpl in Hlen; lia].
  - destruct s as [|u rest]; [reflexivity|].
    cbn [isWellFormed utf8_encode] in *.
    destruct (is_high_surrogate u) eqn:Hu.
    + destruct rest as [|l rest']; [discriminate|].
      apply andb_prop in Hwf. destruct Hwf as [Hl Hwf].
      rewrite Hl.
      unfold is_high_surrogate, is_low_surrogate in Hu, Hl.
      apply andb_prop in Hu. apply andb_prop in Hl.
      destruct Hu as [Hu1 Hu2]. destruct Hl as [Hl1 Hl2].
      apply N.leb_le in Hu1, Hu2, Hl1, Hl2.
      rewrite utf8_decode_code_point by (unfold scalar_value; lia).
      rewrite IH by (simpl in Hlen; try lia; assumption).
      unfold code_units_of_code_point.
      destruct (N.ltb_spec (0x10000 + (u - 0xD800) * 0x400 + (l - 0xDC00)) 0x10000); [lia|].
      cbn [app]. f_equal; [lia|]. f_equal. lia.
    + apply andb_prop in Hwf. destruct Hwf as [Hwf1 Hwf].
      apply andb_prop in Hwf1. destruct Hwf1 as [Hl Hb].
      apply negb_true_iff in Hl. rewrite Hl.
      apply N.ltb_lt in Hb.
      assert (Hs : scalar_value u).
      { unfold scalar_value, is_high_surrogate, is_low_surrogate in *.
        apply andb_false_iff in Hu, Hl.
        rewrite !N.leb_gt in Hu, Hl. lia. }
      rewrite utf8_decode_code_point by exact Hs.
      rewrite IH by (simpl in Hlen; try lia; assumption).
      unfold code_units_of_code_point.
      destruct (N.ltb_spec u 0x10000); [reflexivity | lia].
Qed.

Lemma utf8_roundtrip (s : jsstring) :
  isWellFormed s = true -> utf8_decode (utf8_encode s) = s.
Proof. apply (utf8_roundtrip_aux (length s)). lia. Qed.

Lemma code_units_of_code_point_length (c : N) :
  (length (code_units_of_code_point c) <= 2)%nat.
Proof. unfold code_units_of_code_point. destruct (c <? 0x10000)%N; cbn; lia. Qed.

(** One step of the decoder: some code units, at most as many as the
    bytes the step consumed, then the decoding of a suffix. *)
Lemma utf8_decode_step (b0 : byte) (r0 : bytes) :
  exists units rest,
    utf8_decode (b0 :: r0) = units ++ utf8_decode rest /\
    (length rest <= length r0)%nat /\
    (length units + length rest <= S (length r0))%nat.
Proof.
  cbn [utf8_decode].
  repeat match goal with
  | |- context [if ?c then _ else _] => destruct c
  | |- context [match ?l with [] => _ | _ :: _ => _ end] =>
    is_var l; destruct l; cbv beta iota
  end;
  match goal with
  | |- exists units rest, ?c ++ utf8_decode ?r = _ /\ _ =>
    exists c, r; split; [reflexivity|];
    pose proof (code_units_of_code_point_length
                  ltac:(match c with code_units_of_code_point ?x => exact x end));
    cbn [length] in *; lia
  | |- exists units rest, ?u :: utf8_decode ?r = _ /\ _ =>
    exists [u], r; split; [reflexivity | cbn [length]; lia]
  | |- exists units rest, [?u] = _ /\ _ =>
    exists [u], []; split; [reflexivity | cbn [length]; lia]
  end.
Qed.

Lemma utf8_decode_length_aux (n : nat) :
  forall bs : bytes, (length bs <= n)%nat -> (length (utf8_decode bs) <= length bs)%nat.
Proof.
  induction n as [|n IH]; intros bs Hlen.
  - destruct bs; [cbn; lia | cbn in Hlen; lia].
  - destruct bs as [|b0 r0]; [cbn; lia|].
    destruct (utf8_decode_step b0 r0) as (units & rest & -> & Hrest & Hstep).
    cbn [length] in *. rewrite length_app.
    assert (length rest <= n)%nat by lia.
    specialize (IH rest ltac:(assumption)). lia.
Qed.

Lemma utf8_decode_length (bs : bytes) : (length (utf8_decode bs) <= length bs)%nat.
Proof. apply (utf8_decode_length_aux (length bs)). lia. Qed.

(** ** Exclusive or *)

Lemma byte_xor_involutive (a k : byte) : byte_xor (byte_xor a k) k = a.
Proof.
  unfold byte_xor.
  destruct (Byte.to_bits a) as (a0, (a1, (a2, (a3, (a4, (a5, (a6, a7))))))) eqn:Ea.
  destruct (Byte.to_bits k) as (b0, (b1, (b2, (b3, (b4, (b5, (b6, b7))))))) eqn:Ek.
  rewrite Byte.to_bits_of_bits.
  rewrite <- (Byte.of_bits_to_bits a), Ea.
  f_equal. repeat rewrite xorb_assoc, xorb_nilpotent, xorb_false_r. reflexivity.
Qed.

Lemma xor_bytes_length (xs ks : bytes) :
  length xs = length ks -> length (xor_bytes xs ks) = length xs.
Proof.
  revert ks. induction xs as [|x xs IH]; intros [|k ks] H; simpl in *;
    try reflexivity; try discriminate.
  f_equal. apply IH. now injection H.
Qed.

Lemma xor_bytes_involutive (xs ks : bytes) :
  length xs = length ks -> xor_bytes (xor_bytes xs ks) ks = xs.
Proof.
  revert ks. induction xs as [|x xs IH]; intros [|k ks] H; simpl in *;
    try reflexivity; try discriminate.
  rewrite byte_xor_involutive. f_equal. apply IH. now injection H.
Qed.

(** ** Base64 *)

Lemma unbase64_base64_char (v : N) :
  (v < 64)%N -> unbase64 (base64_char v) = Some v.
Proof.
  intros Hv. unfold unbase64, base64_char, in_range.
  decide_comparisons; cbn [andb orb]; try (f_equal; lia).
Qed.

Lemma base64_char_not_pad (v : N) : (base64_char v =? BASE64_PAD)%N = false.
Proof.
  unfold base64_char, BASE64_PAD. decide_comparisons; reflexivity.
Qed.

Lemma low_byte_small (u : N) : (u < 256)%N -> low_byte u = u.
Proof. intros H. unfold low_byte. now apply N.mod_small. Qed.

Lemma low_byte_base64_char (v : N) : low_byte (base64_char v) = base64_char v.
Proof.
  apply low_byte_small. unfold base64_char. decide_comparisons; lia.
Qed.

Lemma base64_sextets_char (v : N) (s : jsstring) :
  (v < 64)%N -> base64_sextets (base64_char v :: s) = v :: base64_sextets s.
Proof.
  intros Hv. cbn [base64_sextets]. cbv zeta. rewrite low_byte_base64_char.
  now rewrite base64_char_not_pad, unbase64_base64_char.
Qed.

Lemma base64_sextets_pad (s : jsstring) : base64_sextets (BASE64_PAD :: s) = [].
Proof. reflexivity. Qed.

Lemma byte_of_N_eq (n : N) (b : byte) : n = Byte.to_N b -> byte_of_N n = b.
Proof. intros ->. apply byte_of_N_to_N. Qed.

Ltac bytes_eq :=
  repeat match goal with
  | |- _ :: _ = _ :: _ => f_equal
  | |- byte_of_N _ = _ => apply byte_of_N_eq; lia
  end.

Lemma base64_roundtrip_aux (n : nat) :
  forall bs : bytes, (length bs <= n)%nat -> base64_decode (base64_encode bs) = bs.
Proof.
  unfold base64_decode.
  induction n as [|n IH]; intros bs Hlen.
  - destruct bs; [reflexivity | simpl in Hlen; lia].
  - destruct bs as [|a [|b [|c rest]]]; [reflexivity | | | ].
    + cbn [base64_encode].
      pose proof (Byte.to_N_bounded a).
      rewrite !base64_sextets_char by lia. rewrite base64_sextets_pad.
      cbn [base64_bytes]. bytes_eq.
    + cbn [base64_encode].
      pose proof (Byte.to_N_bounded a). pose proof (Byte.to_N_bounded b).
      rewrite !base64_sextets_char by lia. rewrite base64_sextets_pad.
      cbn [base64_bytes].
      bytes_eq.
    + cbn [base64_encode app].
      pose proof (Byte.to_N_bounded a). pose proof (Byte.to_N_bounded b).
      pose proof (Byte.to_N_bounded c).
      rewrite !base64_sextets_char by lia.
      cbn [base64_bytes].
      rewrite IH by (simpl in Hlen; lia).
      bytes_eq.
Qed.

Lemma base64_roundtrip (bs : bytes) : base64_decode (base64_encode bs) = bs.
Proof. apply (base64_roundtrip_aux (length bs)). lia. Qed.

Lemma base64_encode_injective (xs ys : bytes) :
  base64_encode xs = base64_encode ys -> xs = ys.
Proof.
  intros H. rewrite <- (base64_roundtrip xs), <- (base64_roundtrip ys). now rewrite H.
Qed.

Lemma base64_sextets_length (s : jsstring) : (length (base64_sextets s) <= length s)%nat.
Proof.
  induction s as [|u s IH]; cbn [base64_sextets length]; [lia|]. cbv zeta.
  destruct (low_byte u =? BASE64_PAD)%N; [cbn; lia|].
  destruct (unbase64 (low_byte u)); cbn [length]; lia.
Qed.

Lemma base64_bytes_length_aux (n : nat) :
  forall vs : list N, (length vs <= n)%nat -> (length (base64_bytes vs) <= length vs)%nat.
Proof.
  induction n as [|n IH]; intros vs Hlen.
  - destruct vs; [cbn; lia | cbn in Hlen; lia].
  - destruct vs as [|v0 [|v1 [|v2 [|v3 rest]]]]; cbn [base64_bytes length] in *; try lia.
    specialize (IH rest ltac:(lia)). lia.
Qed.

Lemma base64_decode_length (s : jsstring) : (length (base64_decode s) <= length s)%nat.
Proof.
  unfold base64_decode.
  pose proof (base64_bytes_length_aux _ (base64_sextets s) (Nat.le_refl _)).
  pose proof (base64_sextets_length s). lia.
Qed.

(** ** HMAC and PBKDF2 *)

Section KeyDerivation.
Context {P : Primitives} {L : PrimitiveLaws P}.

Lemma hmac_sha512_length (key message : bytes) :
  length (hmac_sha512 key message) = 64%nat.
Proof. unfold hmac_sha512. apply sha512_length. Qed.

Lemma pbkdf2_block_length (password salt : bytes) (c i : N) :
  length (pbkdf2_block password salt c i) = 64%nat.
Proof.
  unfold pbkdf2_block.
  apply N.iter_invariant with (Inv := fun UT : bytes * bytes => length (snd UT) = 64%nat).
  - intros [U T] HT. cbn [fst snd] in *.
    rewrite xor_bytes_length; [exact HT|]. now rewrite hmac_sha512_length.
  - apply hmac_sha512_length.
Qed.

Lemma pbkdf2_blocks_length (password salt : bytes) (c : N) (count : nat) (i : N) :
  length (pbkdf2_blocks password salt c count i) = (64 * count)%nat.
Proof.
  revert i. induction count as [|count IH]; intros i; cbn [pbkdf2_blocks].
  - reflexivity.
  - rewrite length_app, pbkdf2_block_length, IH. lia.
Qed.

Lemma pbkdf2_hmac_sha512_length (password salt : bytes) (c : N) (dkLen : nat) :
  length (pbkdf2_hmac_sha512 password salt c dkLen) = dkLen.
Proof.
  unfold pbkdf2_hmac_sha512, SHA512_OUTPUT_SIZE.
  rewrite length_firstn, pbkdf2_blocks_length.
  pose proof (Nat.div_mod_eq (dkLen + 64 - 1) 64).
  pose proof (Nat.mod_upper_bound (dkLen + 64 - 1) 64). lia.
Qed.

End KeyDerivation.


(** A trailing zero byte does not change the key of an HMAC, so it does
    not change what PBKDF2 derives, whatever the hash function. *)
Section TrailingZero.
Context {P : Primitives}.





End TrailingZero.

#[global] Opaque pbkdf2_hmac_sha512.

(** ** Running [encrypt] and [decrypt] *)

Lemma bind_ok {A B} (c : M A) (k : A -> M B) (w w' : World) (a : A) :
  c w = (Ok a, w') -> bind c k w = k a w'.
Proof. intros H. unfold bind. now rewrite H. Qed.

Lemma bind_throw {A B} (c : M A) (k : A -> M B) (w w' : World) (e : Error) :
  c w = (Throw e, w') -> bind c k w = (Throw e, w').
Proof. intros H. unfold bind. now rewrite H. Qed.

Lemma Ok_injective {A} (a b : A) : Ok a = Ok b -> a = b.
Proof. congruence. Qed.

Lemma outcome_and_world {A} (run : Result A * World) (r : Result A) :
  fst run = r -> run = (r, snd run).
Proof. destruct run. cbn. now intros ->. Qed.

Lemma next_random_length (n : nat) (w : World) : length (next_random n w) = n.
Proof. unfold next_random. now rewrite length_map, length_seq. Qed.

Section Codec.
Context {P : Primitives} {L : PrimitiveLaws P}.

Lemma derived_key_length (password : jsstring) (salt : bytes) :
  length (derived_key password salt) = 32%nat.
Proof. apply pbkdf2_hmac_sha512_length. Qed.

Lemma pbkdf2Sync_run (password : jsstring) (salt : bytes) (w : World) :
  pbkdf2Sync password salt ITERATIONS 32 (js "sha512") w
  = (Ok (derived_key password salt), record (key_derivation password salt) w).
Proof. reflexivity. Qed.

Lemma check_cipher_arguments_ok (key iv : bytes) (w : World) :
  length key = 32%nat -> length iv <> 0%nat ->
  check_cipher_arguments ALGORITHM key iv w = (Ok tt, w).
Proof.
  intros Hk Hiv. unfold check_cipher_arguments.
  replace (jsstring_eqb ALGORITHM (js "aes-256-gcm")) with true by reflexivity.
  rewrite Hk. cbn [negb Nat.eqb AES_256_KEY_LENGTH].
  destruct (Nat.eqb_spec (length iv) 0); [contradiction | reflexivity].
Qed.

Lemma check_cipher_arguments_empty_iv (key : bytes) (w : World) :
  length key = 32%nat ->
  check_cipher_arguments ALGORITHM key [] w = (Throw INVALID_IV, w).
Proof.
  intros Hk. unfold check_cipher_arguments.
  replace (jsstring_eqb ALGORITHM (js "aes-256-gcm")) with true by reflexivity.
  rewrite Hk. reflexivity.
Qed.

Lemma encrypt_run (text password : jsstring) (w : World) :
  let salt := next_random 64 w in
  let iv := next_random 16 (consume 64 w) in
  let key := derived_key password salt in
  let ciphertext := gcm_crypt key iv (utf8_encode text) in
  encrypt text password w
  = (Ok (base64_encode (salt ++ iv ++ gcm_tag key iv ciphertext ++ ciphertext)),
     record (key_derivation password salt) (consume 16 (consume 64 w))).
Proof.
  intros salt iv key ciphertext. unfold encrypt.
  rewrite (bind_ok _ _ _ (consume 64 w) (salt)) by reflexivity.
  rewrite (bind_ok _ _ _ (consume 16 (consume 64 w)) (iv)) by reflexivity.
  rewrite (bind_ok _ _ _ _ _ (pbkdf2Sync_run password salt _)).
  fold key. unfold createCipheriv.
  rewrite (bind_ok _ _ _ (record (key_derivation password salt) (consume 16 (consume 64 w)))
             {| cipher_key := key; cipher_iv := iv; cipher_output := [] |}).
  2:{ assert (Hiv : length iv <> 0%nat)
        by (subst iv; rewrite next_random_length; discriminate).
      rewrite (bind_ok _ _ _ _ _
                 (check_cipher_arguments_ok key iv _ (derived_key_length password salt) Hiv)).
      reflexivity. }
  unfold cipher_update, cipher_final, getAuthTag, ret.
  cbn [cipher_key cipher_iv cipher_output app length].
  rewrite app_nil_r. reflexivity.
Qed.

Lemma decrypt_run (encryptedData password : jsstring) (w : World) :
  let data := base64_decode encryptedData in
  let salt := firstn 64 data in
  decrypt encryptedData password w
  = (decipher_outcome (derived_key password salt) (firstn 16 (skipn 64 data))
       (firstn 16 (skipn 80 data)) (skipn 96 data),
     record (key_derivation password salt) (record (CallDecrypt encryptedData password) w)).
Proof.
  intros data salt. unfold decrypt.
  rewrite (bind_ok _ _ _ (record (CallDecrypt encryptedData password) w) (tt))
    by reflexivity.
  fold data.
  change (subarray data 0 SALT_LENGTH) with salt.
  change (subarray data SALT_LENGTH (SALT_LENGTH + IV_LENGTH)) with (firstn 16 (skipn 64 data)).
  change (subarray data (SALT_LENGTH + IV_LENGTH) (SALT_LENGTH + IV_LENGTH + TAG_LENGTH))
    with (firstn 16 (skipn 80 data)).
  change (subarray_from data (SALT_LENGTH + IV_LENGTH + TAG_LENGTH)) with (skipn 96 data).
  rewrite (bind_ok _ _ _ _ _ (pbkdf2Sync_run password salt _)).
  set (key := derived_key password salt).
  set (iv := firstn 16 (skipn 64 data)).
  set (tag := firstn 16 (skipn 80 data)).
  set (w2 := record _ (record _ w)).
  unfold decipher_outcome, createDecipheriv.
  destruct (Nat.eqb_spec (length iv) 0) as [Hiv|Hiv].
  - apply length_zero_iff_nil in Hiv. rewrite Hiv.
    rewrite (bind_throw _ _ _ w2 INVALID_IV); [reflexivity|].
    rewrite (bind_throw _ _ _ _ _ (check_cipher_arguments_empty_iv key w2 (derived_key_length password salt))).
    reflexivity.
  - rewrite (bind_ok _ _ _ w2
               {| decipher_key := key; decipher_iv := iv; decipher_tag := None;
                  decipher_input := [] |}).
    2:{ rewrite (bind_ok _ _ _ _ _
                   (check_cipher_arguments_ok key iv _ (derived_key_length password salt) Hiv)).
        reflexivity. }
    unfold setAuthTag. cbn [decipher_key decipher_iv decipher_input].
    destruct (valid_gcm_tag_length (length tag)).
    + rewrite (bind_ok _ _ _ w2
                 {| decipher_key := key; decipher_iv := iv; decipher_tag := Some tag;
                    decipher_input := [] |}) by reflexivity.
      unfold decipher_update, decipher_final.
      cbn [decipher_key decipher_iv decipher_input decipher_tag app length].
      destruct (bytes_eqb tag _).
      * unfold bind, ret. rewrite app_nil_r. reflexivity.
      * reflexivity.
    + reflexivity.
Qed.

End Codec.

(** From here on [encrypt] and [decrypt] are used through the two
    lemmas above. *)
#[global] Opaque encrypt decrypt.

(** ** Slices of an envelope *)

Lemma firstn_exact {A} (n : nat) (xs ys : list A) :
  length xs = n -> firstn n (xs ++ ys) = xs.
Proof.
  intros <-. rewrite firstn_app, Nat.sub_diag, firstn_all. cbn [firstn].
  apply app_nil_r.
Qed.

Lemma skipn_exact {A} (n m : nat) (xs ys : list A) :
  length xs = n -> skipn (n + m) (xs ++ ys) = skipn m ys.
Proof.
  intros <-. rewrite skipn_app.
  rewrite skipn_all2 by lia.
  replace (length xs + m - length xs)%nat with m by lia. reflexivity.
Qed.

Lemma envelope_slices (salt iv tag ciphertext : bytes) :
  length salt = 64%nat -> length iv = 16%nat -> length tag = 16%nat ->
  let data := salt ++ iv ++ tag ++ ciphertext in
  firstn 64 data = salt /\ firstn 16 (skipn 64 data) = iv /\
  firstn 16 (skipn 80 data) = tag /\ skipn 96 data = ciphertext.
Proof.
  intros Hs Hi Ht data. subst data. repeat split.
  - now apply firstn_exact.
  - rewrite (skipn_exact 64 0) by exact Hs. cbn [skipn]. now apply firstn_exact.
  - rewrite (skipn_exact 64 16) by exact Hs.
    rewrite (skipn_exact 16 0) by exact Hi. cbn [skipn]. now apply firstn_exact.
  - rewrite (skipn_exact 64 32) by exact Hs.
    rewrite (skipn_exact 16 16) by exact Hi.
    rewrite (skipn_exact 16 0) by exact Ht. reflexivity.
Qed.

Lemma bytes_eqb_eq (xs ys : bytes) : bytes_eqb xs ys = true <-> xs = ys.
Proof.
  revert ys. induction xs as [|x xs IH]; intros [|y ys]; cbn [bytes_eqb];
    try (split; [discriminate | discriminate]); try (split; reflexivity).
  rewrite andb_true_iff, IH. split.
  - intros [Hxy ->]. f_equal. now apply Byte.byte_dec_bl.
  - intros H. injection H as -> ->. split; [now apply Byte.byte_dec_lb | reflexivity].
Qed.

Lemma bytes_eqb_refl (xs : bytes) : bytes_eqb xs xs = true.
Proof. now apply bytes_eqb_eq. Qed.



(** ** The codec: what [decrypt] makes of what [encrypt] made *)

Section CodecProperties.
Context {P : Primitives} {L : PrimitiveLaws P}.

Lemma gcm_crypt_involutive (key iv input : bytes) :
  gcm_crypt key iv (gcm_crypt key iv input) = input.
Proof.
  unfold gcm_crypt.
  rewrite xor_bytes_length by (now rewrite gcm_keystream_length).
  apply xor_bytes_involutive. now rewrite gcm_keystream_length.
Qed.

Lemma decipher_outcome_full (key iv tag ciphertext : bytes) :
  length iv = 16%nat -> length tag = 16%nat ->
  decipher_outcome key iv tag ciphertext
  = if bytes_eqb tag (gcm_tag key iv ciphertext)
    then Ok (utf8_decode (gcm_crypt key iv ciphertext))
    else Throw AUTHENTICATION_FAILED.
Proof.
  intros Hiv Htag. unfold decipher_outcome. rewrite Hiv, Htag.
  cbn [Nat.eqb valid_gcm_tag_length].
  replace (valid_gcm_tag_length 16) with true by reflexivity.
  rewrite firstn_all2 by (rewrite gcm_tag_length; lia). reflexivity.
Qed.

(** Decrypting an envelope of the documented layout. *)
Lemma decrypt_envelope (salt iv tag ciphertext : bytes) (password : jsstring) (w : World) :
  length salt = 64%nat -> length iv = 16%nat -> length tag = 16%nat ->
  decrypt (base64_encode (salt ++ iv ++ tag ++ ciphertext)) password w
  = (if bytes_eqb tag (gcm_tag (derived_key password salt) iv ciphertext)
     then Ok (utf8_decode (gcm_crypt (derived_key password salt) iv ciphertext))
     else Throw AUTHENTICATION_FAILED,
     record (key_derivation password salt)
       (record (CallDecrypt (base64_encode (salt ++ iv ++ tag ++ ciphertext)) password) w)).
Proof.
  intros Hs Hi Ht. rewrite decrypt_run. rewrite base64_roundtrip.
  destruct (envelope_slices salt iv tag ciphertext Hs Hi Ht) as (E1 & E2 & E3 & E4).
  rewrite E1, E2, E3, E4.
  now rewrite decipher_outcome_full.
Qed.

(** The general form of the round trip: the text comes back as the
    UTF-8 decoder reads the UTF-8 encoding of the plaintext. *)
Lemma encrypt_sealed (p k : jsstring) (w : World) :
  encrypt p k w
  = (Ok (base64_encode (sealed p k w)),
     record (key_derivation k (next_random 64 w)) (consume 16 (consume 64 w))).
Proof. rewrite encrypt_run. unfold sealed. reflexivity. Qed.

Lemma decrypt_sealed (p k : jsstring) (w w' : World) :
  fst (decrypt (base64_encode (sealed p k w)) k w') = Ok (utf8_decode (utf8_encode p)).
Proof.
  unfold sealed.
  rewrite decrypt_envelope;
    [ | apply next_random_length | apply next_random_length | apply gcm_tag_length ].
  rewrite bytes_eqb_refl, gcm_crypt_involutive. reflexivity.
Qed.

Lemma sealed_salt_and_iv (p k : jsstring) (w : World) :
  firstn 64 (sealed p k w) = next_random 64 w /\
  firstn 16 (skipn 64 (sealed p k w)) = next_random 16 (consume 64 w).
Proof.
  unfold sealed.
  destruct (envelope_slices (next_random 64 w) (next_random 16 (consume 64 w))
              (gcm_tag (derived_key k (next_random 64 w)) (next_random 16 (consume 64 w))
                 (gcm_crypt (derived_key k (next_random 64 w))
                    (next_random 16 (consume 64 w)) (utf8_encode p)))
              (gcm_crypt (derived_key k (next_random 64 w))
                 (next_random 16 (consume 64 w)) (utf8_encode p))
              (next_random_length _ _) (next_random_length _ _)
              (gcm_tag_length _ _ _)) as (S1 & I1 & _).
  split; assumption.
Qed.

Lemma decrypt_encrypt (p k : jsstring) (w : World) :
  exists e w1,
    encrypt p k w = (Ok e, w1) /\
    forall w', exists w2, decrypt e k w' = (Ok (utf8_decode (utf8_encode p)), w2).
Proof.
  eexists _, _. split; [apply encrypt_sealed|].
  intros w'. exists (snd (decrypt (base64_encode (sealed p k w)) k w')).
  rewrite <- (decrypt_sealed p k w w'). apply surjective_pairing.
Qed.

End CodecProperties.

Lemma stub_laws : PrimitiveLaws stub_primitives.
Proof.
  split; intros; cbn [sha512 gcm_keystream gcm_tag stub_primitives].
  - apply repeat_length.
  - unfold stub_keystream. now rewrite length_map, length_seq.
  - apply repeat_length.
Qed.

(** ** Changing one byte of a buffer *)

Lemma byte_xor_cancel (a x : byte) : byte_xor a (byte_xor a x) = x.
Proof.
  unfold byte_xor.
  destruct (Byte.to_bits a) as (a0, (a1, (a2, (a3, (a4, (a5, (a6, a7))))))) eqn:Ea.
  destruct (Byte.to_bits x) as (b0, (b1, (b2, (b3, (b4, (b5, (b6, b7))))))) eqn:Ex.
  rewrite Byte.to_bits_of_bits.
  rewrite <- (Byte.of_bits_to_bits x), Ex.
  f_equal. repeat rewrite <- xorb_assoc, xorb_nilpotent, xorb_false_l. reflexivity.
Qed.






Lemma set_byte_length (j : nat) (b : byte) (xs : bytes) :
  (j < length xs)%nat -> length (set_byte j b xs) = length xs.
Proof.
  intros H. unfold set_byte. rewrite length_app. cbn [length].
  rewrite length_firstn, length_skipn. lia.
Qed.




(** ** The tag of GCM and a changed byte *)

Lemma xor_bytes_cancel (a x y : bytes) :
  length x = length a -> length y = length a ->
  xor_bytes a x = xor_bytes a y -> x = y.
Proof.
  revert x y. induction a as [|k a IH]; intros [|x xs] [|y ys] Hx Hy E;
    cbn [length] in *; try discriminate; try reflexivity.
  cbn [xor_bytes] in E. injection E as E1 E2.
  f_equal.
  - rewrite <- (byte_xor_cancel k x), <- (byte_xor_cancel k y). now rewrite E1.
  - apply IH; [lia | lia | exact E2].
Qed.

Lemma xor_bytes_cancel_r (a a' x : bytes) :
  length a = length x -> length a' = length x ->
  xor_bytes a x = xor_bytes a' x -> a = a'.
Proof.
  revert a a'. induction x as [|k x IH]; intros [|a s] [|a' s'] Ha Ha' E;
    cbn [length] in *; try discriminate; try reflexivity.
  cbn [xor_bytes] in E. injection E as E1 E2.
  f_equal.
  - rewrite <- (byte_xor_involutive a k), <- (byte_xor_involutive a' k). now rewrite E1.
  - apply IH; [lia | lia | exact E2].
Qed.

Lemma set_byte_skipn_low (i : nat) (b : byte) (c : bytes) (n : nat) :
  (i < n)%nat -> (i < length c)%nat -> skipn n (set_byte i b c) = skipn n c.
Proof.
  intros Hn Hi. unfold set_byte.
  rewrite skipn_app. rewrite length_firstn.
  replace (Nat.min i (length c)) with i by lia.
  rewrite (skipn_all2 (firstn i c)) by (rewrite length_firstn; lia).
  cbn [app]. replace (n - i)%nat with (S (n - i - 1)) by lia.
  rewrite skipn_cons, skipn_skipn. f_equal. lia.
Qed.

Lemma set_byte_skipn_high (i : nat) (b : byte) (c : bytes) (n : nat) :
  (n <= i)%nat -> (i < length c)%nat ->
  skipn n (set_byte i b c) = set_byte (i - n) b (skipn n c).
Proof.
  intros Hn Hi. unfold set_byte.
  rewrite skipn_app, length_firstn.
  replace (Nat.min i (length c)) with i by lia.
  replace (n - i)%nat with 0%nat by lia. rewrite skipn_O.
  rewrite skipn_firstn_comm. rewrite (skipn_skipn (S (i - n)) n c).
  replace (S (i - n) + n)%nat with (S i) by lia. reflexivity.
Qed.

Lemma set_byte_firstn_high (i : nat) (b : byte) (c : bytes) (n : nat) :
  (n <= i)%nat -> (i < length c)%nat -> firstn n (set_byte i b c) = firstn n c.
Proof.
  intros Hn Hi. unfold set_byte.
  rewrite firstn_app, length_firstn.
  replace (Nat.min i (length c)) with i by lia.
  replace (n - i)%nat with 0%nat by lia. rewrite firstn_O, app_nil_r.
  rewrite firstn_firstn. f_equal. lia.
Qed.

Lemma padded_block_length (c : bytes) :
  length (firstn 16 c ++ repeat x00 (16 - length (firstn 16 c))) = 16%nat.
Proof. rewrite length_app, repeat_length, length_firstn. lia. Qed.

Lemma blocks_of_lengths (n : nat) (c : bytes) :
  Forall (fun x => length x = 16%nat) (blocks_of n c).
Proof.
  revert c. induction n as [|n IH]; intros c; cbn [blocks_of]; constructor.
  - apply padded_block_length.
  - apply IH.
Qed.

(** Changing one byte changes one block. *)
Lemma blocks_of_set_byte (n : nat) :
  forall (c : bytes) (i : nat) (b : byte),
    (i < length c)%nat -> (length c <= 16 * n)%nat -> nth i c x00 <> b ->
    exists pre X X' post,
      blocks_of n c = pre ++ X :: post /\
      blocks_of n (set_byte i b c) = pre ++ X' :: post /\
      X <> X' /\ length X = 16%nat /\ length X' = 16%nat.
Proof.
  induction n as [|n IH]; intros c i b Hi Hn Hb; [lia|].
  cbn [blocks_of].
  destruct (Nat.lt_ge_cases i 16) as [Hlow|Hhigh].
  - exists [], (firstn 16 c ++ repeat x00 (16 - length (firstn 16 c))),
      (firstn 16 (set_byte i b c) ++ repeat x00 (16 - length (firstn 16 (set_byte i b c)))),
      (blocks_of n (skipn 16 c)).
    cbn [app]. split; [reflexivity|].
    split; [now rewrite set_byte_skipn_low by lia|].
    split; [|split; apply padded_block_length].
    intros E. apply Hb.
    apply (f_equal (fun l => nth i l x00)) in E.
    rewrite !app_nth1 in E
      by (rewrite length_firstn, ?set_byte_length by lia; lia).
    rewrite !nth_firstn in E.
    destruct (Nat.ltb_spec i 16); [|lia].
    rewrite E. unfold set_byte.
    rewrite app_nth2 by (rewrite length_firstn; lia).
    rewrite length_firstn. replace (i - Nat.min i (length c))%nat with 0%nat by lia.
    reflexivity.
  - destruct (IH (skipn 16 c) (i - 16)%nat b) as (pre & X & X' & post & E1 & E2 & HX);
      [rewrite length_skipn; lia | rewrite length_skipn; lia | |].
    { rewrite nth_skipn. replace (16 + (i - 16))%nat with i by lia. exact Hb. }
    exists ((firstn 16 c ++ repeat x00 (16 - length (firstn 16 c))) :: pre), X, X', post.
    cbn [app]. split; [now rewrite E1|].
    split; [|exact HX].
    rewrite set_byte_firstn_high by lia.
    rewrite set_byte_skipn_high by lia. now rewrite E2.
Qed.

Section GcmTag.
Context {P : Primitives}.

(** The product of two blocks in GF(2^128), the hash subkey of a key
    (the encryption of the zero block) and the mask of the tag (the
    encryption of the pre-counter block). *)
Variable block_mul : bytes -> bytes -> bytes.
Variable hash_subkey : bytes -> bytes.
Variable tag_mask : bytes -> bytes -> bytes.

Hypothesis block_mul_length : forall x h, length (block_mul x h) = 16%nat.
(** GF(2^128) is a field: a product with a factor that is not zero tells
    the other factor. *)
Hypothesis block_mul_cancel : forall x y h,
    h <> ZERO_BLOCK -> length x = 16%nat -> length y = 16%nat ->
    block_mul x h = block_mul y h -> x = y.
Hypothesis tag_mask_length : forall key iv, length (tag_mask key iv) = 16%nat.
Hypothesis gcm_tag_structure : forall key iv c,
    gcm_tag key iv c
    = xor_bytes (tag_mask key iv)
        (ghash block_mul (hash_subkey key) (blocks c ++ [length_block c])).

Lemma ghash_fold_length (h : bytes) (xs : list bytes) (y : bytes) :
  length y = 16%nat ->
  length (fold_left (fun Y X => block_mul (xor_bytes Y X) h) xs y) = 16%nat.
Proof.
  revert y. induction xs as [|x xs IH]; intros y Hy; [exact Hy|].
  cbn [fold_left]. apply IH. apply block_mul_length.
Qed.

Lemma ghash_fold_cancel (h : bytes) (xs : list bytes) (y y' : bytes) :
  h <> ZERO_BLOCK -> Forall (fun x => length x = 16%nat) xs ->
  length y = 16%nat -> length y' = 16%nat ->
  fold_left (fun Y X => block_mul (xor_bytes Y X) h) xs y
  = fold_left (fun Y X => block_mul (xor_bytes Y X) h) xs y' ->
  y = y'.
Proof.
  intros Hh HF. revert y y'.
  induction HF as [|x xs Hx HF IH]; intros y y' Hy Hy' E; [exact E|].
  cbn [fold_left] in E.
  apply IH in E; [|apply block_mul_length|apply block_mul_length].
  apply block_mul_cancel in E;
    [ | exact Hh | rewrite xor_bytes_length; lia | rewrite xor_bytes_length; lia ].
  apply xor_bytes_cancel_r in E; [exact E | lia | lia].
Qed.

(** The tag of GCM tells a changed byte under every key whose hash
    subkey is not the zero block. *)
Lemma gcm_tag_tells_a_changed_byte (key iv : bytes) :
  hash_subkey key <> ZERO_BLOCK -> tag_tells_a_changed_byte key iv.
Proof.
  intros Hh c i b Hi Hb E.
  rewrite !gcm_tag_structure in E.
  assert (Hl : length (set_byte i b c) = length c) by now apply set_byte_length.
  unfold blocks, length_block in E. rewrite Hl in E.
  set (n := ((length c + 15) / 16)%nat) in E.
  set (lengths := repeat x00 8 ++ _) in E.
  assert (Hlengths : length lengths = 16%nat) by reflexivity.
  destruct (blocks_of_set_byte n c i b Hi) as (pre & X & X' & post & E1 & E2 & HX & HX1 & HX2).
  { subst n. pose proof (Nat.div_mod_eq (length c + 15) 16).
    pose proof (Nat.mod_upper_bound (length c + 15) 16). lia. }
  { exact Hb. }
  pose proof (blocks_of_lengths n c) as HF. rewrite E1 in HF.
  apply Forall_app in HF. destruct HF as [Hpre HF].
  apply Forall_cons_iff in HF. destruct HF as [_ Hpost].
  rewrite E1, E2 in E. unfold ghash in E.
  apply xor_bytes_cancel in E.
  2:{ rewrite ghash_fold_length; [now rewrite tag_mask_length | reflexivity]. }
  2:{ rewrite ghash_fold_length; [now rewrite tag_mask_length | reflexivity]. }
  rewrite <- !app_assoc in E. cbn [app] in E.
  rewrite !fold_left_app in E. cbn [fold_left] in E.
  set (y := fold_left _ pre ZERO_BLOCK) in E.
  assert (Hy : length y = 16%nat) by (apply ghash_fold_length; reflexivity).
  apply ghash_fold_cancel in E;
    [ | exact Hh
      | apply Forall_app; split; [exact Hpost | constructor; [exact Hlengths | constructor]]
      | apply block_mul_length | apply block_mul_length ].
  apply block_mul_cancel in E;
    [ | exact Hh | rewrite xor_bytes_length; lia | rewrite xor_bytes_length; lia ].
  apply xor_bytes_cancel in E; [ | lia | lia ].
  apply HX. now symmetry.
Qed.

End GcmTag.

(** The assumptions of the section can be met. *)
Example structured_tag_tells_a_changed_byte (key iv : bytes) :
  @tag_tells_a_changed_byte structured_primitives key iv.
Proof.
  apply (@gcm_tag_tells_a_changed_byte structured_primitives stub_block_mul
           (fun _ => repeat x01 16) (fun _ _ => ZERO_BLOCK)).
  - intros x h. unfold stub_block_mul.
    rewrite length_firstn, length_app. cbn [ZERO_BLOCK repeat length]. lia.
  - intros x y h _ Hx Hy. unfold stub_block_mul.
    now rewrite !firstn_exact by assumption.
  - reflexivity.
  - reflexivity.
  - discriminate.
Qed.

(* ================================================================== *)
(** * Part III.  The claims about the codec                             *)
(* ================================================================== *)

(** C1 (amended).  Round trip: for every well-formed plaintext string
    (any sequence of Unicode characters, the empty string and non-ASCII
    text included: a string in which every surrogate code unit is half of
    a pair) and every passphrase, [encrypt] returns an envelope and
    [decrypt] of that envelope under the same passphrase returns the
    plaintext. *)
Theorem C1_round_trip_of_well_formed_text
    {P : Primitives} {L : PrimitiveLaws P} (p k : jsstring) (w : World) :
  isWellFormed p = true ->
  exists e w1 w2, encrypt p k w = (Ok e, w1) /\ decrypt e k w1 = (Ok p, w2).
Proof.
  intros Hp.
  destruct (decrypt_encrypt p k w) as (e & w1 & He & Hd).
  destruct (Hd w1) as (w2 & Hd1).
  exists e, w1, w2. split; [exact He|].
  rewrite Hd1. now rewrite utf8_roundtrip.
Qed.

Lemma C1_round_trip_witness :
  exists e w1 w2,
    @encrypt stub_primitives
      [0x70; 0xE9; 0x20AC; 0xD83D; 0xDE00]%N (js "correct-horse-battery-staple")
      (sample_world 0 None) = (Ok e, w1) /\
    @decrypt stub_primitives e (js "correct-horse-battery-staple") w1
    = (Ok [0x70; 0xE9; 0x20AC; 0xD83D; 0xDE00]%N, w2).
Proof.
  apply (@C1_round_trip_of_well_formed_text _ stub_laws). reflexivity.
Defined.

(** C1 as stated fails on a string that is not well formed: the lone
    surrogate U+D800 is encrypted as U+FFFD, the replacement character,
    and that is what [decrypt] returns. *)
Lemma C1_counterexample_lone_surrogate :
  exists e w1 w2,
    @encrypt stub_primitives [0xD800%N] (js "k") (sample_world 0 None)
    = (Ok e, w1) /\
    @decrypt stub_primitives e (js "k") w1 = (Ok [0xFFFD%N], w2) /\
    [0xFFFD%N] <> [0xD800%N].
Proof.
  destruct (@decrypt_encrypt _ stub_laws [0xD800%N] (js "k") (sample_world 0 None))
    as (e & w1 & He & Hd).
  destruct (Hd w1) as (w2 & Hd1).
  replace (utf8_decode (utf8_encode [0xD800%N])) with [0xFFFD%N] in Hd1
    by (vm_compute; reflexivity).
  exists e, w1, w2. split; [exact He|]. split; [exact Hd1 | discriminate].
Qed.

(** C4.  Envelope format and key derivation: [encrypt] returns the
    base64 text of salt (64 bytes), iv (16 bytes), tag (16 bytes) and
    ciphertext, in this order; the key is the 32 bytes that PBKDF2 with
    HMAC-SHA-512 (64-byte digests) and 100,000 iterations derives from
    the passphrase and the salt, and ciphertext and tag are the AES-GCM
    output for the UTF-8 bytes of the text under this key and iv.
    [decrypt] takes an envelope apart at the offsets 0, 64, 80 and 96,
    derives the key with the same parameters from its passphrase and the
    salt it found, and hands iv, tag and ciphertext to AES-GCM. *)
Theorem C4_envelope_format_and_key_derivation
    {P : Primitives} {L : PrimitiveLaws P} (text password : jsstring) (w : World) :
  (exists salt iv tag ciphertext w',
     encrypt text password w
     = (Ok (base64_encode (salt ++ iv ++ tag ++ ciphertext)), w') /\
     length salt = 64%nat /\ length iv = 16%nat /\ length tag = 16%nat /\
     let key := pbkdf2_hmac_sha512 (utf8_encode password) salt 100000 32 in
     length key = 32%nat /\
     (forall U, length (hmac_sha512 (utf8_encode password) U) = 64%nat) /\
     trace w' = trace w ++ [CallPbkdf2 (utf8_encode password) salt 100000 32 (js "sha512")] /\
     ciphertext
     = xor_bytes (utf8_encode text) (gcm_keystream key iv 0 (length (utf8_encode text))) /\
     tag = gcm_tag key iv ciphertext) /\
  (forall (salt iv tag ciphertext : bytes) (passphrase : jsstring) (w0 : World),
     length salt = 64%nat -> length iv = 16%nat -> length tag = 16%nat ->
     let envelope := base64_encode (salt ++ iv ++ tag ++ ciphertext) in
     let key := pbkdf2_hmac_sha512 (utf8_encode passphrase) salt 100000 32 in
     decrypt envelope passphrase w0
     = (if bytes_eqb tag (gcm_tag key iv ciphertext)
        then Ok (utf8_decode
                   (xor_bytes ciphertext (gcm_keystream key iv 0 (length ciphertext))))
        else Throw AUTHENTICATION_FAILED,
        record (CallPbkdf2 (utf8_encode passphrase) salt 100000 32 (js "sha512"))
          (record (CallDecrypt envelope passphrase) w0))).
Proof.
  split.
  - eexists _, _, _, _, _. split; [apply encrypt_run|].
    split; [apply next_random_length|]. split; [apply next_random_length|].
    split; [apply gcm_tag_length|]. cbv zeta.
    split; [apply pbkdf2_hmac_sha512_length|].
    split; [intros U; apply hmac_sha512_length|].
    repeat split.
  - intros salt iv tag ciphertext passphrase w0 Hs Hi Ht.
    exact (decrypt_envelope salt iv tag ciphertext passphrase w0 Hs Hi Ht).
Qed.

Lemma C4_envelope_format_witness :
  (exists salt iv tag ciphertext w',
     @encrypt stub_primitives (js "Automation@Tester@1990")
       (js "correct-horse-battery-staple") (sample_world 0 None)
     = (Ok (base64_encode (salt ++ iv ++ tag ++ ciphertext)), w') /\
     length salt = 64%nat /\ length iv = 16%nat /\ length tag = 16%nat /\
     let key := @pbkdf2_hmac_sha512 stub_primitives
                  (utf8_encode (js "correct-horse-battery-staple")) salt 100000 32 in
     length key = 32%nat /\
     (forall U, length (@hmac_sha512 stub_primitives
                          (utf8_encode (js "correct-horse-battery-staple")) U) = 64%nat) /\
     trace w'
     = trace (sample_world 0 None)
       ++ [CallPbkdf2 (utf8_encode (js "correct-horse-battery-staple")) salt 100000 32
             (js "sha512")] /\
     ciphertext
     = xor_bytes (utf8_encode (js "Automation@Tester@1990"))
         (@gcm_keystream stub_primitives key iv 0
            (length (utf8_encode (js "Automation@Tester@1990")))) /\
     tag = @gcm_tag stub_primitives key iv ciphertext) /\
  (forall (salt iv tag ciphertext : bytes) (passphrase : jsstring) (w0 : World),
     length salt = 64%nat -> length iv = 16%nat -> length tag = 16%nat ->
     let envelope := base64_encode (salt ++ iv ++ tag ++ ciphertext) in
     let key := @pbkdf2_hmac_sha512 stub_primitives
                  (utf8_encode passphrase) salt 100000 32 in
     @decrypt stub_primitives envelope passphrase w0
     = (if bytes_eqb tag (@gcm_tag stub_primitives key iv ciphertext)
        then Ok (utf8_decode
                   (xor_bytes ciphertext
                      (@gcm_keystream stub_primitives key iv 0
                         (length ciphertext))))
        else Throw AUTHENTICATION_FAILED,
        record (CallPbkdf2 (utf8_encode passphrase) salt 100000 32 (js "sha512"))
          (record (CallDecrypt envelope passphrase) w0))).
Proof.
  exact (@C4_envelope_format_and_key_derivation _ stub_laws
           (js "Automation@Tester@1990") (js "correct-horse-battery-staple")
           (sample_world 0 None)).
Defined.

(** C8 (amended).  Fresh randomness: for every plaintext and every
    passphrase, two calls of [encrypt] whose random draws differ in the
    salt or in the iv return two different envelope texts; and when the
    plaintext is well formed, [decrypt] returns it from either of them. *)
Theorem C8_fresh_randomness_gives_different_envelopes
    {P : Primitives} {L : PrimitiveLaws P} (p k : jsstring) (w w' : World) :
  next_random 64 w <> next_random 64 w' \/
  next_random 16 (consume 64 w) <> next_random 16 (consume 64 w') ->
  exists e1 w1 e2 w2,
    encrypt p k w = (Ok e1, w1) /\ encrypt p k w' = (Ok e2, w2) /\
    e1 <> e2 /\
    (isWellFormed p = true ->
     (forall w3, fst (decrypt e1 k w3) = Ok p) /\
     (forall w3, fst (decrypt e2 k w3) = Ok p)).
Proof.
  intros Hfresh.
  destruct (decrypt_encrypt p k w) as (e1 & w1 & He1 & Hd1).
  destruct (decrypt_encrypt p k w') as (e2 & w2 & He2 & Hd2).
  exists e1, w1, e2, w2. split; [exact He1|]. split; [exact He2|].
  split.
  - rewrite encrypt_sealed in He1, He2.
    assert (E1 : e1 = base64_encode (sealed p k w)) by congruence.
    assert (E2 : e2 = base64_encode (sealed p k w')) by congruence.
    rewrite E1, E2. intros E. apply base64_encode_injective in E.
    destruct (sealed_salt_and_iv p k w) as (S1 & I1).
    destruct (sealed_salt_and_iv p k w') as (S2 & I2).
    rewrite E in S1, I1. rewrite S2 in S1. rewrite I2 in I1.
    destruct Hfresh as [H|H]; apply H; congruence.
  - intros Hp. rewrite (utf8_roundtrip p Hp) in Hd1, Hd2. split.
    + intros w3. destruct (Hd1 w3) as (w4 & ->). reflexivity.
    + intros w3. destruct (Hd2 w3) as (w4 & ->). reflexivity.
Qed.

Lemma sample_worlds_differ :
  next_random 64 (sample_world 0 None) <> next_random 64 (sample_world 1 None).
Proof.
  intros E. apply (f_equal (hd x00)) in E. vm_compute in E. discriminate E.
Qed.

Lemma C8_fresh_randomness_witness :
  exists e1 w1 e2 w2,
    @encrypt stub_primitives (js "Automation@Tester@1990")
      (js "correct-horse-battery-staple") (sample_world 0 None) = (Ok e1, w1) /\
    @encrypt stub_primitives (js "Automation@Tester@1990")
      (js "correct-horse-battery-staple") (sample_world 1 None) = (Ok e2, w2) /\
    e1 <> e2 /\
    (forall w3, fst (@decrypt stub_primitives e1
                       (js "correct-horse-battery-staple") w3)
                = Ok (js "Automation@Tester@1990")) /\
    (forall w3, fst (@decrypt stub_primitives e2
                       (js "correct-horse-battery-staple") w3)
                = Ok (js "Automation@Tester@1990")).
Proof.
  destruct (@C8_fresh_randomness_gives_different_envelopes _ stub_laws
              (js "Automation@Tester@1990") (js "correct-horse-battery-staple")
              (sample_world 0 None) (sample_world 1 None)
              (or_introl sample_worlds_differ))
    as (e1 & w1 & e2 & w2 & He1 & He2 & Hne & Hd).
  exists e1, w1, e2, w2.
  split; [exact He1|]. split; [exact He2|]. split; [exact Hne|].
  apply Hd. reflexivity.
Defined.

(** C8 as stated fails on a plaintext that is not well formed: with the
    lone surrogate U+DC00 the two envelopes differ, and neither decrypts
    back to the plaintext. *)
Lemma C8_counterexample_lone_surrogate :
  exists e1 w1 e2 w2,
    @encrypt stub_primitives [0xDC00%N] (js "k") (sample_world 0 None)
    = (Ok e1, w1) /\
    @encrypt stub_primitives [0xDC00%N] (js "k") (sample_world 1 None)
    = (Ok e2, w2) /\
    fst (@decrypt stub_primitives e1 (js "k") w2) = Ok [0xFFFD%N] /\
    fst (@decrypt stub_primitives e2 (js "k") w2) = Ok [0xFFFD%N] /\
    Ok [0xFFFD%N] <> Ok [0xDC00%N].
Proof.
  destruct (@decrypt_encrypt _ stub_laws [0xDC00%N] (js "k") (sample_world 0 None))
    as (e1 & w1 & He1 & Hd1).
  destruct (@decrypt_encrypt _ stub_laws [0xDC00%N] (js "k") (sample_world 1 None))
    as (e2 & w2 & He2 & Hd2).
  replace (utf8_decode (utf8_encode [0xDC00%N])) with [0xFFFD%N] in Hd1, Hd2
    by (vm_compute; reflexivity).
  exists e1, w1, e2, w2. split; [exact He1|]. split; [exact He2|].
  destruct (Hd1 w2) as (w3 & E1). destruct (Hd2 w2) as (w4 & E2).
  rewrite E1, E2. repeat split. discriminate.
Qed.

Section Tampering.
Context {P : Primitives} {L : PrimitiveLaws P}.

Lemma sealed_parts (p k : jsstring) (w : World) :
  exists salt iv ciphertext,
    length salt = 64%nat /\ length iv = 16%nat /\
    length ciphertext = length (utf8_encode p) /\
    sealed p k w = salt ++ iv ++ gcm_tag (derived_key k salt) iv ciphertext ++ ciphertext /\
    gcm_crypt (derived_key k salt) iv ciphertext = utf8_encode p.
Proof.
  exists (next_random 64 w), (next_random 16 (consume 64 w)),
    (gcm_crypt (derived_key k (next_random 64 w)) (next_random 16 (consume 64 w))
       (utf8_encode p)).
  split; [apply next_random_length|]. split; [apply next_random_length|].
  split; [|split; [reflexivity | apply gcm_crypt_involutive]].
  unfold gcm_crypt. apply xor_bytes_length. now rewrite gcm_keystream_length.
Qed.



Lemma gcm_crypt_length (key iv input : bytes) :
  length (gcm_crypt key iv input) = length input.
Proof.
  unfold gcm_crypt. apply xor_bytes_length. now rewrite gcm_keystream_length.
Qed.

(** A text that [decrypt] returns is shorter than the envelope text. *)
Lemma decrypt_ok_length (e passphrase plaintext : jsstring) (w : World) :
  fst (decrypt e passphrase w) = Ok plaintext -> (length plaintext <= length e)%nat.
Proof.
  rewrite decrypt_run. cbn [fst]. unfold decipher_outcome.
  destruct (_ =? 0)%nat; [discriminate|].
  destruct (valid_gcm_tag_length _); [|discriminate].
  destruct (bytes_eqb _ _); [|discriminate].
  intros E. apply Ok_injective in E. subst plaintext.
  pose proof (utf8_decode_length
                (gcm_crypt (derived_key passphrase (firstn 64 (base64_decode e)))
                   (firstn 16 (skipn 64 (base64_decode e))) (skipn 96 (base64_decode e)))) as H1.
  rewrite gcm_crypt_length, length_skipn in H1.
  pose proof (base64_decode_length e). lia.
Qed.

Lemma decrypt_without_iv (e passphrase : jsstring) (w : World) :
  (length (base64_decode e) <= 64)%nat ->
  fst (decrypt e passphrase w) = Throw INVALID_IV.
Proof.
  intros Hlen. rewrite decrypt_run. cbn [fst]. unfold decipher_outcome.
  replace (length (firstn 16 (skipn 64 (base64_decode e)))) with 0%nat
    by (rewrite length_firstn, length_skipn; lia).
  reflexivity.
Qed.

End Tampering.




(** C3 (amended).  An envelope that is too short fails in the cipher,
    after the key derivation.  [decrypt] has no length check and no error
    of its own: for every input text and every passphrase it decodes the
    base64 text (which never fails), slices whatever bytes there are and
    derives the key from the passphrase and the first bytes, up to 64.
    An input of at most 64 bytes then fails with the cipher's
    [Invalid initialization vector], one of 65 to 80 bytes with
    [Invalid authentication tag length: 0], and one of 81 to 95 bytes
    with [Invalid authentication tag length: n] for its [n] tag bytes
    unless GCM accepts [n] as a tag length, in which case the outcome is
    the authentication error or, when the short tag matches, the empty
    text. *)
Theorem C3_short_envelope_fails_in_the_cipher
    {P : Primitives} {L : PrimitiveLaws P} (e password : jsstring) (w : World) :
  let data := base64_decode e in
  let key := derived_key password (firstn 64 data) in
  let iv := firstn 16 (skipn 64 data) in
  trace (snd (decrypt e password w))
  = trace w ++ [CallDecrypt e password;
                CallPbkdf2 (utf8_encode password) (firstn 64 data) 100000 32 (js "sha512")] /\
  ((length data <= 64)%nat -> fst (decrypt e password w) = Throw INVALID_IV) /\
  ((64 < length data <= 80)%nat ->
   fst (decrypt e password w) = Throw (INVALID_TAG_LENGTH 0)) /\
  ((80 < length data < 96)%nat ->
   fst (decrypt e password w)
   = if valid_gcm_tag_length (length data - 80)
     then if bytes_eqb (skipn 80 data) (firstn (length data - 80) (gcm_tag key iv []))
          then Ok []
          else Throw AUTHENTICATION_FAILED
     else Throw (INVALID_TAG_LENGTH (length data - 80))).
Proof.
  intros data key iv. rewrite decrypt_run. cbn [fst snd]. fold data key iv.
  split; [|split; [|split]].
  - cbn [record trace]. now rewrite <- app_assoc.
  - intros Hlen. unfold decipher_outcome.
    assert (E : length iv = 0%nat)
      by (subst iv; rewrite length_firstn, length_skipn; lia).
    now rewrite E.
  - intros Hlen. unfold decipher_outcome.
    assert (E : length iv <> 0%nat)
      by (subst iv; rewrite length_firstn, length_skipn; lia).
    destruct (Nat.eqb_spec (length iv) 0); [contradiction|].
    rewrite (skipn_all2 data) by lia. reflexivity.
  - intros Hlen. unfold decipher_outcome.
    assert (E : length iv <> 0%nat)
      by (subst iv; rewrite length_firstn, length_skipn; lia).
    destruct (Nat.eqb_spec (length iv) 0); [contradiction|].
    rewrite (firstn_all2 (n := 16) (skipn 80 data)) by (rewrite length_skipn; lia).
    rewrite length_skipn.
    rewrite (skipn_all2 (n := 96) data) by lia.
    reflexivity.
Qed.

Lemma C3_short_envelope_witness :
  fst (@decrypt stub_primitives (js "c2hvcnQ=") (js "k") (sample_world 0 None))
  = Throw INVALID_IV.
Proof.
  apply (@C3_short_envelope_fails_in_the_cipher _ stub_laws
           (js "c2hvcnQ=") (js "k") (sample_world 0 None)).
  vm_compute. lia.
Defined.

(** C3 as stated fails: [c2hvcnQ=] decodes to the five bytes of
    [short], far fewer than 96, and [decrypt] still derives a key before
    it fails, with the cipher's complaint about the initialization
    vector. *)
Lemma C3_counterexample_key_derived_for_short_envelope :
  (length (base64_decode (js "c2hvcnQ=")) < 96)%nat /\
  count_key_derivations
    (trace (snd (@decrypt stub_primitives (js "c2hvcnQ=") (js "k")
                   (sample_world 0 None)))) = 1%nat /\
  fst (@decrypt stub_primitives (js "c2hvcnQ=") (js "k") (sample_world 0 None))
  = Throw {| message := js "Invalid initialization vector" |}.
Proof.
  split; [vm_compute; lia|].
  rewrite (@decrypt_run _ stub_laws). cbn [fst snd].
  split; [reflexivity|].
  unfold decipher_outcome.
  replace (length (firstn 16 (skipn 64 (base64_decode (js "c2hvcnQ="))))) with 0%nat
    by (vm_compute; reflexivity).
  reflexivity.
Qed.

(* ================================================================== *)
(** * Part IV.  The resolver                                            *)
(* ================================================================== *)

Lemma startsWith_nonempty (s prefix : jsstring) :
  startsWith s prefix = true -> prefix <> [] -> s <> [].
Proof. destruct prefix, s; cbn; congruence. Qed.

Lemma startsWith_length (s prefix : jsstring) :
  startsWith s prefix = true -> (length prefix <= length s)%nat.
Proof.
  revert s. induction prefix as [|c prefix IH]; intros s H; cbn [length]; [lia|].
  destruct s as [|d s]; [discriminate|]. cbn [startsWith] in H.
  apply andb_prop in H. destruct H as [_ H]. apply IH in H. cbn [length]. lia.
Qed.

Lemma startsWith_app (s t : jsstring) : startsWith (s ++ t) s = true.
Proof.
  induction s as [|c s IH]; [reflexivity|].
  cbn [app startsWith]. now rewrite N.eqb_refl, IH.
Qed.

Lemma includes_app_r (s t u : jsstring) : includes t u = true -> includes (s ++ t) u = true.
Proof.
  intros H. induction s as [|c s IH]; [exact H|].
  cbn [app includes]. rewrite IH. apply orb_true_r.
Qed.

Lemma includes_middle (s t u : jsstring) : includes (s ++ t ++ u) t = true.
Proof.
  apply includes_app_r. destruct (t ++ u) eqn:E; cbn [includes];
    rewrite <- E, startsWith_app; reflexivity.
Qed.

Section Resolver.
Context {P : Primitives} {J : Parser}.

Lemma marked_password_field (entry : json) (password : jsstring) :
  marked_password entry = Some password ->
  get (get (Some entry) (js "credentials")) (js "password") = Some (JString password) /\
  startsWith password ENCRYPTED_PREFIX = true.
Proof.
  unfold marked_password.
  destruct (get _ _) as [[| | |s| |]|]; try discriminate.
  destruct (startsWith s ENCRYPTED_PREFIX) eqn:E; [|discriminate].
  intros [= ->]. split; [reflexivity | exact E].
Qed.

Lemma visit_env_unmarked (key : option jsstring) (env : jsstring) (entry : json) (w : World) :
  marked_password entry = None -> visit_env key env entry w = (Ok entry, w).
Proof.
  unfold marked_password, visit_env.
  destruct (get _ _) as [[| | |s| |]|]; intros H;
    try (destruct (truthy _); reflexivity).
  destruct (startsWith s ENCRYPTED_PREFIX); [discriminate|].
  destruct (truthy _); reflexivity.
Qed.

Lemma visit_env_marked (key : option jsstring) (env : jsstring) (entry : json)
    (password : jsstring) (w : World) :
  marked_password entry = Some password ->
  visit_env key env entry w
  = if key_missing key then (Throw {| message := MISSING_KEY_MESSAGE |}, w)
    else
      match decrypt (substring password (length ENCRYPTED_PREFIX))
              (match key with Some k => k | None => [] end) w with
      | (Ok plaintext, w') => (Ok (set_password entry (JString plaintext)), w')
      | (Throw error, w') => (Throw {| message := decrypt_failed_message env error |}, w')
      end.
Proof.
  intros H. apply marked_password_field in H. destruct H as [Hf Hs].
  unfold visit_env. rewrite Hf.
  assert (Hne : password <> []) by (apply (startsWith_nonempty _ _ Hs); discriminate).
  destruct password as [|c password]; [contradiction|].
  cbn [truthy]. rewrite Hs.
  destruct (key_missing key); [reflexivity|].
  unfold try_catch, bind, ret, throw.
  destruct (decrypt _ _ w) as [[plaintext|error] w']; reflexivity.
Qed.

(** An empty key is a missing key. *)
Lemma visit_env_empty_key (env : jsstring) (entry : json) :
  visit_env (Some []) env entry = visit_env None env entry.
Proof. reflexivity. Qed.

Lemma forEach_env_key_missing (key : option jsstring) (entries : list (jsstring * json))
    (w : World) :
  key_missing key = true ->
  forEach_env key entries w
  = (if existsb is_marked entries
     then Throw {| message := MISSING_KEY_MESSAGE |}
     else Ok entries, w).
Proof.
  intros Hk. induction entries as [|[env entry] rest IH]; [reflexivity|].
  cbn [forEach_env existsb]. unfold is_marked at 1. cbn [snd].
  destruct (marked_password entry) as [password|] eqn:E.
  - rewrite (bind_throw _ _ _ w {| message := MISSING_KEY_MESSAGE |}); [reflexivity|].
    rewrite (visit_env_marked _ _ _ _ _ E), Hk. reflexivity.
  - rewrite (bind_ok _ _ _ w entry) by (now apply visit_env_unmarked).
    unfold bind at 1. rewrite IH. cbn [orb].
    destruct (existsb is_marked rest); reflexivity.
Qed.

Lemma own_entries_container (data : json) (entry : jsstring * json) :
  In entry (own_entries data) -> truthy (Some data) && typeof_object data = true.
Proof. destruct data; cbn; try contradiction; reflexivity. Qed.

Lemma map_snd_combine {A B} (xs : list A) (ys : list B) :
  length xs = length ys -> map snd (combine xs ys) = ys.
Proof.
  revert ys. induction xs as [|x xs IH]; intros [|y ys] H; cbn in *;
    try reflexivity; try discriminate.
  f_equal. apply IH. now injection H.
Qed.

Lemma with_own_entries (data : json) : with_entries data (own_entries data) = data.
Proof.
  destruct data; try reflexivity. cbn [own_entries with_entries].
  rewrite map_snd_combine; [reflexivity|]. now rewrite length_map, length_seq.
Qed.

(** [readJsonFile] once the file is read and parsed. *)
Lemma readJsonFile_run (path raw : jsstring) (data : json) (w : World) :
  files w path = Some raw -> JSON_parse raw = Ok data ->
  readJsonFile path w
  = if truthy (Some data) && typeof_object data
    then match forEach_env (ENCRYPTION_KEY w) (own_entries data) w with
         | (Ok entries, w') => (Ok (with_entries data entries), w')
         | (Throw error, w') => (Throw error, w')
         end
    else (Ok data, w).
Proof.
  intros Hf Hp. unfold readJsonFile.
  rewrite (bind_ok _ _ _ w raw) by (unfold readFileSync; now rewrite Hf).
  rewrite (bind_ok _ _ _ w data) by (unfold parse; now rewrite Hp).
  rewrite (bind_ok _ _ _ w (ENCRYPTION_KEY w)) by reflexivity.
  destruct (truthy (Some data) && typeof_object data); [|reflexivity].
  unfold bind, ret. destruct (forEach_env _ _ w) as [[entries|error] w']; reflexivity.
Qed.

(** The load under a missing key: it fails at the first marked entry,
    before any call of [decrypt], and otherwise changes nothing. *)
Lemma readJsonFile_key_missing (path raw : jsstring) (data : json) (w : World) :
  files w path = Some raw -> JSON_parse raw = Ok data ->
  key_missing (ENCRYPTION_KEY w) = true ->
  readJsonFile path w
  = (if existsb is_marked (own_entries data)
     then Throw {| message := MISSING_KEY_MESSAGE |}
     else Ok data, w).
Proof.
  intros Hf Hp Hk. rewrite (readJsonFile_run _ _ _ _ Hf Hp).
  rewrite (forEach_env_key_missing _ _ _ Hk).
  destruct (truthy (Some data) && typeof_object data) eqn:E.
  - destruct (existsb is_marked (own_entries data)); [reflexivity|].
    now rewrite with_own_entries.
  - destruct data; try discriminate E; reflexivity.
Qed.

End Resolver.

(** C5.  Missing key fast-fail: when the document has an entry whose
    password field starts with the marker and the environment holds no
    passphrase, the load throws the error whose message names the
    variable [ENCRYPTION_KEY], and it does so in the world it started in:
    no call of [decrypt] was made. *)
Theorem C5_missing_key_fails_before_any_decrypt
    {P : Primitives} {J : Parser} (path raw : jsstring) (data : json) (w : World)
    (env : jsstring) (entry : json) (password : jsstring) :
  files w path = Some raw -> JSON_parse raw = Ok data ->
  ENCRYPTION_KEY w = None ->
  In (env, entry) (own_entries data) ->
  get (get (Some entry) (js "credentials")) (js "password") = Some (JString password) ->
  startsWith password (js "encrypted:") = true ->
  readJsonFile path w = (Throw {| message := MISSING_KEY_MESSAGE |}, w) /\
  includes MISSING_KEY_MESSAGE (js "ENCRYPTION_KEY") = true /\
  count_decrypt_calls (trace (snd (readJsonFile path w))) = count_decrypt_calls (trace w).
Proof.
  intros Hf Hp Hk Hin Hfield Hs.
  assert (R : readJsonFile path w = (Throw {| message := MISSING_KEY_MESSAGE |}, w)).
  { rewrite (readJsonFile_key_missing _ _ _ _ Hf Hp) by (now rewrite Hk).
    replace (existsb is_marked (own_entries data)) with true; [reflexivity|].
    symmetry. apply existsb_exists. exists (env, entry). split; [exact Hin|].
    unfold is_marked, marked_password. cbn [snd]. rewrite Hfield.
    change ENCRYPTED_PREFIX with (js "encrypted:"). now rewrite Hs. }
  split; [exact R|]. split; [reflexivity|]. now rewrite R.
Qed.

Lemma C5_missing_key_witness :
  @readJsonFile stub_primitives (stub_parser (Ok (sample_config (js "encrypted:c2hvcnQ="))))
    (js "config.json") (sample_world 0 None)
  = (Throw {| message := MISSING_KEY_MESSAGE |}, sample_world 0 None) /\
  includes MISSING_KEY_MESSAGE (js "ENCRYPTION_KEY") = true /\
  count_decrypt_calls
    (trace (snd (@readJsonFile stub_primitives (stub_parser (Ok (sample_config (js "encrypted:c2hvcnQ="))))
                   (js "config.json") (sample_world 0 None))))
  = count_decrypt_calls (trace (sample_world 0 None)).
Proof.
  apply (@C5_missing_key_fails_before_any_decrypt stub_primitives
           (stub_parser (Ok (sample_config (js "encrypted:c2hvcnQ="))))
           (js "config.json") (js "{}") (sample_config (js "encrypted:c2hvcnQ="))
           (sample_world 0 None) (js "QA")
           (JObject [(js "baseURL", JString (js "https://www.youtube.com"));
                     (js "credentials",
                      JObject [(js "username", JString (js "tester@example.com"));
                               (js "password", JString (js "encrypted:c2hvcnQ="))])])
           (js "encrypted:c2hvcnQ=")).
  - reflexivity.
  - reflexivity.
  - reflexivity.
  - left. reflexivity.
  - reflexivity.
  - reflexivity.
Defined.

(** C10.  An [ENCRYPTION_KEY] set to the empty string is treated as an
    absent one: the load has the outcome it has without the variable, it
    leaves the world as it found it (so [decrypt] is never called, and
    the empty string never serves as a passphrase), and when an entry's
    password field bears the marker it throws the missing-key error. *)
Theorem C10_empty_key_is_a_missing_key
    {P : Primitives} {J : Parser} (path raw : jsstring) (data : json) (w : World) :
  files w path = Some raw -> JSON_parse raw = Ok data ->
  ENCRYPTION_KEY w = Some [] ->
  fst (readJsonFile path w) = fst (readJsonFile path (set_ENCRYPTION_KEY None w)) /\
  snd (readJsonFile path w) = w /\
  (forall (env : jsstring) (entry : json) (password : jsstring),
     In (env, entry) (own_entries data) ->
     get (get (Some entry) (js "credentials")) (js "password") = Some (JString password) ->
     startsWith password (js "encrypted:") = true ->
     fst (readJsonFile path w) = Throw {| message := MISSING_KEY_MESSAGE |}).
Proof.
  intros Hf Hp Hk.
  rewrite (readJsonFile_key_missing _ _ _ _ Hf Hp) by (now rewrite Hk).
  rewrite (readJsonFile_key_missing path raw data (set_ENCRYPTION_KEY None w) Hf Hp)
    by reflexivity.
  cbn [fst snd]. split; [reflexivity|]. split; [reflexivity|].
  intros env entry password Hin Hfield Hs.
  replace (existsb is_marked (own_entries data)) with true; [reflexivity|].
  symmetry. apply existsb_exists. exists (env, entry). split; [exact Hin|].
  unfold is_marked, marked_password. cbn [snd]. rewrite Hfield.
  change ENCRYPTED_PREFIX with (js "encrypted:"). now rewrite Hs.
Qed.

Lemma C10_empty_key_witness :
  fst (@readJsonFile stub_primitives (stub_parser (Ok (sample_config (js "encrypted:c2hvcnQ="))))
         (js "config.json") (sample_world 0 (Some [])))
  = fst (@readJsonFile stub_primitives (stub_parser (Ok (sample_config (js "encrypted:c2hvcnQ="))))
           (js "config.json") (set_ENCRYPTION_KEY None (sample_world 0 (Some [])))) /\
  snd (@readJsonFile stub_primitives (stub_parser (Ok (sample_config (js "encrypted:c2hvcnQ="))))
         (js "config.json") (sample_world 0 (Some [])))
  = sample_world 0 (Some []).
Proof.
  destruct (@C10_empty_key_is_a_missing_key stub_primitives
              (stub_parser (Ok (sample_config (js "encrypted:c2hvcnQ="))))
              (js "config.json") (js "{}") (sample_config (js "encrypted:c2hvcnQ="))
              (sample_world 0 (Some [])) eq_refl eq_refl eq_refl) as (H1 & H2 & _).
  split; [exact H1 | exact H2].
Defined.

(** ** Loading with a key *)

Lemma jsstring_eqb_eq (s t : jsstring) : jsstring_eqb s t = true <-> s = t.
Proof.
  revert t. induction s as [|a s IH]; intros [|b t]; cbn [jsstring_eqb];
    try (split; [discriminate | discriminate]); try (split; reflexivity).
  rewrite andb_true_iff, N.eqb_eq, IH. split.
  - now intros [-> ->].
  - intros [= -> ->]. split; reflexivity.
Qed.

Lemma assign_replaced (name : jsstring) (v old : json) (fields : list (jsstring * json)) :
  lookup name fields = Some old -> replaced name v fields (assign name v fields).
Proof.
  induction fields as [|[k x] rest IH]; [discriminate|].
  cbn [lookup assign]. destruct (jsstring_eqb k name) eqn:E.
  - apply jsstring_eqb_eq in E. subst k. intros _.
    exists [], x, rest. repeat split.
  - intros H. destruct (IH H) as (before & o & after & -> & E2 & Hn).
    exists ((k, x) :: before), o, after. rewrite E2. repeat split.
    cbn [lookup]. now rewrite E.
Qed.

Lemma lookup_replaced (name : jsstring) (v : json) (fields fields' : list (jsstring * json)) :
  replaced name v fields fields' -> lookup name fields' = Some v.
Proof.
  intros (before & old & after & _ & -> & Hn).
  induction before as [|[k x] before IH]; cbn [app lookup] in *.
  - replace (jsstring_eqb name name) with true; [reflexivity|].
    symmetry. now apply jsstring_eqb_eq.
  - destruct (jsstring_eqb k name); [discriminate | now apply IH].
Qed.

Lemma set_password_replaced (entry : json) (password : jsstring) (v : json) :
  marked_password entry = Some password ->
  password_replaced v entry (set_password entry v).
Proof.
  intros H. apply marked_password_field in H. destruct H as [Hf _].
  destruct entry as [| | | | |fields]; try discriminate Hf.
  cbn [get] in Hf.
  destruct (lookup (js "credentials") fields) as [[| | | | |credentials]|] eqn:Ec;
    try discriminate Hf.
  cbn [get] in Hf.
  exists fields, credentials, (assign (js "password") v credentials).
  split; [reflexivity|]. split; [exact Ec|].
  split; [now apply (assign_replaced _ _ (JString password))|].
  exists (assign (js "credentials") (JObject (assign (js "password") v credentials)) fields).
  split.
  - cbn [set_password]. now rewrite Ec.
  - now apply (assign_replaced _ _ (JObject credentials)).
Qed.

Lemma password_replaced_get (v entry entry' : json) :
  password_replaced v entry entry' ->
  get (get (Some entry') (js "credentials")) (js "password") = Some v.
Proof.
  intros (fields & credentials & credentials' & _ & _ & Hc & fields' & -> & Hf).
  cbn [get]. rewrite (lookup_replaced _ _ _ _ Hf). cbn [get].
  exact (lookup_replaced _ _ _ _ Hc).
Qed.

Lemma key_present (key : option jsstring) :
  key_missing key = false -> exists k, key = Some k /\ k <> [].
Proof.
  destruct key as [[|c k]|]; try discriminate. intros _.
  exists (c :: k). split; [reflexivity | discriminate].
Qed.

Section Loading.
Context {P : Primitives} {L : PrimitiveLaws P} {J : Parser}.

Lemma decrypt_outcome_independent (e k : jsstring) (w w' : World) :
  fst (decrypt e k w) = fst (decrypt e k w').
Proof. now rewrite !decrypt_run. Qed.

Lemma forEach_env_ok (key : option jsstring) (w0 : World)
    (entries entries' : list (jsstring * json)) (w w' : World) :
  forEach_env key entries w = (Ok entries', w') ->
  Forall2 (resolved key w0) entries entries'.
Proof.
  revert entries' w w'.
  induction entries as [|[env entry] rest IH]; intros entries' w w' H.
  - cbn in H. injection H as <- _. constructor.
  - cbn [forEach_env] in H. unfold bind at 1 in H.
    destruct (visit_env key env entry w) as [[entry1|error] w1] eqn:Ev; [|discriminate].
    unfold bind at 1 in H.
    destruct (forEach_env key rest w1) as [[rest1|error] w2] eqn:Er; [|discriminate].
    cbn in H. injection H as <- _.
    constructor; [|exact (IH _ _ _ Er)].
    split; [reflexivity|]. cbn [snd].
    destruct (marked_password entry) as [password|] eqn:Em.
    + rewrite (visit_env_marked _ _ _ _ _ Em) in Ev.
      destruct (key_missing key) eqn:Ek; [discriminate|].
      destruct (key_present _ Ek) as (k & -> & Hk).
      destruct (decrypt _ k w) as [[plaintext|error] w3] eqn:Ed; [|discriminate].
      injection Ev as <- _.
      exists k, plaintext. split; [reflexivity|]. split; [exact Hk|].
      split; [|now apply (set_password_replaced _ password)].
      rewrite (decrypt_outcome_independent _ _ w0 w), Ed. reflexivity.
    + rewrite (visit_env_unmarked _ _ _ _ Em) in Ev. now injection Ev as <- _.
Qed.

Lemma forEach_env_fails (k : jsstring) (w0 : World) (env : jsstring) (entry : json)
    (error : Error) (after : list (jsstring * json)) :
  k <> [] -> fails_to_decrypt k w0 entry error ->
  forall (before : list (jsstring * json)) (w : World),
    (forall env1 entry1 error1,
       In (env1, entry1) before -> ~ fails_to_decrypt k w0 entry1 error1) ->
    fst (forEach_env (Some k) (before ++ (env, entry) :: after) w)
    = Throw {| message := decrypt_failed_message env error |}.
Proof.
  intros Hk (password & Hm & Hd) before.
  assert (Hkm : key_missing (Some k) = false) by (destruct k; [contradiction | reflexivity]).
  induction before as [|[env1 entry1] before IH]; intros w Hok.
  - cbn [app forEach_env]. unfold bind at 1.
    rewrite (visit_env_marked _ _ _ _ _ Hm), Hkm.
    rewrite (decrypt_outcome_independent _ _ w0 w) in Hd.
    destruct (decrypt _ k w) as [[plaintext|error1] w1]; cbn [fst] in Hd; [discriminate|].
    injection Hd as ->. reflexivity.
  - cbn [app forEach_env]. unfold bind at 1.
    destruct (visit_env (Some k) env1 entry1 w) as [[entry2|error1] w1] eqn:Ev.
    + unfold bind at 1.
      specialize (IH w1 (fun e1 n1 r1 Hin => Hok e1 n1 r1 (or_intror Hin))).
      destruct (forEach_env (Some k) (before ++ (env, entry) :: after) w1)
        as [[rest|error1] w2]; cbn [fst] in IH; [discriminate|].
      injection IH as ->. reflexivity.
    + exfalso.
      destruct (marked_password entry1) as [password1|] eqn:Em.
      * rewrite (visit_env_marked _ _ _ _ _ Em), Hkm in Ev.
        destruct (decrypt _ k w) as [[plaintext|error2] w2] eqn:Ed; [discriminate|].
        apply (Hok env1 entry1 error2 (or_introl eq_refl)).
        exists password1. split; [exact Em|].
        rewrite (decrypt_outcome_independent _ _ w0 w), Ed. reflexivity.
      * rewrite (visit_env_unmarked _ _ _ _ Em) in Ev. discriminate.
Qed.

(** Among the entries, one that fails to decrypt has a first one. *)
Lemma first_failing_entry (k : jsstring) (w0 : World) (entries : list (jsstring * json)) :
  (exists env entry error, In (env, entry) entries /\ fails_to_decrypt k w0 entry error) ->
  exists before env entry error after,
    entries = before ++ (env, entry) :: after /\
    fails_to_decrypt k w0 entry error /\
    forall env1 entry1 error1,
      In (env1, entry1) before -> ~ fails_to_decrypt k w0 entry1 error1.
Proof.
  induction entries as [|[env0 entry0] rest IH]; intros (env & entry & error & Hin & Hf).
  - contradiction.
  - assert (D : (exists error0, fails_to_decrypt k w0 entry0 error0) \/
                (forall error0, ~ fails_to_decrypt k w0 entry0 error0)).
    { unfold fails_to_decrypt.
      destruct (marked_password entry0) as [password|].
      - destruct (fst (decrypt (substring password (length ENCRYPTED_PREFIX)) k w0))
          as [plaintext|error0] eqn:Ed.
        + right. intros error0 (pw & [= <-] & Hd). congruence.
        + left. exists error0, password. split; [reflexivity | exact Ed].
      - right. intros error0 (pw & Hm & _). discriminate. }
    destruct D as [(error0 & Hf0)|Hok0].
    + exists [], env0, entry0, error0, rest. split; [reflexivity|].
      split; [exact Hf0|]. intros ? ? ? [].
    + destruct Hin as [[= -> ->]|Hin]; [exfalso; exact (Hok0 _ Hf)|].
      destruct IH as (before & env1 & entry1 & error1 & after & -> & Hf1 & Hok).
      { exists env, entry, error. split; assumption. }
      exists ((env0, entry0) :: before), env1, entry1, error1, after.
      split; [reflexivity|]. split; [exact Hf1|].
      intros env2 entry2 error2 [[= <- <-]|Hin2]; [apply Hok0 | exact (Hok _ _ _ Hin2)].
Qed.

Lemma map_fst_combine {A B} (xs : list A) (ys : list B) :
  length xs = length ys -> map fst (combine xs ys) = xs.
Proof.
  revert ys. induction xs as [|x xs IH]; intros [|y ys] H; cbn in *;
    try reflexivity; try discriminate.
  f_equal. apply IH. now injection H.
Qed.

Lemma combine_fst_snd {A B} (l : list (A * B)) : combine (map fst l) (map snd l) = l.
Proof.
  induction l as [|[a b] l IH]; [reflexivity|]. cbn. now rewrite IH.
Qed.

Lemma resolved_keys (key : option jsstring) (w0 : World)
    (entries entries' : list (jsstring * json)) :
  Forall2 (resolved key w0) entries entries' -> map fst entries' = map fst entries.
Proof.
  induction 1 as [|a b l l' [Hk _] _ IH]; [reflexivity|]. cbn. now rewrite Hk, IH.
Qed.

Lemma own_entries_with_entries (key : option jsstring) (w0 : World) (data : json)
    (entries' : list (jsstring * json)) :
  truthy (Some data) && typeof_object data = true ->
  Forall2 (resolved key w0) (own_entries data) entries' ->
  own_entries (with_entries data entries') = entries'.
Proof.
  intros Hc HF.
  destruct data as [| | | |items|fields];
    try (cbn [typeof_object] in Hc; rewrite ?andb_false_r in Hc; discriminate Hc);
    [|reflexivity].
  cbn [with_entries own_entries] in *.
  pose proof (resolved_keys _ _ _ _ HF) as Hk.
  pose proof (Forall2_length HF) as Hlen.
  rewrite length_combine, length_map, length_seq, Nat.min_id in Hlen.
  rewrite map_fst_combine in Hk by (now rewrite length_map, length_seq).
  rewrite length_map, <- Hlen, <- Hk. now rewrite combine_fst_snd.
Qed.

End Loading.

Section LoadingOutcome.
Context {P : Primitives} {L : PrimitiveLaws P} {J : Parser}.

Lemma readJsonFile_ok (path raw : jsstring) (data data' : json) (w w' : World) :
  files w path = Some raw -> JSON_parse raw = Ok data ->
  readJsonFile path w = (Ok data', w') ->
  match data with
  | JObject _ => exists fields', data' = JObject fields'
  | JArray _ => exists items', data' = JArray items'
  | _ => data' = data
  end /\
  Forall2 (resolved (ENCRYPTION_KEY w) w) (own_entries data) (own_entries data').
Proof.
  intros Hf Hp H. rewrite (readJsonFile_run _ _ _ _ Hf Hp) in H.
  destruct (truthy (Some data) && typeof_object data) eqn:Ec.
  - destruct (forEach_env _ _ w) as [[entries'|error] w1] eqn:Ee; [|discriminate].
    injection H as <- _.
    pose proof (forEach_env_ok _ w _ _ _ _ Ee) as HF.
    rewrite (own_entries_with_entries _ _ _ _ Ec HF).
    split; [|exact HF].
    destruct data; try (cbn [typeof_object] in Ec; rewrite ?andb_false_r in Ec; discriminate Ec);
      cbn [with_entries]; eexists; reflexivity.
  - injection H as <- _.
    destruct data; try discriminate Ec; split; try reflexivity; constructor.
Qed.

Lemma readJsonFile_fails (path raw : jsstring) (data : json) (w : World) (k : jsstring)
    (before : list (jsstring * json)) (env : jsstring) (entry : json) (error : Error)
    (after : list (jsstring * json)) :
  files w path = Some raw -> JSON_parse raw = Ok data ->
  ENCRYPTION_KEY w = Some k -> k <> [] ->
  own_entries data = before ++ (env, entry) :: after ->
  fails_to_decrypt k w entry error ->
  (forall env1 entry1 error1,
     In (env1, entry1) before -> ~ fails_to_decrypt k w entry1 error1) ->
  fst (readJsonFile path w) = Throw {| message := decrypt_failed_message env error |}.
Proof.
  intros Hf Hp Hk Hne He Hfail Hok.
  rewrite (readJsonFile_run _ _ _ _ Hf Hp).
  replace (truthy (Some data) && typeof_object data) with true.
  2:{ symmetry. apply (own_entries_container data (env, entry)).
      rewrite He. apply in_elt. }
  rewrite Hk, He.
  pose proof (forEach_env_fails k w env entry error after Hne Hfail before w Hok) as R.
  destruct (forEach_env (Some k) _ w) as [[entries'|error1] w1]; cbn [fst] in *;
    [discriminate | now injection R as ->].
Qed.

(** The scenario of the specification: a secret is encrypted, stored
    with the marker as the password of [QA], and the load gives it
    back. *)
Lemma readJsonFile_sample_config (path raw p k : jsstring) (w0 w : World) :
  isWellFormed p = true -> k <> [] ->
  files w path = Some raw ->
  JSON_parse raw = Ok (sample_config (js "encrypted:" ++ base64_encode (sealed p k w0))) ->
  ENCRYPTION_KEY w = Some k ->
  fst (readJsonFile path w) = Ok (sample_config p).
Proof.
  intros Hp Hk Hf Hparse Hkey.
  assert (Hd : forall w1, fst (decrypt (base64_encode (sealed p k w0)) k w1) = Ok p).
  { intros w1. rewrite decrypt_sealed. now rewrite utf8_roundtrip. }
  revert Hparse Hd. generalize (base64_encode (sealed p k w0)) as e. intros e Hparse Hd.
  rewrite (readJsonFile_run _ _ _ _ Hf Hparse), Hkey.
  cbn [sample_config truthy typeof_object andb own_entries forEach_env].
  unfold bind at 1.
  rewrite (visit_env_marked _ _ _ (js "encrypted:" ++ e)) by reflexivity.
  replace (key_missing (Some k)) with false by (destruct k; [contradiction | reflexivity]).
  change (substring (js "encrypted:" ++ e) (length ENCRYPTED_PREFIX)) with e.
  specialize (Hd w). destruct (decrypt e k w) as [r w1]. cbn [fst] in Hd. subst r.
  unfold bind at 1. unfold bind at 1.
  rewrite visit_env_unmarked by reflexivity.
  reflexivity.
Qed.

End LoadingOutcome.

(** C6.  Plaintext passthrough and frame: when the load returns, the
    document it returns is of the kind of the parsed one (an object, an
    array, or the same primitive value), its entries carry the same keys
    in the same order, an entry whose password field does not bear the
    marker is the entry that was parsed, whatever it holds, and an entry
    whose password bears the marker differs from the parsed one in the
    value of [credentials.password] alone, which is the text [decrypt]
    returns for it under the key of the environment. *)
Theorem C6_passthrough_and_frame
    {P : Primitives} {L : PrimitiveLaws P} {J : Parser}
    (path raw : jsstring) (data data' : json) (w w' : World) :
  files w path = Some raw -> JSON_parse raw = Ok data ->
  readJsonFile path w = (Ok data', w') ->
  match data with
  | JObject _ => exists fields', data' = JObject fields'
  | JArray _ => exists items', data' = JArray items'
  | _ => data' = data
  end /\
  map fst (own_entries data') = map fst (own_entries data) /\
  Forall2
    (fun before after : jsstring * json =>
       fst after = fst before /\
       match marked_password (snd before) with
       | None => snd after = snd before
       | Some password =>
         exists k plaintext,
           ENCRYPTION_KEY w = Some k /\ k <> [] /\
           fst (decrypt (substring password (length (js "encrypted:"))) k w) = Ok plaintext /\
           password_replaced (JString plaintext) (snd before) (snd after)
       end)
    (own_entries data) (own_entries data').
Proof.
  intros Hf Hp H.
  destruct (readJsonFile_ok _ _ _ _ _ _ Hf Hp H) as [Hkind HF].
  split; [exact Hkind|]. split; [exact (resolved_keys _ _ _ _ HF) | exact HF].
Qed.

Lemma C6_passthrough_witness :
  let envelope :=
    base64_encode (@sealed stub_primitives (js "Automation@Tester@1990")
                     (js "correct-horse-battery-staple") (sample_world 0 None)) in
  let w := sample_world 1 (Some (js "correct-horse-battery-staple")) in
  Forall2
    (fun before after : jsstring * json =>
       fst after = fst before /\
       match marked_password (snd before) with
       | None => snd after = snd before
       | Some password =>
         exists k plaintext,
           ENCRYPTION_KEY w = Some k /\ k <> [] /\
           fst (@decrypt stub_primitives (substring password (length (js "encrypted:"))) k w)
           = Ok plaintext /\
           password_replaced (JString plaintext) (snd before) (snd after)
       end)
    (own_entries (sample_config (js "encrypted:" ++ envelope)))
    (own_entries (sample_config (js "Automation@Tester@1990"))).
Proof.
  intros envelope w.
  apply (@C6_passthrough_and_frame stub_primitives stub_laws
           (stub_parser (Ok (sample_config (js "encrypted:" ++ envelope))))
           (js "config.json") (js "{}")
           (sample_config (js "encrypted:" ++ envelope))
           (sample_config (js "Automation@Tester@1990"))
           w (snd (@readJsonFile stub_primitives
                     (stub_parser (Ok (sample_config (js "encrypted:" ++ envelope))))
                     (js "config.json") w))).
  - reflexivity.
  - reflexivity.
  - apply outcome_and_world.
    apply (@readJsonFile_sample_config stub_primitives stub_laws
             (stub_parser (Ok (sample_config (js "encrypted:" ++ envelope))))
             (js "config.json") (js "{}") (js "Automation@Tester@1990")
             (js "correct-horse-battery-staple") (sample_world 0 None) w);
      try reflexivity.
    discriminate.
Defined.

(** C7.  Whole-load failure with entry identification.  With a key in
    the environment: when an entry's marked password fails to decrypt and
    no entry before it does, the load throws the error whose message
    names that entry and ends with the message of the error [decrypt]
    threw; so when any entry fails to decrypt the load throws such an
    error, for the first entry that fails.  And when the load returns a
    document, every entry whose password bore the marker holds in its
    place the text that [decrypt] returned for it, which is never the
    marked text itself: no password is left encrypted. *)
Theorem C7_load_fails_as_a_whole
    {P : Primitives} {L : PrimitiveLaws P} {J : Parser}
    (path raw : jsstring) (data : json) (w : World) :
  files w path = Some raw -> JSON_parse raw = Ok data ->
  (forall k before env entry error after,
     ENCRYPTION_KEY w = Some k -> k <> [] ->
     own_entries data = before ++ (env, entry) :: after ->
     fails_to_decrypt k w entry error ->
     (forall env1 entry1 error1,
        In (env1, entry1) before -> ~ fails_to_decrypt k w entry1 error1) ->
     fst (readJsonFile path w)
     = Throw {| message :=
                  js "Failed to decrypt password for " ++ env ++ js " environment. "
                  ++ js "Verify ENCRYPTION_KEY is correct. Error: " ++ message error |} /\
     includes (decrypt_failed_message env error) env = true) /\
  (forall k,
     ENCRYPTION_KEY w = Some k -> k <> [] ->
     (exists env entry error,
        In (env, entry) (own_entries data) /\ fails_to_decrypt k w entry error) ->
     exists env entry error,
       In (env, entry) (own_entries data) /\ fails_to_decrypt k w entry error /\
       fst (readJsonFile path w) = Throw {| message := decrypt_failed_message env error |}) /\
  (forall data' w',
     readJsonFile path w = (Ok data', w') ->
     Forall2
       (fun before after : jsstring * json =>
          forall password,
            marked_password (snd before) = Some password ->
            exists k plaintext,
              ENCRYPTION_KEY w = Some k /\
              fst (decrypt (substring password (length (js "encrypted:"))) k w) = Ok plaintext /\
              get (get (Some (snd after)) (js "credentials")) (js "password")
              = Some (JString plaintext) /\
              plaintext <> password)
       (own_entries data) (own_entries data')).
Proof.
  intros Hf Hp. split; [|split].
  - intros k before env entry error after Hk Hne He Hfail Hok. split.
    + exact (readJsonFile_fails _ _ _ _ _ _ _ _ _ _ Hf Hp Hk Hne He Hfail Hok).
    + unfold decrypt_failed_message. apply includes_middle.
  - intros k Hk Hne Hex.
    destruct (first_failing_entry k w _ Hex)
      as (before & env & entry & error & after & He & Hfail & Hok).
    exists env, entry, error. split; [rewrite He; apply in_elt|].
    split; [exact Hfail|].
    exact (readJsonFile_fails _ _ _ _ _ _ _ _ _ _ Hf Hp Hk Hne He Hfail Hok).
  - intros data' w' H.
    destruct (readJsonFile_ok _ _ _ _ _ _ Hf Hp H) as [_ HF].
    apply (Forall2_impl _ (R1 := resolved (ENCRYPTION_KEY w) w)); [|exact HF].
    intros [env entry] [env' entry'] [_ Hr] password Hm. cbn [snd] in *.
    rewrite Hm in Hr. destruct Hr as (k & plaintext & Hk & _ & Hd & Hrep).
    exists k, plaintext. split; [exact Hk|]. split; [exact Hd|].
    split; [exact (password_replaced_get _ _ _ Hrep)|].
    intros ->. apply decrypt_ok_length in Hd.
    apply marked_password_field in Hm. destruct Hm as [_ Hs].
    apply startsWith_length in Hs.
    unfold substring in Hd. rewrite length_skipn in Hd.
    change (length ENCRYPTED_PREFIX) with 10%nat in *. lia.
Qed.


Lemma C7_load_fails_witness :
  fst (@readJsonFile stub_primitives (stub_parser (Ok (sample_config (js "encrypted:c2hvcnQ="))))
         (js "config.json") (sample_world 0 (Some (js "k"))))
  = Throw {| message :=
               js "Failed to decrypt password for " ++ js "QA" ++ js " environment. "
               ++ js "Verify ENCRYPTION_KEY is correct. Error: "
               ++ js "Invalid initialization vector" |}.
Proof.
  apply (@C7_load_fails_as_a_whole stub_primitives stub_laws
           (stub_parser (Ok (sample_config (js "encrypted:c2hvcnQ="))))
           (js "config.json") (js "{}")
           (sample_config (js "encrypted:c2hvcnQ="))
           (sample_world 0 (Some (js "k"))) eq_refl eq_refl)
    with (k := js "k") (before := @nil (jsstring * json))
         (entry := JObject [(js "baseURL", JString (js "https://www.youtube.com"));
                            (js "credentials",
                             JObject [(js "username", JString (js "tester@example.com"));
                                      (js "password",
                                       JString (js "encrypted:c2hvcnQ="))])])
         (error := INVALID_IV)
         (after := [(js "UAT",
                     JObject [(js "baseURL", JString (js "https://uat.example.com"));
                              (js "credentials",
                               JObject [(js "username", JString (js "uat@example.com"));
                                        (js "password", JString (js "plainPass123"))])])]).
  - reflexivity.
  - discriminate.
  - reflexivity.
  - exists (js "encrypted:c2hvcnQ="). split; [reflexivity|].
    apply (@decrypt_without_iv _ stub_laws). vm_compute. lia.
  - intros env1 entry1 error1 [].
Defined.

(* ================================================================== *)
(** * Part V.  The command-line encoder                                 *)
(* ================================================================== *)

Lemma printed_app (t u : list event) : printed (t ++ u) = printed t ++ printed u.
Proof.
  induction t as [|[] t IH]; cbn [app printed]; rewrite ?IH; reflexivity.
Qed.

Section CommandLine.
Context {P : Primitives} {L : PrimitiveLaws P}.

Lemma sealed_record (p k : jsstring) (e : event) (w : World) :
  sealed p k (record e w) = sealed p k w.
Proof. reflexivity. Qed.

(** The run of the script on two non-empty answers. *)
Lemma encryptPassword_run (password encryptionKey : jsstring) (w : World) :
  password <> [] -> encryptionKey <> [] ->
  let encrypted := base64_encode (sealed password encryptionKey w) in
  let w3 :=
    record (Stdout (js "Enter encryption key (store in ENCRYPTION_KEY env var): "))
      (record (Stdout (js "Enter password to encrypt: "))
         (record (Stdout (js "=== Password Encryption Utility ===" ++ NEWLINE)) w)) in
  encryptPassword password encryptionKey w
  = (Ok tt,
     record ReadlineClose
       (record (Stdout (NEWLINE
                        ++ js "For GitHub Actions, add ENCRYPTION_KEY to repository secrets."
                        ++ NEWLINE))
          (record (Stdout (export_line encryptionKey))
             (record (Stdout (js "Set this environment variable locally:"))
                (record (Stdout (config_line encrypted))
                   (record (Stdout (js "Add this to config.json:"))
                      (record (Stdout (NEWLINE ++ CHECK_MARK
                                       ++ js " Password encrypted successfully!" ++ NEWLINE))
                         (record (key_derivation encryptionKey (next_random 64 w))
                            (consume 16 (consume 64 w3)))))))))).
Proof.
  intros Hp Hk encrypted w3. unfold encryptPassword.
  rewrite (bind_ok _ _ _ (record (Stdout (js "=== Password Encryption Utility ===" ++ NEWLINE)) w) tt)
    by reflexivity.
  rewrite (bind_ok _ _ _
             (record (Stdout (js "Enter password to encrypt: "))
                (record (Stdout (js "=== Password Encryption Utility ===" ++ NEWLINE)) w)) tt)
    by reflexivity.
  rewrite (bind_ok _ _ _ w3 tt) by reflexivity.
  destruct password as [|c password]; [contradiction|].
  destruct encryptionKey as [|d encryptionKey]; [contradiction|].
  cbn [empty_string orb].
  unfold bind at 1. unfold try_catch. unfold bind at 1.
  rewrite encrypt_sealed.
  reflexivity.
Qed.

End CommandLine.

(** C9 (amended).  The script writes no file and prints to the console
    only; run on a non-empty secret and a non-empty passphrase it prints
    its banner, the two prompts, and six lines of result, among them the
    line for [config.json], which carries the marker and the envelope
    that [encrypt] returned, and the line
    [export ENCRYPTION_KEY="<passphrase>"], which shows the passphrase as
    it was entered. *)
Theorem C9_script_output
    {P : Primitives} {L : PrimitiveLaws P} (password encryptionKey : jsstring) (w : World) :
  password <> [] -> encryptionKey <> [] ->
  exists encrypted w1,
    encrypt password encryptionKey w = (Ok encrypted, w1) /\
    printed (trace (snd (encryptPassword password encryptionKey w)))
    = printed (trace w)
      ++ [js "=== Password Encryption Utility ===" ++ NEWLINE;
          js "Enter password to encrypt: ";
          js "Enter encryption key (store in ENCRYPTION_KEY env var): ";
          NEWLINE ++ CHECK_MARK ++ js " Password encrypted successfully!" ++ NEWLINE;
          js "Add this to config.json:";
          js dquote ++ js "password" ++ js dquote ++ js ": " ++ js dquote
            ++ js "encrypted:" ++ encrypted ++ js dquote ++ NEWLINE;
          js "Set this environment variable locally:";
          js "export ENCRYPTION_KEY=" ++ js dquote ++ encryptionKey ++ js dquote;
          NEWLINE ++ js "For GitHub Actions, add ENCRYPTION_KEY to repository secrets."
            ++ NEWLINE] /\
    includes (js "export ENCRYPTION_KEY=" ++ js dquote ++ encryptionKey ++ js dquote)
      encryptionKey = true /\
    files (snd (encryptPassword password encryptionKey w)) = files w.
Proof.
  intros Hp Hk.
  eexists (base64_encode (sealed password encryptionKey w)), _.
  split; [apply encrypt_sealed|].
  rewrite (encryptPassword_run password encryptionKey w Hp Hk).
  cbn [snd]. split; [|split].
  - cbn [trace record consume]. rewrite !printed_app. cbn [printed].
    rewrite <- !app_assoc. reflexivity.
  - rewrite app_assoc. apply includes_middle.
  - reflexivity.
Qed.

Lemma C9_script_output_witness :
  exists encrypted w1,
    @encrypt stub_primitives (js "Automation@Tester@1990")
      (js "correct-horse-battery-staple") (sample_world 0 None) = (Ok encrypted, w1) /\
    printed (trace (snd (@encryptPassword stub_primitives
                           (js "Automation@Tester@1990")
                           (js "correct-horse-battery-staple") (sample_world 0 None))))
    = printed (trace (sample_world 0 None))
      ++ [js "=== Password Encryption Utility ===" ++ NEWLINE;
          js "Enter password to encrypt: ";
          js "Enter encryption key (store in ENCRYPTION_KEY env var): ";
          NEWLINE ++ CHECK_MARK ++ js " Password encrypted successfully!" ++ NEWLINE;
          js "Add this to config.json:";
          js dquote ++ js "password" ++ js dquote ++ js ": " ++ js dquote
            ++ js "encrypted:" ++ encrypted ++ js dquote ++ NEWLINE;
          js "Set this environment variable locally:";
          js "export ENCRYPTION_KEY=" ++ js dquote ++ js "correct-horse-battery-staple"
            ++ js dquote;
          NEWLINE ++ js "For GitHub Actions, add ENCRYPTION_KEY to repository secrets."
            ++ NEWLINE] /\
    includes (js "export ENCRYPTION_KEY=" ++ js dquote ++ js "correct-horse-battery-staple"
              ++ js dquote)
      (js "correct-horse-battery-staple") = true /\
    files (snd (@encryptPassword stub_primitives (js "Automation@Tester@1990")
                  (js "correct-horse-battery-staple") (sample_world 0 None)))
    = files (sample_world 0 None).
Proof.
  apply (@C9_script_output stub_primitives stub_laws
           (js "Automation@Tester@1990") (js "correct-horse-battery-staple")
           (sample_world 0 None)); discriminate.
Defined.

(** C9 as stated fails: the passphrase is on standard output, in the
    line that tells the operator how to export it. *)
Lemma C9_counterexample_passphrase_on_stdout :
  In (Stdout (js "export ENCRYPTION_KEY=" ++ js dquote ++ js "correct-horse-battery-staple"
              ++ js dquote))
    (trace (snd (@encryptPassword stub_primitives (js "Automation@Tester@1990")
                   (js "correct-horse-battery-staple") (sample_world 0 None)))) /\
  includes (js "export ENCRYPTION_KEY=" ++ js dquote ++ js "correct-horse-battery-staple"
            ++ js dquote)
    (js "correct-horse-battery-staple") = true.
Proof.
  split.
  - rewrite (@encryptPassword_run _ stub_laws) by discriminate.
    cbn [snd trace record].
    apply in_or_app. left. apply in_or_app. left. apply in_or_app. right.
    left. reflexivity.
  - rewrite app_assoc. apply includes_middle.
Qed.

(* ================================================================== *)
(** * Part VI.  Further properties of the codec, the resolver and the
    command-line encoder                                               *)
(* ================================================================== *)

(** ** Base64 texts *)


Lemma base64_char_alphabet (v : N) : base64_alphabet (base64_char v) = true.
Proof.
  unfold base64_alphabet, base64_char, in_range, BASE64_PAD.
  decide_comparisons; reflexivity.
Qed.

Lemma base64_encode_shape_aux (n : nat) (bs : bytes) :
  (length bs <= n)%nat ->
  forallb base64_alphabet (base64_encode bs) = true /\
  length (base64_encode bs) = (4 * ((length bs + 2) / 3))%nat.
Proof.
  revert bs. induction n as [n IH] using lt_wf_ind. intros bs Hn.
  destruct bs as [|a [|b [|c rest]]].
  - split; reflexivity.
  - cbn [base64_encode forallb]. rewrite !base64_char_alphabet. split; reflexivity.
  - cbn [base64_encode forallb]. rewrite !base64_char_alphabet. split; reflexivity.
  - destruct (IH (length rest)) with (bs := rest) as [Ha Hl];
      [cbn [length] in Hn; lia | lia |].
    cbn [base64_encode forallb app]. rewrite !base64_char_alphabet, Ha.
    split; [reflexivity|].
    cbn [length]. rewrite Hl.
    replace (S (S (S (length rest))) + 2)%nat with (length rest + 2 + 1 * 3)%nat by lia.
    rewrite Nat.div_add by lia. lia.
Qed.

Lemma base64_encode_alphabet (bs : bytes) :
  forallb base64_alphabet (base64_encode bs) = true.
Proof. exact (proj1 (base64_encode_shape_aux (length bs) bs (le_n _))). Qed.

Lemma base64_encode_length (bs : bytes) :
  length (base64_encode bs) = (4 * ((length bs + 2) / 3))%nat.
Proof. exact (proj2 (base64_encode_shape_aux (length bs) bs (le_n _))). Qed.

Lemma base64_sextets_skip (s1 s2 : jsstring) (c : N) :
  low_byte c <> BASE64_PAD -> unbase64 (low_byte c) = None ->
  base64_sextets (s1 ++ c :: s2) = base64_sextets (s1 ++ s2).
Proof.
  intros Hp Hc. induction s1 as [|a s1 IH].
  - cbn [app base64_sextets]. cbv zeta. rewrite Hc.
    destruct (N.eqb_spec (low_byte c) BASE64_PAD); [contradiction | reflexivity].
  - cbn [app base64_sextets]. rewrite IH. reflexivity.
Qed.

Lemma white_space_skipped (c : N) :
  base64_white_space c = true ->
  low_byte c <> BASE64_PAD /\ unbase64 (low_byte c) = None.
Proof.
  unfold base64_white_space, BASE64_PAD. intros H.
  repeat (apply orb_true_iff in H; destruct H as [H|H]);
    apply N.eqb_eq in H; subst c; split; (discriminate || reflexivity).
Qed.

(** ** The codec *)

(** X1.  The envelope text.  For every text and passphrase, [encrypt]
    returns a text made of base64 characters only (letters, digits, [+],
    [/] and the padding [=]): it needs no escaping inside a JSON string.
    Its length is four characters for every three bytes, rounded up, of
    the 96 bytes of salt, initialization vector and tag and the UTF-8
    bytes of the text, and it decodes to that many bytes: the ciphertext
    is as long as the text, without padding. *)
Theorem encrypt_envelope_text
    {P : Primitives} {L : PrimitiveLaws P} (text password : jsstring) (w : World) :
  exists e w',
    encrypt text password w = (Ok e, w') /\
    forallb base64_alphabet e = true /\
    length e = (4 * ((96 + length (utf8_encode text) + 2) / 3))%nat /\
    length (base64_decode e) = (96 + length (utf8_encode text))%nat.
Proof.
  eexists. eexists. split; [apply (encrypt_sealed text password w)|].
  destruct (sealed_parts text password w) as (salt & iv & c & Hs & Hi & Hc & E & _).
  assert (Hlen : length (sealed text password w) = (96 + length (utf8_encode text))%nat).
  { rewrite E. rewrite !length_app. rewrite (gcm_tag_length (derived_key password salt) iv c).
    lia. }
  split; [apply base64_encode_alphabet|].
  split.
  - rewrite base64_encode_length, Hlen. reflexivity.
  - rewrite base64_roundtrip. exact Hlen.
Qed.

Lemma encrypt_envelope_text_witness :
  exists e w',
    @encrypt stub_primitives (js "Automation@Tester@1990")
      (js "correct-horse-battery-staple") (sample_world 0 None) = (Ok e, w') /\
    forallb base64_alphabet e = true /\
    length e = (4 * ((96 + length (utf8_encode (js "Automation@Tester@1990")) + 2) / 3))%nat /\
    length (base64_decode e) = (96 + length (utf8_encode (js "Automation@Tester@1990")))%nat.
Proof.
  exact (@encrypt_envelope_text stub_primitives stub_laws (js "Automation@Tester@1990")
           (js "correct-horse-battery-staple") (sample_world 0 None)).
Defined.

(** X2.  The error of [decrypt] tells nothing about the passphrase.
    When [decrypt] throws for an envelope text under one passphrase and
    throws for the same text under another, the two errors are the same:
    which error is thrown depends on the envelope text alone. *)
Theorem decrypt_error_independent_of_passphrase
    {P : Primitives} {L : PrimitiveLaws P}
    (e k1 k2 : jsstring) (w1 w2 : World) (error1 error2 : Error) :
  fst (decrypt e k1 w1) = Throw error1 ->
  fst (decrypt e k2 w2) = Throw error2 ->
  error1 = error2.
Proof.
  pose proof (decrypt_run e k1 w1) as R1. pose proof (decrypt_run e k2 w2) as R2.
  cbv zeta in R1, R2. rewrite R1, R2. cbn [fst].
  unfold decipher_outcome.
  destruct (length (firstn 16 (skipn 64 (base64_decode e))) =? 0)%nat;
    [congruence|].
  destruct (valid_gcm_tag_length (length (firstn 16 (skipn 80 (base64_decode e)))));
    [|congruence].
  repeat match goal with |- context [if ?b then _ else _] => destruct b end;
    congruence.
Qed.

Lemma decrypt_error_independent_witness :
  fst (@decrypt stub_primitives (js "c2hvcnQ=") (js "one key") (sample_world 0 None))
  = Throw INVALID_IV /\
  fst (@decrypt stub_primitives (js "c2hvcnQ=") (js "another key") (sample_world 1 None))
  = Throw INVALID_IV /\
  INVALID_IV = INVALID_IV.
Proof.
  assert (H : (length (base64_decode (js "c2hvcnQ=")) <= 64)%nat)
    by (vm_compute; lia).
  pose proof (@decrypt_without_iv stub_primitives stub_laws
                (js "c2hvcnQ=") (js "one key") (sample_world 0 None) H) as H1.
  pose proof (@decrypt_without_iv stub_primitives stub_laws
                (js "c2hvcnQ=") (js "another key") (sample_world 1 None) H) as H2.
  split; [exact H1|]. split; [exact H2|].
  exact (@decrypt_error_independent_of_passphrase stub_primitives stub_laws
           (js "c2hvcnQ=") (js "one key") (js "another key")
           (sample_world 0 None) (sample_world 1 None) INVALID_IV INVALID_IV H1 H2).
Defined.

(** X3.  White space in the envelope text.  A space, a tab, a line feed
    or a carriage return anywhere in the envelope text changes nothing:
    [decrypt] returns the same text or throws the same error with and
    without it, so a wrapped or indented envelope decrypts. *)
Theorem decrypt_ignores_white_space
    {P : Primitives} {L : PrimitiveLaws P}
    (s1 s2 : jsstring) (c : N) (password : jsstring) (w w' : World) :
  base64_white_space c = true ->
  fst (decrypt (s1 ++ c :: s2) password w) = fst (decrypt (s1 ++ s2) password w').
Proof.
  intros Hc. apply white_space_skipped in Hc. destruct Hc as [Hp Hn].
  pose proof (decrypt_run (s1 ++ c :: s2) password w) as R1.
  pose proof (decrypt_run (s1 ++ s2) password w') as R2.
  cbv zeta in R1, R2. rewrite R1, R2. cbn [fst].
  unfold base64_decode. rewrite (base64_sextets_skip s1 s2 c Hp Hn). reflexivity.
Qed.

Lemma decrypt_ignores_white_space_witness :
  fst (@decrypt stub_primitives (js "c2hv" ++ 10%N :: js "cnQ=") (js "k") (sample_world 0 None))
  = fst (@decrypt stub_primitives (js "c2hv" ++ js "cnQ=") (js "k") (sample_world 0 None)).
Proof.
  apply (@decrypt_ignores_white_space stub_primitives stub_laws). reflexivity.
Defined.

(** ** The resolver *)

Section ResolverRuns.
Context {P : Primitives} {J : Parser}.

Lemma forEach_env_unmarked (key : option jsstring) (entries : list (jsstring * json))
    (w : World) :
  (forall env entry, In (env, entry) entries -> marked_password entry = None) ->
  forEach_env key entries w = (Ok entries, w).
Proof.
  induction entries as [|[env entry] rest IH]; intros H; [reflexivity|].
  cbn [forEach_env].
  rewrite (bind_ok (visit_env key env entry) _ w w entry)
    by (apply visit_env_unmarked, (H env); left; reflexivity).
  rewrite (bind_ok (forEach_env key rest) _ w w rest)
    by (apply IH; intros env1 entry1 Hin; apply (H env1); right; exact Hin).
  reflexivity.
Qed.

Lemma forEach_env_app (key : option jsstring) (xs ys : list (jsstring * json)) (w : World) :
  forEach_env key (xs ++ ys) w
  = match forEach_env key xs w with
    | (Ok xs', w1) =>
      match forEach_env key ys w1 with
      | (Ok ys', w2) => (Ok (xs' ++ ys'), w2)
      | (Throw error, w2) => (Throw error, w2)
      end
    | (Throw error, w1) => (Throw error, w1)
    end.
Proof.
  revert w. induction xs as [|[env entry] xs IH]; intros w.
  - cbn [app forEach_env]. unfold ret.
    destruct (forEach_env key ys w) as [[ys'|error] w2]; reflexivity.
  - cbn [app forEach_env]. unfold bind, ret.
    destruct (visit_env key env entry w) as [[entry'|error] w1]; [|reflexivity].
    rewrite IH.
    destruct (forEach_env key xs w1) as [[xs'|error] w2]; [|reflexivity].
    destruct (forEach_env key ys w2) as [[ys'|error] w3]; reflexivity.
Qed.

End ResolverRuns.

(** X4.  No key is needed where nothing is encrypted.  A document none
    of whose entries has a password bearing the marker loads as it was
    parsed, whatever [ENCRYPTION_KEY] is, set or not; the world is left as
    it was: no call of [decrypt], no key derivation. *)
Theorem readJsonFile_without_marked_passwords
    {P : Primitives} {J : Parser} (path raw : jsstring) (data : json) (w : World) :
  files w path = Some raw -> JSON_parse raw = Ok data ->
  (forall env entry, In (env, entry) (own_entries data) -> marked_password entry = None) ->
  readJsonFile path w = (Ok data, w).
Proof.
  intros Hf Hp Hu. rewrite (readJsonFile_run path raw data w Hf Hp).
  destruct (truthy (Some data) && typeof_object data); [|reflexivity].
  rewrite (forEach_env_unmarked (ENCRYPTION_KEY w) (own_entries data) w Hu).
  rewrite with_own_entries. reflexivity.
Qed.

Lemma readJsonFile_without_marked_passwords_witness :
  @readJsonFile stub_primitives (stub_parser (Ok (sample_config (js "plainPass123"))))
    (js "config.json") (sample_world 0 None)
  = (Ok (sample_config (js "plainPass123")), sample_world 0 None).
Proof.
  apply (@readJsonFile_without_marked_passwords stub_primitives
           (stub_parser (Ok (sample_config (js "plainPass123"))))
           (js "config.json") (js "{}")).
  - reflexivity.
  - reflexivity.
  - intros env entry [H|[H|[]]]; injection H as <- <-; reflexivity.
Defined.

(** X5.  Errors of reading and of parsing.  When the file cannot be read
    [readJsonFile] throws, and when [JSON.parse] throws it throws the
    error of the parser as it is; unlike an error of [decrypt] it is not
    wrapped, and nothing else is done. *)
Theorem readJsonFile_read_and_parse_errors
    {P : Primitives} {J : Parser} (path : jsstring) (w : World) :
  (files w path = None ->
   exists error, readJsonFile path w = (Throw error, w)) /\
  (forall raw error,
     files w path = Some raw -> JSON_parse raw = Throw error ->
     readJsonFile path w = (Throw error, w)).
Proof.
  split.
  - intros Hf. eexists. unfold readJsonFile, bind, readFileSync. rewrite Hf. reflexivity.
  - intros raw error Hf Hp. unfold readJsonFile, bind, readFileSync, parse.
    rewrite Hf, Hp. reflexivity.
Qed.

Section ResolverCounts.
Context {P : Primitives} {L : PrimitiveLaws P} {J : Parser}.

Lemma count_key_derivations_app (t u : list event) :
  count_key_derivations (t ++ u) = (count_key_derivations t + count_key_derivations u)%nat.
Proof.
  induction t as [|e t IH]; [reflexivity|]. destruct e; cbn; rewrite ?IH; reflexivity.
Qed.

Lemma count_decrypt_calls_app (t u : list event) :
  count_decrypt_calls (t ++ u) = (count_decrypt_calls t + count_decrypt_calls u)%nat.
Proof.
  induction t as [|e t IH]; [reflexivity|]. destruct e; cbn; rewrite ?IH; reflexivity.
Qed.

Lemma decrypt_world (e k : jsstring) (w : World) :
  trace (snd (decrypt e k w))
  = trace w ++ [CallDecrypt e k; key_derivation k (firstn 64 (base64_decode e))] /\
  drawn (snd (decrypt e k w)) = drawn w.
Proof.
  pose proof (decrypt_run e k w) as R. cbv zeta in R. rewrite R. cbn [snd].
  unfold record. cbn [trace drawn]. rewrite <- app_assoc. split; reflexivity.
Qed.

Lemma visit_env_ok_counts (key : option jsstring) (env : jsstring) (entry entry' : json)
    (w w' : World) :
  visit_env key env entry w = (Ok entry', w') ->
  let n := if is_marked (env, entry) then 1%nat else 0%nat in
  count_key_derivations (trace w') = (count_key_derivations (trace w) + n)%nat /\
  count_decrypt_calls (trace w') = (count_decrypt_calls (trace w) + n)%nat /\
  drawn w' = drawn w.
Proof.
  intros Hv. unfold is_marked. cbn [snd].
  destruct (marked_password entry) as [password|] eqn:Hm.
  - rewrite (visit_env_marked key env entry password w Hm) in Hv.
    destruct (key_missing key); [discriminate|].
    destruct (decrypt_world (substring password (length ENCRYPTED_PREFIX))
                (match key with Some k => k | None => [] end) w) as [Ht Hd].
    destruct (decrypt (substring password (length ENCRYPTED_PREFIX))
                (match key with Some k => k | None => [] end) w) as [[plaintext|error] w1];
      [|discriminate].
    injection Hv as _ <-. cbn [snd] in Ht, Hd. rewrite Ht, Hd.
    rewrite count_key_derivations_app, count_decrypt_calls_app.
    split; [reflexivity|]. split; reflexivity.
  - rewrite (visit_env_unmarked key env entry w Hm) in Hv. injection Hv as _ <-.
    cbv zeta. rewrite !Nat.add_0_r. split; [reflexivity|]. split; reflexivity.
Qed.

Lemma forEach_env_ok_counts (key : option jsstring) (entries entries' : list (jsstring * json))
    (w w' : World) :
  forEach_env key entries w = (Ok entries', w') ->
  let n := length (filter is_marked entries) in
  count_key_derivations (trace w') = (count_key_derivations (trace w) + n)%nat /\
  count_decrypt_calls (trace w') = (count_decrypt_calls (trace w) + n)%nat /\
  drawn w' = drawn w.
Proof.
  revert entries' w. induction entries as [|[env entry] rest IH]; intros entries' w Hf.
  - injection Hf as _ <-. cbn. rewrite !Nat.add_0_r. split; [reflexivity|]. split; reflexivity.
  - cbn [forEach_env] in Hf. unfold bind, ret in Hf.
    destruct (visit_env key env entry w) as [[entry1|error] w1] eqn:Hv; [|discriminate].
    destruct (forEach_env key rest w1) as [[rest1|error] w2] eqn:Hr; [|discriminate].
    injection Hf as _ <-.
    destruct (visit_env_ok_counts key env entry entry1 w w1 Hv) as (H1 & H2 & H3).
    destruct (IH rest1 w1 Hr) as (H4 & H5 & H6).
    cbn [filter]. destruct (is_marked (env, entry)); cbn [length]; cbv zeta in *; lia.
Qed.

End ResolverCounts.

(** X6.  One key derivation for each encrypted password.  A load that
    returns has called [decrypt] once, and derived a key once (PBKDF2,
    100000 iterations), for every entry whose password bears the marker,
    no more and no less; and it has drawn no random bytes. *)
Theorem readJsonFile_derives_a_key_per_marked_password
    {P : Primitives} {L : PrimitiveLaws P} {J : Parser}
    (path raw : jsstring) (data data' : json) (w w' : World) :
  files w path = Some raw -> JSON_parse raw = Ok data ->
  readJsonFile path w = (Ok data', w') ->
  count_decrypt_calls (trace w')
  = (count_decrypt_calls (trace w) + length (filter is_marked (own_entries data)))%nat /\
  count_key_derivations (trace w')
  = (count_key_derivations (trace w) + length (filter is_marked (own_entries data)))%nat /\
  drawn w' = drawn w.
Proof.
  intros Hf Hp Hr. rewrite (readJsonFile_run path raw data w Hf Hp) in Hr.
  destruct (truthy (Some data) && typeof_object data) eqn:Ho.
  - destruct (forEach_env (ENCRYPTION_KEY w) (own_entries data) w) as [[entries|error] w1] eqn:E;
      [|discriminate].
    injection Hr as _ <-.
    destruct (forEach_env_ok_counts (ENCRYPTION_KEY w) (own_entries data) entries w w1 E)
      as (H1 & H2 & H3).
    cbv zeta in *. split; [exact H2|]. split; [exact H1 | exact H3].
  - injection Hr as _ <-.
    assert (E : own_entries data = []).
    { destruct data; try reflexivity; discriminate. }
    rewrite E. cbn. rewrite !Nat.add_0_r. split; [reflexivity|]. split; reflexivity.
Qed.

Lemma readJsonFile_derives_a_key_per_marked_password_witness :
  let envelope :=
    base64_encode (@sealed stub_primitives (js "Automation@Tester@1990")
                     (js "correct-horse-battery-staple") (sample_world 0 None)) in
  let w := sample_world 1 (Some (js "correct-horse-battery-staple")) in
  count_decrypt_calls
    (trace (snd (@readJsonFile stub_primitives
                   (stub_parser (Ok (sample_config (js "encrypted:" ++ envelope))))
                   (js "config.json") w)))
  = (count_decrypt_calls (trace w)
     + length (filter is_marked (own_entries (sample_config (js "encrypted:" ++ envelope)))))%nat /\
  count_key_derivations
    (trace (snd (@readJsonFile stub_primitives
                   (stub_parser (Ok (sample_config (js "encrypted:" ++ envelope))))
                   (js "config.json") w)))
  = (count_key_derivations (trace w)
     + length (filter is_marked (own_entries (sample_config (js "encrypted:" ++ envelope)))))%nat /\
  drawn (snd (@readJsonFile stub_primitives
                (stub_parser (Ok (sample_config (js "encrypted:" ++ envelope))))
                (js "config.json") w))
  = drawn w.
Proof.
  intros envelope w.
  apply (@readJsonFile_derives_a_key_per_marked_password stub_primitives stub_laws
           (stub_parser (Ok (sample_config (js "encrypted:" ++ envelope))))
           (js "config.json") (js "{}") (sample_config (js "encrypted:" ++ envelope))
           (sample_config (js "Automation@Tester@1990")) w
           (snd (@readJsonFile stub_primitives
                   (stub_parser (Ok (sample_config (js "encrypted:" ++ envelope))))
                   (js "config.json") w))).
  - reflexivity.
  - reflexivity.
  - apply outcome_and_world.
    apply (@readJsonFile_sample_config stub_primitives stub_laws
             (stub_parser (Ok (sample_config (js "encrypted:" ++ envelope))))
             (js "config.json") (js "{}") (js "Automation@Tester@1990")
             (js "correct-horse-battery-staple") (sample_world 0 None) w);
      try reflexivity.
    discriminate.
Defined.

Section ResolverSuccess.
Context {P : Primitives} {L : PrimitiveLaws P} {J : Parser}.

Lemma substring_marker (e : jsstring) :
  substring (js "encrypted:" ++ e) (length ENCRYPTED_PREFIX) = e.
Proof. reflexivity. Qed.

Lemma key_missing_nonempty (k : jsstring) : k <> [] -> key_missing (Some k) = false.
Proof. destruct k; [congruence | reflexivity]. Qed.

Lemma decrypt_encrypted (p k e : jsstring) (w0 w1 w : World) :
  isWellFormed p = true -> encrypt p k w0 = (Ok e, w1) ->
  fst (decrypt e k w) = Ok p.
Proof.
  intros Hp He. rewrite (encrypt_sealed p k w0) in He.
  assert (E : e = base64_encode (sealed p k w0)) by congruence.
  rewrite E, (decrypt_sealed p k w0 w), (utf8_roundtrip p Hp). reflexivity.
Qed.

Lemma forEach_env_succeeds (k : jsstring) (entries : list (jsstring * json)) (w : World) :
  k <> [] ->
  (forall env entry password,
     In (env, entry) entries -> marked_password entry = Some password ->
     exists p w0 e w1,
       isWellFormed p = true /\ encrypt p k w0 = (Ok e, w1) /\
       password = js "encrypted:" ++ e) ->
  exists entries' w', forEach_env (Some k) entries w = (Ok entries', w').
Proof.
  intros Hk. revert w. induction entries as [|[env entry] rest IH]; intros w H.
  - eexists. eexists. reflexivity.
  - assert (Hv : exists entry' w1, visit_env (Some k) env entry w = (Ok entry', w1)).
    { destruct (marked_password entry) as [password|] eqn:Hm.
      - destruct (H env entry password (or_introl eq_refl) Hm)
          as (p & w0 & e & w1 & Hp & He & ->).
        rewrite (visit_env_marked (Some k) env entry _ w Hm).
        rewrite (key_missing_nonempty k Hk), substring_marker.
        pose proof (decrypt_encrypted p k e w0 w1 w Hp He) as Hd.
        destruct (decrypt e k w) as [r w2]. cbn [fst] in Hd. subst r.
        eexists. eexists. reflexivity.
      - rewrite (visit_env_unmarked (Some k) env entry w Hm).
        eexists. eexists. reflexivity. }
    destruct Hv as (entry' & w1 & Hv).
    destruct (IH w1) as (rest' & w2 & Hr).
    { intros env1 entry1 password Hin. apply (H env1). right. exact Hin. }
    exists ((env, entry') :: rest'), w2.
    cbn [forEach_env].
    rewrite (bind_ok (visit_env (Some k) env entry) _ w w1 entry' Hv).
    rewrite (bind_ok (forEach_env (Some k) rest) _ w1 w2 rest' Hr).
    reflexivity.
Qed.

End ResolverSuccess.

(** X7.  Loading what [encrypt] made.  With a non-empty key in the
    environment, a document in which every password bearing the marker
    is the marker followed by an envelope that [encrypt] made under that
    key from a well-formed text loads; every entry keeps its key, an
    entry without a marked password is unchanged, and in an entry with
    one the password is replaced by the text that was encrypted, nothing
    else changed. *)
Theorem readJsonFile_resolves_encrypted_passwords
    {P : Primitives} {L : PrimitiveLaws P} {J : Parser}
    (path raw : jsstring) (data : json) (k : jsstring) (w : World) :
  files w path = Some raw -> JSON_parse raw = Ok data ->
  ENCRYPTION_KEY w = Some k -> k <> [] ->
  (forall env entry password,
     In (env, entry) (own_entries data) -> marked_password entry = Some password ->
     exists p w0 e w1,
       isWellFormed p = true /\ encrypt p k w0 = (Ok e, w1) /\
       password = js "encrypted:" ++ e) ->
  exists data' w',
    readJsonFile path w = (Ok data', w') /\
    Forall2
      (fun before after : jsstring * json =>
         fst after = fst before /\
         match marked_password (snd before) with
         | None => snd after = snd before
         | Some password =>
           forall p w0 e w1,
             isWellFormed p = true -> encrypt p k w0 = (Ok e, w1) ->
             password = js "encrypted:" ++ e ->
             password_replaced (JString p) (snd before) (snd after)
         end)
      (own_entries data) (own_entries data').
Proof.
  intros Hf Hp Hk Hne Hs.
  assert (Hrun : exists data' w', readJsonFile path w = (Ok data', w')).
  { rewrite (readJsonFile_run path raw data w Hf Hp).
    destruct (truthy (Some data) && typeof_object data).
    - rewrite Hk.
      destruct (forEach_env_succeeds k (own_entries data) w Hne Hs) as (entries' & w' & E).
      rewrite E. eexists. eexists. reflexivity.
    - eexists. eexists. reflexivity. }
  destruct Hrun as (data' & w' & Hrun). exists data', w'. split; [exact Hrun|].
  destruct (readJsonFile_ok path raw data data' w w' Hf Hp Hrun) as [_ HF].
  eapply Forall2_impl; [|exact HF].
  intros before after [Hfst Hres]. split; [exact Hfst|].
  destruct (marked_password (snd before)) as [password|]; [|exact Hres].
  destruct Hres as (k' & plaintext & Hk' & _ & Hd & Hrep).
  intros p w0 e w1 Hwf He ->.
  rewrite Hk in Hk'. injection Hk' as <-.
  rewrite substring_marker in Hd.
  rewrite (decrypt_encrypted p k e w0 w1 w Hwf He) in Hd.
  apply Ok_injective in Hd. subst plaintext. exact Hrep.
Qed.

Lemma readJsonFile_resolves_encrypted_passwords_witness :
  let k := js "correct-horse-battery-staple" in
  let envelope :=
    base64_encode (@sealed stub_primitives (js "Automation@Tester@1990") k
                     (sample_world 0 None)) in
  let data := sample_config (js "encrypted:" ++ envelope) in
  exists data' w',
    @readJsonFile stub_primitives (stub_parser (Ok data)) (js "config.json")
      (sample_world 1 (Some k)) = (Ok data', w') /\
    Forall2
      (fun before after : jsstring * json =>
         fst after = fst before /\
         match marked_password (snd before) with
         | None => snd after = snd before
         | Some password =>
           forall p w0 e w1,
             isWellFormed p = true -> @encrypt stub_primitives p k w0 = (Ok e, w1) ->
             password = js "encrypted:" ++ e ->
             password_replaced (JString p) (snd before) (snd after)
         end)
      (own_entries data) (own_entries data').
Proof.
  intros k envelope data.
  assert (He : @encrypt stub_primitives (js "Automation@Tester@1990") k (sample_world 0 None)
               = (Ok envelope,
                  record (key_derivation k (next_random 64 (sample_world 0 None)))
                    (consume 16 (consume 64 (sample_world 0 None)))))
    by exact (@encrypt_sealed stub_primitives stub_laws (js "Automation@Tester@1990") k
                (sample_world 0 None)).
  clearbody envelope.
  apply (@readJsonFile_resolves_encrypted_passwords stub_primitives stub_laws
           (stub_parser (Ok data)) (js "config.json") (js "{}") data k
           (sample_world 1 (Some k))).
  - reflexivity.
  - reflexivity.
  - reflexivity.
  - discriminate.
  - intros env entry password [H|[H|[]]] Hm; injection H as <- <-.
    + cbn in Hm. injection Hm as <-.
      exists (js "Automation@Tester@1990"), (sample_world 0 None), envelope.
      eexists. split; [reflexivity|]. split; [exact He | reflexivity].
    + cbn in Hm. discriminate.
Defined.

(** ** The command-line encoder *)

(** X8.  The script without both answers.  When the password or the key
    entered is empty, the script prints its banner and its two prompts,
    writes [Error: Both password and encryption key are required] to the
    error stream, closes the reader and exits with code 1; it draws no
    random bytes and derives no key. *)
Theorem encryptPassword_requires_both_inputs
    {P : Primitives} (password encryptionKey : jsstring) (w : World) :
  password = [] \/ encryptionKey = [] ->
  fst (encryptPassword password encryptionKey w) = Ok tt /\
  trace (snd (encryptPassword password encryptionKey w))
  = trace w
    ++ [Stdout (js "=== Password Encryption Utility ===" ++ NEWLINE);
        Stdout (js "Enter password to encrypt: ");
        Stdout (js "Enter encryption key (store in ENCRYPTION_KEY env var): ");
        Stderr (NEWLINE ++ js "Error: Both password and encryption key are required");
        ReadlineClose;
        ProcessExit 1] /\
  drawn (snd (encryptPassword password encryptionKey w)) = drawn w.
Proof.
  intros H.
  assert (E : empty_string password || empty_string encryptionKey = true).
  { destruct H as [-> | ->]; [reflexivity|]. apply orb_true_r. }
  unfold encryptPassword, bind, console_log, console_error, question, emit.
  rewrite E. cbn [fst snd]. unfold record. cbn [trace drawn].
  rewrite <- !app_assoc. cbn [app].
  split; [reflexivity|]. split; reflexivity.
Qed.

Lemma encryptPassword_requires_both_inputs_witness :
  fst (@encryptPassword stub_primitives (js "Automation@Tester@1990") [] (sample_world 0 None))
  = Ok tt /\
  trace (snd (@encryptPassword stub_primitives (js "Automation@Tester@1990") []
                (sample_world 0 None)))
  = trace (sample_world 0 None)
    ++ [Stdout (js "=== Password Encryption Utility ===" ++ NEWLINE);
        Stdout (js "Enter password to encrypt: ");
        Stdout (js "Enter encryption key (store in ENCRYPTION_KEY env var): ");
        Stderr (NEWLINE ++ js "Error: Both password and encryption key are required");
        ReadlineClose;
        ProcessExit 1] /\
  drawn (snd (@encryptPassword stub_primitives (js "Automation@Tester@1990") []
                (sample_world 0 None)))
  = drawn (sample_world 0 None).
Proof.
  apply (@encryptPassword_requires_both_inputs stub_primitives). right. reflexivity.
Defined.

(** X9.  From the script to the loader.  Run on a well-formed non-empty
    password and a non-empty key, the script prints the configuration
    line for an envelope; and a document in which one entry has the
    marker followed by that envelope as its password, and no other entry
    a marked password, loads under that key with the password of the
    entry replaced by the password that was entered. *)
Theorem encryptPassword_then_readJsonFile
    {P : Primitives} {L : PrimitiveLaws P} {J : Parser}
    (password k : jsstring) (w : World) :
  isWellFormed password = true -> password <> [] -> k <> [] ->
  exists envelope,
    In (Stdout (config_line envelope)) (trace (snd (encryptPassword password k w))) /\
    forall (path raw : jsstring) (before : list (jsstring * json)) (env : jsstring)
           (entry : json) (after : list (jsstring * json)) (w' : World),
      files w' path = Some raw ->
      JSON_parse raw = Ok (JObject (before ++ (env, entry) :: after)) ->
      ENCRYPTION_KEY w' = Some k ->
      (forall env1 entry1, In (env1, entry1) (before ++ after) -> marked_password entry1 = None) ->
      marked_password entry = Some (js "encrypted:" ++ envelope) ->
      exists entry',
        fst (readJsonFile path w') = Ok (JObject (before ++ (env, entry') :: after)) /\
        password_replaced (JString password) entry entry'.
Proof.
  intros Hwf Hp Hk. exists (base64_encode (sealed password k w)). split.
  - rewrite (encryptPassword_run password k w Hp Hk).
    cbn [snd trace record consume].
    apply in_or_app. left. apply in_or_app. left. apply in_or_app. left.
    apply in_or_app. left. apply in_or_app. right. left. reflexivity.
  - intros path raw before env entry after w' Hf Hj Hkey Hu Hm.
    exists (set_password entry (JString password)). split.
    + rewrite (readJsonFile_run path raw _ w' Hf Hj).
      cbn [truthy typeof_object andb own_entries]. rewrite Hkey.
      rewrite forEach_env_app.
      rewrite (forEach_env_unmarked (Some k) before w')
        by (intros env1 entry1 Hin; apply (Hu env1), in_or_app; left; exact Hin).
      cbn [forEach_env]. unfold bind, ret.
      rewrite (visit_env_marked (Some k) env entry _ w' Hm).
      rewrite (key_missing_nonempty k Hk), substring_marker.
      pose proof (decrypt_sealed password k w w') as Hd.
      rewrite (utf8_roundtrip password Hwf) in Hd.
      destruct (decrypt (base64_encode (sealed password k w)) k w') as [r w1].
      cbn [fst] in Hd. subst r.
      rewrite (forEach_env_unmarked (Some k) after w1)
        by (intros env1 entry1 Hin; apply (Hu env1), in_or_app; right; exact Hin).
      reflexivity.
    + apply (set_password_replaced entry _ (JString password) Hm).
Qed.

Lemma encryptPassword_then_readJsonFile_witness :
  let k := js "correct-horse-battery-staple" in
  let password := js "Automation@Tester@1990" in
  let J :=
    stub_parser
      (Ok (JObject [(js "QA",
                     JObject [(js "credentials",
                               JObject [(js "password",
                                         JString (js "encrypted:"
                                                  ++ base64_encode
                                                       (@sealed stub_primitives password k
                                                          (sample_world 0 None))))])])])) in
  exists envelope,
    In (Stdout (config_line envelope))
       (trace (snd (@encryptPassword stub_primitives password k (sample_world 0 None)))) /\
    forall (path raw : jsstring) (before : list (jsstring * json)) (env : jsstring)
           (entry : json) (after : list (jsstring * json)) (w' : World),
      files w' path = Some raw ->
      @JSON_parse J raw = Ok (JObject (before ++ (env, entry) :: after)) ->
      ENCRYPTION_KEY w' = Some k ->
      (forall env1 entry1, In (env1, entry1) (before ++ after) -> marked_password entry1 = None) ->
      marked_password entry = Some (js "encrypted:" ++ envelope) ->
      exists entry',
        fst (@readJsonFile stub_primitives J path w')
        = Ok (JObject (before ++ (env, entry') :: after)) /\
        password_replaced (JString password) entry entry'.
Proof.
  intros k password J.
  apply (@encryptPassword_then_readJsonFile stub_primitives stub_laws J password k
           (sample_world 0 None)).
  - reflexivity.
  - discriminate.
  - discriminate.
Defined.

(* ================================================================== *)
(** * Part VII.  The screenshot file name                               *)
(* ================================================================== *)

(** ** Dates and the screenshot file name *)

Module DateFacts.
Import Date.
Local Open Scope Z_scope.

Lemma YearFromTime_spec (t : Z) :
  DayFromYear (YearFromTime t) <= Day t < DayFromYear (YearFromTime t + 1).
Proof.
  unfold YearFromTime. cbv zeta. generalize (Day t) as d. intros d.
  destruct (Z.leb_spec (DayFromYear (1970 + 400 * d / 146097 + 1)) d) as [H1|H1].
  - split; [exact H1|]. unfold DayFromYear in *. lia.
  - destruct (Z.leb_spec (DayFromYear (1970 + 400 * d / 146097)) d) as [H2|H2].
    + split; assumption.
    + replace (1970 + 400 * d / 146097 - 1 + 1) with (1970 + 400 * d / 146097) by lia.
      split; [|exact H2]. unfold DayFromYear in *. lia.
Qed.

Lemma DaysInYear_DayFromYear (y : Z) : DaysInYear y = DayFromYear (y + 1) - DayFromYear y.
Proof.
  unfold DaysInYear, DayFromYear.
  destruct (Z.eqb_spec (y mod 4) 0); cbn [negb];
    [destruct (Z.eqb_spec (y mod 100) 0); cbn [negb];
     [destruct (Z.eqb_spec (y mod 400) 0); cbn [negb]|]|]; lia.
Qed.

Lemma InLeapYear_range (t : Z) : InLeapYear t = 0 \/ InLeapYear t = 1.
Proof. unfold InLeapYear. destruct (_ =? _); [right|left]; reflexivity. Qed.

Lemma DaysInYear_cases (y : Z) : DaysInYear y = 365 \/ DaysInYear y = 366.
Proof.
  unfold DaysInYear.
  repeat match goal with |- context [if ?b then _ else _] => destruct b end; auto.
Qed.

Lemma DayWithinYear_range (t : Z) : 0 <= DayWithinYear t < 365 + InLeapYear t.
Proof.
  pose proof (YearFromTime_spec t) as H. unfold DayWithinYear, InLeapYear.
  pose proof (DaysInYear_DayFromYear (YearFromTime t)) as E.
  destruct (DaysInYear_cases (YearFromTime t)) as [D|D]; rewrite D in *; cbn; lia.
Qed.

Ltac month_cases :=
  repeat match goal with
  | |- context [Z.ltb ?a ?b] => destruct (Z.ltb_spec a b)
  | H : context [Z.ltb ?a ?b] |- _ => destruct (Z.ltb_spec a b)
  end.

Lemma MonthFromTime_range (t : Z) : 0 <= MonthFromTime t <= 11.
Proof. unfold MonthFromTime. cbv zeta. month_cases; lia. Qed.

Lemma DateFromTime_range (t : Z) : 1 <= DateFromTime t <= 31.
Proof.
  pose proof (DayWithinYear_range t) as Hd. pose proof (InLeapYear_range t) as Hl.
  unfold DateFromTime, MonthFromTime. cbv zeta.
  generalize dependent (DayWithinYear t). generalize dependent (InLeapYear t).
  intros leap Hl d Hd. month_cases; lia.
Qed.

Lemma HourFromTime_range (t : Z) : 0 <= HourFromTime t < 24.
Proof. unfold HourFromTime. lia. Qed.
Lemma MinFromTime_range (t : Z) : 0 <= MinFromTime t < 60.
Proof. unfold MinFromTime. lia. Qed.
Lemma SecFromTime_range (t : Z) : 0 <= SecFromTime t < 60.
Proof. unfold SecFromTime. lia. Qed.

(** The day is the year's first day plus the days of the months before
    and the day of the month. *)

Lemma Day_of_fields (t : Z) :
  Day t = DayFromYear (YearFromTime t)
          + days_before_month (MonthFromTime t) (InLeapYear t) + DateFromTime t - 1.
Proof.
  unfold DateFromTime, MonthFromTime, DayWithinYear. cbv zeta.
  generalize (InLeapYear t) as leap. intros leap.
  month_cases; cbn [days_before_month]; lia.
Qed.

Lemma seconds_of_fields (t : Z) :
  t / 1000 = Day t * 86400 + HourFromTime t * 3600 + MinFromTime t * 60 + SecFromTime t.
Proof. unfold Day, msPerDay, HourFromTime, MinFromTime, SecFromTime. lia. Qed.

Lemma Day_of_second (t : Z) : Day t = t / 1000 / 86400.
Proof. unfold Day, msPerDay. lia. Qed.

End DateFacts.

Section FileName.
Import Date DateFacts.
Open Scope Z_scope.

Lemma length_padded (width : nat) (n : Z) : length (padded width n) = width.
Proof.
  revert n. induction width as [|width IH]; intros n; [reflexivity|].
  cbn [padded]. rewrite length_app, IH. cbn. lia.
Qed.

Lemma padded_digits (width : nat) (n : Z) : forallb is_digit (padded width n) = true.
Proof.
  revert n. induction width as [|width IH]; intros n; [reflexivity|].
  cbn [padded]. rewrite forallb_app, IH. cbn [forallb andb].
  unfold is_digit, in_range.
  assert (0 <= n mod 10 < 10) by lia.
  destruct (N.leb_spec 48 (48 + Z.to_N (n mod 10))); [|lia].
  destruct (N.leb_spec (48 + Z.to_N (n mod 10)) 57); [reflexivity|lia].
Qed.

Lemma padded_injective (width : nat) (n m : Z) :
  0 <= n < 10 ^ Z.of_nat width -> 0 <= m < 10 ^ Z.of_nat width ->
  padded width n = padded width m -> n = m.
Proof.
  revert n m. induction width as [|width IH]; intros n m Hn Hm E.
  - cbn in Hn, Hm. lia.
  - rewrite Nat2Z.inj_succ, Z.pow_succ_r in Hn, Hm by lia.
    cbn [padded] in E. apply app_inj_tail in E. destruct E as [E1 E2].
    apply IH in E1; [|lia|lia].
    assert (0 <= n mod 10 < 10) by lia. assert (0 <= m mod 10 < 10) by lia.
    assert (n mod 10 = m mod 10) by lia. lia.
Qed.

Lemma digits_plain (s : jsstring) : forallb is_digit s = true -> plain s = true.
Proof.
  unfold plain. induction s as [|c s IH]; [reflexivity|].
  cbn [forallb]. intros H. apply andb_true_iff in H. destruct H as [Hc Hs].
  rewrite (IH Hs), andb_true_r. unfold is_digit, in_range, COLON, FULL_STOP in *.
  apply andb_true_iff in Hc. destruct Hc as [H1 H2].
  apply N.leb_le in H1, H2.
  destruct (N.eqb_spec c 58); [lia|]. destruct (N.eqb_spec c 46); [lia|]. reflexivity.
Qed.

Lemma plain_app (s t : jsstring) : plain (s ++ t) = plain s && plain t.
Proof. apply forallb_app. Qed.

Lemma padded_plain (width : nat) (n : Z) : plain (padded width n) = true.
Proof. apply digits_plain, padded_digits. Qed.

Lemma year_string_plain (y : Z) : plain (year_string y) = true.
Proof.
  unfold year_string.
  destruct ((0 <=? y) && (y <=? 9999)); [apply padded_plain|].
  destruct (y <? 0); rewrite plain_app, padded_plain; reflexivity.
Qed.

Lemma replace_all_plain (s : jsstring) :
  plain s = true -> replace_all COLON HYPHEN s = s.
Proof.
  unfold plain, replace_all. induction s as [|c s IH]; [reflexivity|].
  cbn [forallb map]. intros H. apply andb_true_iff in H. destruct H as [Hc Hs].
  rewrite (IH Hs). apply andb_true_iff in Hc. destruct Hc as [Hc _].
  destruct (c =? COLON)%N; [discriminate|reflexivity].
Qed.

Lemma replace_all_app (c d : N) (s t : jsstring) :
  replace_all c d (s ++ t) = replace_all c d s ++ replace_all c d t.
Proof. apply map_app. Qed.

Lemma split_nonempty (sep : N) (s : jsstring) : split sep s <> [].
Proof.
  destruct s as [|c s]; cbn [split]; [discriminate|].
  destruct (c =? sep)%N; [discriminate|]. destruct (split sep s); discriminate.
Qed.

(** The first piece is what stands before the first separator. *)
Lemma split_first (s rest : jsstring) :
  forallb (fun c => negb (c =? FULL_STOP)%N) s = true ->
  hd [] (split FULL_STOP (s ++ FULL_STOP :: rest)) = s.
Proof.
  induction s as [|c s IH]; intros H.
  - cbn [app split]. rewrite N.eqb_refl. reflexivity.
  - cbn [forallb] in H. apply andb_true_iff in H. destruct H as [Hc Hs].
    cbn [app split]. destruct (c =? FULL_STOP)%N; [discriminate|].
    specialize (IH Hs).
    destruct (split FULL_STOP (s ++ FULL_STOP :: rest)) as [|piece pieces] eqn:E.
    + exfalso. exact (split_nonempty _ _ E).
    + cbn [hd] in *. rewrite IH. reflexivity.
Qed.

Lemma plain_no_full_stop (s : jsstring) :
  plain s = true -> forallb (fun c => negb (c =? FULL_STOP)%N) s = true.
Proof.
  unfold plain. induction s as [|c s IH]; [reflexivity|].
  cbn [forallb]. intros H. apply andb_true_iff in H. destruct H as [Hc Hs].
  apply andb_true_iff in Hc. destruct Hc as [_ Hc]. rewrite Hc, (IH Hs). reflexivity.
Qed.

Lemma generateScreenshotFilename_stamp (now : Z) :
  generateScreenshotFilename now = js "screenshot-" ++ stamp now ++ js ".png".
Proof.
  unfold generateScreenshotFilename. cbv zeta. f_equal. f_equal.
  unfold toISOString.
  set (y := year_string (YearFromTime now)).
  set (mo := padded 2 (MonthFromTime now + 1)). set (d := padded 2 (DateFromTime now)).
  set (h := padded 2 (HourFromTime now)). set (mi := padded 2 (MinFromTime now)).
  set (s := padded 2 (SecFromTime now)).
  replace (y ++ js "-" ++ mo ++ js "-" ++ d ++ js "T" ++ h ++ js ":" ++ mi ++ js ":" ++ s
           ++ js "." ++ padded 3 (msFromTime now) ++ js "Z")
    with ((y ++ js "-" ++ mo ++ js "-" ++ d ++ js "T" ++ h ++ js ":" ++ mi ++ js ":" ++ s)
          ++ FULL_STOP :: padded 3 (msFromTime now) ++ js "Z")
    by (rewrite <- !app_assoc; reflexivity).
  rewrite replace_all_app.
  assert (Hy : plain y = true) by apply year_string_plain.
  assert (Hmo : plain mo = true) by apply padded_plain.
  assert (Hd : plain d = true) by apply padded_plain.
  assert (Hh : plain h = true) by apply padded_plain.
  assert (Hmi : plain mi = true) by apply padded_plain.
  assert (Hs : plain s = true) by apply padded_plain.
  assert (E : replace_all COLON HYPHEN
                (y ++ js "-" ++ mo ++ js "-" ++ d ++ js "T" ++ h ++ js ":" ++ mi ++ js ":" ++ s)
              = y ++ js "-" ++ mo ++ js "-" ++ d ++ js "T" ++ h ++ js "-" ++ mi ++ js "-" ++ s).
  { rewrite !replace_all_app.
    rewrite (replace_all_plain y Hy), (replace_all_plain mo Hmo), (replace_all_plain d Hd),
      (replace_all_plain h Hh), (replace_all_plain mi Hmi), (replace_all_plain s Hs).
    reflexivity. }
  rewrite E.
  change (replace_all COLON HYPHEN (FULL_STOP :: padded 3 (msFromTime now) ++ js "Z"))
    with (FULL_STOP :: replace_all COLON HYPHEN (padded 3 (msFromTime now) ++ js "Z")).
  unfold stamp. fold y mo d h mi s.
  apply split_first. apply plain_no_full_stop.
  rewrite !plain_app, Hy, Hmo, Hd, Hh, Hmi, Hs. reflexivity.
Qed.

End FileName.

Section FileNameProperties.
Import Date DateFacts.
Open Scope Z_scope.

Lemma YearFromTime_four_digits (now : Z) :
  -62167219200000 <= now <= 253402300799999 -> 0 <= YearFromTime now <= 9999.
Proof.
  intros H. pose proof (YearFromTime_spec now) as Hy.
  assert (Hd : -719528 <= Day now <= 2932896) by (unfold Day, msPerDay; lia).
  unfold DayFromYear in Hy. lia.
Qed.

Lemma year_string_four_digits (y : Z) : 0 <= y <= 9999 -> year_string y = padded 4 y.
Proof.
  intros H. unfold year_string.
  destruct (Z.leb_spec 0 y); [|lia]. destruct (Z.leb_spec y 9999); [|lia]. reflexivity.
Qed.

Lemma app_eq_by_length {A} (a a' b b' : list A) :
  length a = length a' -> a ++ b = a' ++ b' -> a = a' /\ b = b'.
Proof.
  revert a'. induction a as [|x a IH]; intros [|x' a'] Hl E; try discriminate.
  - split; [reflexivity | exact E].
  - injection E as -> E. injection Hl as Hl.
    destruct (IH a' Hl E) as [-> ->]. split; reflexivity.
Qed.

Lemma stamp_injective (t1 t2 : Z) :
  0 <= YearFromTime t1 <= 9999 -> 0 <= YearFromTime t2 <= 9999 ->
  stamp t1 = stamp t2 -> t1 / 1000 = t2 / 1000.
Proof.
  intros H1 H2 E. unfold stamp in E.
  rewrite (year_string_four_digits _ H1), (year_string_four_digits _ H2) in E.
  apply app_eq_by_length in E; [|rewrite !length_padded; reflexivity].
  destruct E as [Ey E]. apply app_inv_head in E.
  apply app_eq_by_length in E; [|rewrite !length_padded; reflexivity].
  destruct E as [Emo E]. apply app_inv_head in E.
  apply app_eq_by_length in E; [|rewrite !length_padded; reflexivity].
  destruct E as [Ed E]. apply app_inv_head in E.
  apply app_eq_by_length in E; [|rewrite !length_padded; reflexivity].
  destruct E as [Eh E]. apply app_inv_head in E.
  apply app_eq_by_length in E; [|rewrite !length_padded; reflexivity].
  destruct E as [Emi Es]. apply app_inv_head in Es.
  pose proof (MonthFromTime_range t1). pose proof (MonthFromTime_range t2).
  pose proof (DateFromTime_range t1). pose proof (DateFromTime_range t2).
  pose proof (HourFromTime_range t1). pose proof (HourFromTime_range t2).
  pose proof (MinFromTime_range t1). pose proof (MinFromTime_range t2).
  pose proof (SecFromTime_range t1). pose proof (SecFromTime_range t2).
  apply padded_injective in Ey; [|cbn; lia|cbn; lia].
  apply padded_injective in Emo; [|cbn; lia|cbn; lia].
  apply padded_injective in Ed; [|cbn; lia|cbn; lia].
  apply padded_injective in Eh; [|cbn; lia|cbn; lia].
  apply padded_injective in Emi; [|cbn; lia|cbn; lia].
  apply padded_injective in Es; [|cbn; lia|cbn; lia].
  assert (El : InLeapYear t1 = InLeapYear t2) by (unfold InLeapYear; rewrite Ey; reflexivity).
  assert (Em : MonthFromTime t1 = MonthFromTime t2) by lia.
  rewrite (seconds_of_fields t1), (seconds_of_fields t2).
  rewrite (Day_of_fields t1), (Day_of_fields t2).
  rewrite Ey, Em, El, Ed, Eh, Emi, Es. reflexivity.
Qed.

Lemma stamp_of_second (t1 t2 : Z) : t1 / 1000 = t2 / 1000 -> stamp t1 = stamp t2.
Proof.
  intros E.
  assert (Ed : Day t1 = Day t2) by (rewrite !Day_of_second, E; reflexivity).
  assert (Ey : YearFromTime t1 = YearFromTime t2)
    by (unfold YearFromTime; rewrite Ed; reflexivity).
  assert (El : InLeapYear t1 = InLeapYear t2)
    by (unfold InLeapYear; rewrite Ey; reflexivity).
  assert (Ew : DayWithinYear t1 = DayWithinYear t2)
    by (unfold DayWithinYear; rewrite Ed, Ey; reflexivity).
  assert (Em : MonthFromTime t1 = MonthFromTime t2)
    by (unfold MonthFromTime; rewrite Ew, El; reflexivity).
  assert (Eda : DateFromTime t1 = DateFromTime t2)
    by (unfold DateFromTime; rewrite Ew, El, Em; reflexivity).
  assert (Eh : HourFromTime t1 = HourFromTime t2) by (unfold HourFromTime; lia).
  assert (Emi : MinFromTime t1 = MinFromTime t2) by (unfold MinFromTime; lia).
  assert (Es : SecFromTime t1 = SecFromTime t2) by (unfold SecFromTime; lia).
  unfold stamp. rewrite Ey, Em, Eda, Eh, Emi, Es. reflexivity.
Qed.

End FileNameProperties.

(** X10.  The format of the file name.  For a clock reading in the years
    0000 to 9999, [generateScreenshotFilename] returns
    [screenshot-YYYY-MM-DDTHH-MM-SS.png]: the year, month, day, hour,
    minute and second of the reading in UTC, each a number of the
    calendar or the clock in zero-padded decimal digits; 34 characters,
    none of them a colon. *)
Theorem generateScreenshotFilename_format (now : Z) :
  (-62167219200000 <= now <= 253402300799999)%Z ->
  generateScreenshotFilename now
  = js "screenshot-" ++ Date.padded 4 (Date.YearFromTime now)
    ++ js "-" ++ Date.padded 2 (Date.MonthFromTime now + 1)
    ++ js "-" ++ Date.padded 2 (Date.DateFromTime now)
    ++ js "T" ++ Date.padded 2 (Date.HourFromTime now)
    ++ js "-" ++ Date.padded 2 (Date.MinFromTime now)
    ++ js "-" ++ Date.padded 2 (Date.SecFromTime now) ++ js ".png" /\
  (0 <= Date.YearFromTime now <= 9999 /\ 1 <= Date.MonthFromTime now + 1 <= 12 /\
   1 <= Date.DateFromTime now <= 31 /\ 0 <= Date.HourFromTime now < 24 /\
   0 <= Date.MinFromTime now < 60 /\ 0 <= Date.SecFromTime now < 60)%Z /\
  length (generateScreenshotFilename now) = 34%nat /\
  forallb (fun c => negb (c =? COLON)%N) (generateScreenshotFilename now) = true.
Proof.
  intros H. pose proof (YearFromTime_four_digits now H) as Hy.
  assert (E : generateScreenshotFilename now
              = js "screenshot-" ++ Date.padded 4 (Date.YearFromTime now)
                ++ js "-" ++ Date.padded 2 (Date.MonthFromTime now + 1)
                ++ js "-" ++ Date.padded 2 (Date.DateFromTime now)
                ++ js "T" ++ Date.padded 2 (Date.HourFromTime now)
                ++ js "-" ++ Date.padded 2 (Date.MinFromTime now)
                ++ js "-" ++ Date.padded 2 (Date.SecFromTime now) ++ js ".png").
  { rewrite generateScreenshotFilename_stamp. unfold stamp.
    rewrite (year_string_four_digits _ Hy). rewrite <- !app_assoc. reflexivity. }
  split; [exact E|]. split.
  - pose proof (DateFacts.MonthFromTime_range now).
    pose proof (DateFacts.DateFromTime_range now).
    pose proof (DateFacts.HourFromTime_range now).
    pose proof (DateFacts.MinFromTime_range now).
    pose proof (DateFacts.SecFromTime_range now). lia.
  - rewrite E. split.
    + rewrite !length_app, !length_padded. reflexivity.
    + rewrite !forallb_app.
      assert (D : forall width n,
                 forallb (fun c => negb (c =? COLON)%N) (Date.padded width n) = true).
      { intros width n. pose proof (padded_plain width n) as Hp. unfold plain in Hp.
        induction (Date.padded width n) as [|c s IH]; [reflexivity|].
        cbn [forallb] in *. apply andb_true_iff in Hp. destruct Hp as [Hc Hs].
        apply andb_true_iff in Hc. destruct Hc as [Hc _]. rewrite Hc, (IH Hs). reflexivity. }
      rewrite !D. reflexivity.
Qed.

Lemma generateScreenshotFilename_format_witness :
  generateScreenshotFilename 1762128000123
  = js "screenshot-" ++ Date.padded 4 (Date.YearFromTime 1762128000123)
    ++ js "-" ++ Date.padded 2 (Date.MonthFromTime 1762128000123 + 1)
    ++ js "-" ++ Date.padded 2 (Date.DateFromTime 1762128000123)
    ++ js "T" ++ Date.padded 2 (Date.HourFromTime 1762128000123)
    ++ js "-" ++ Date.padded 2 (Date.MinFromTime 1762128000123)
    ++ js "-" ++ Date.padded 2 (Date.SecFromTime 1762128000123) ++ js ".png" /\
  (0 <= Date.YearFromTime 1762128000123 <= 9999 /\
   1 <= Date.MonthFromTime 1762128000123 + 1 <= 12 /\
   1 <= Date.DateFromTime 1762128000123 <= 31 /\
   0 <= Date.HourFromTime 1762128000123 < 24 /\
   0 <= Date.MinFromTime 1762128000123 < 60 /\
   0 <= Date.SecFromTime 1762128000123 < 60)%Z /\
  length (generateScreenshotFilename 1762128000123) = 34%nat /\
  forallb (fun c => negb (c =? COLON)%N) (generateScreenshotFilename 1762128000123) = true.
Proof. apply generateScreenshotFilename_format. lia. Defined.

(** X11.  One name for each second.  Two clock readings in the years 0000
    to 9999 give the same file name exactly when they fall in the same
    second: the names of different seconds differ, and two screenshots
    taken within one second have the same name. *)
Theorem generateScreenshotFilename_one_name_per_second (now1 now2 : Z) :
  (-62167219200000 <= now1 <= 253402300799999)%Z ->
  (-62167219200000 <= now2 <= 253402300799999)%Z ->
  generateScreenshotFilename now1 = generateScreenshotFilename now2
  <-> (now1 / 1000 = now2 / 1000)%Z.
Proof.
  intros H1 H2. rewrite !generateScreenshotFilename_stamp. split.
  - intros E. apply app_inv_head in E. apply app_inv_tail in E.
    apply stamp_injective; [apply YearFromTime_four_digits, H1
                           |apply YearFromTime_four_digits, H2|exact E].
  - intros E. rewrite (stamp_of_second now1 now2 E). reflexivity.
Qed.

Lemma generateScreenshotFilename_one_name_per_second_witness :
  generateScreenshotFilename 1762128000123 = generateScreenshotFilename 1762128000999
  <-> (1762128000123 / 1000 = 1762128000999 / 1000)%Z.
Proof. apply generateScreenshotFilename_one_name_per_second; lia. Defined.

(* ================================================================== *)
(** * Part VIII.  The page objects and the authentication set-up        *)
(* ================================================================== *)

(** ** Sessions and runs *)

Lemma extend_nil (s : Session) : extend [] s = s.
Proof. destruct s as [b h c d]. unfold extend. cbn. rewrite app_nil_r. reflexivity. Qed.

Lemma extend_extend (new1 new2 : list step) (s : Session) :
  extend new2 (extend new1 s) = extend (new1 ++ new2) s.
Proof. unfold extend. cbn. rewrite app_assoc. reflexivity. Qed.

Lemma after_extend (x : step) (s : Session) : after x s = extend [x] s.
Proof. reflexivity. Qed.

Lemma steps_with_path (new1 new2 : list step) (path : jsstring) (s : Session) :
  steps (extend new2 (with_path path (extend new1 s))) = steps s ++ new1 ++ new2.
Proof. cbn [steps extend with_path]. now rewrite app_assoc. Qed.

Lemma requests_app (l1 l2 : list step) : requests (l1 ++ l2) = requests l1 ++ requests l2.
Proof.
  induction l1 as [|[r|t] l1 IH]; cbn [app requests]; rewrite ?IH; reflexivity.
Qed.

Lemma lines_app (l1 l2 : list step) : lines (l1 ++ l2) = lines l1 ++ lines l2.
Proof.
  induction l1 as [|[r|t] l1 IH]; cbn [app lines]; rewrite ?IH; reflexivity.
Qed.

(** Running a request: one step more, whatever the answer. *)
Lemma perform_run (r : request) (s : Session) :
  perform r s
  = (match rejects (browser s) (steps s) r with
     | None => Ok tt
     | Some error => Throw error
     end, extend [did r] s).
Proof. unfold perform. destruct (rejects _ _ _); reflexivity. Qed.

Lemma log_run (text : jsstring) (s : Session) : log text s = (Ok tt, extend [logged text] s).
Proof. reflexivity. Qed.

Section SkipAds.
Import YouTubePage.

Lemma no_more_ads_run (adCount : nat) (s : Session) :
  exists text, no_more_ads adCount s = (Ok tt, extend [logged text] s).
Proof. unfold no_more_ads. destruct (adCount =? 0)%nat; eexists; apply log_run. Qed.

Lemma skipAds_loop_run (fuel adCount : nat) (s : Session) :
  (adCount <= maxAds)%nat ->
  exists new n,
    skipAds_loop fuel adCount s = (Ok n, extend new s) /\
    Forall skip_ad_request (requests new) /\
    (adCount + length (filter is_click (requests new)) <= maxAds)%nat /\
    (length (requests new) <= 2 * (maxAds - adCount))%nat /\
    (n <= maxAds)%nat.
Proof.
  revert adCount s. induction fuel as [|fuel IH]; intros adCount s Hle.
  - exists [], adCount. rewrite extend_nil. cbn [skipAds_loop requests filter length].
    split; [reflexivity|]. split; [constructor|]. unfold maxAds in *; lia.
  - cbn [skipAds_loop]. destruct (Nat.ltb_spec adCount maxAds) as [Hlt|Hge].
    + unfold await at 1. unfold settled at 1. unfold waitFor. rewrite perform_run.
      destruct (rejects (browser s) (steps s) (locator_waitFor skipAdButton (js "visible") 10000)).
      * unfold await. destruct (no_more_ads_run adCount (extend [did (locator_waitFor skipAdButton (js "visible") 10000)] s)) as [text E].
        rewrite E. unfold resolve. rewrite extend_extend.
        eexists. exists adCount. split; [reflexivity|].
        cbn [requests app filter is_click length]. split; [constructor; [left; reflexivity|constructor]|]. unfold maxAds in *; lia.
      * unfold await at 1. rewrite log_run. rewrite extend_extend.
        unfold await at 1. unfold settled at 1. unfold click. rewrite perform_run.
        rewrite extend_extend. cbn [steps extend browser].
        match goal with |- context [rejects ?b ?h ?r] => destruct (rejects b h r) end.
        -- unfold await.
           match goal with |- context [no_more_ads ?n ?s0] =>
             destruct (no_more_ads_run n s0) as [text E] end.
           rewrite E. unfold resolve. rewrite extend_extend.
           eexists. exists (S adCount). split; [reflexivity|].
           cbn [requests app filter is_click length]. split; [constructor; [left; reflexivity|]; constructor; [right; reflexivity|constructor]|]. unfold maxAds in *; lia.
        -- unfold await at 1. rewrite log_run. rewrite extend_extend.
           match goal with |- context [skipAds_loop fuel (S adCount) ?s0] =>
             destruct (IH (S adCount) s0) as (new & n & E & HF & Hc & Hr & Hn); [unfold maxAds in *; lia|] end.
           rewrite E. rewrite extend_extend.
           eexists. exists n. split; [reflexivity|].
           rewrite !requests_app. cbn [requests app].
           split.
           ++ constructor; [left; reflexivity|]. constructor; [right; reflexivity|]. exact HF.
           ++ cbn [filter is_click length]. unfold maxAds in *; lia.
    + exists [], adCount. rewrite extend_nil. unfold resolve.
      split; [reflexivity|]. split; [constructor|]. cbn [requests filter length]. unfold maxAds in *; lia.
Qed.

Lemma skipAds_loop_fuel (fuel adCount : nat) (s : Session) :
  (maxAds - adCount <= fuel)%nat ->
  skipAds_loop fuel adCount s = skipAds_loop (maxAds - adCount) adCount s.
Proof.
  revert adCount s. induction fuel as [|fuel IH]; intros adCount s H.
  - replace (maxAds - adCount)%nat with 0%nat by lia. reflexivity.
  - destruct (Nat.ltb_spec adCount maxAds) as [Hlt|Hge].
    + replace (maxAds - adCount)%nat with (S (maxAds - S adCount)) by lia.
      cbn [skipAds_loop]. destruct (Nat.ltb_spec adCount maxAds); [|lia].
      unfold await, settled. 
      destruct (waitFor skipAdButton (js "visible") 10000 s) as [[[]|e] s1]; [|reflexivity].
      destruct (log _ s1) as [[[]|e] s2]; [|reflexivity].
      destruct (click skipAdButton s2) as [[[]|e] s3]; [|reflexivity].
      destruct (log _ s3) as [[[]|e] s4]; [|reflexivity].
      apply IH. lia.
    + replace (maxAds - adCount)%nat with 0%nat by lia.
      cbn [skipAds_loop]. destruct (Nat.ltb_spec adCount maxAds); [lia|]. reflexivity.
Qed.

End SkipAds.

(** X12.  [skipAds] never rejects and skips five ads at most.  It
    resolves in every browser; its first line on the console is
    [Checking for ads...] and its last the check mark and
    [Ad handling complete]; all it asks of the page is to wait for the
    skip button and to click it, with five clicks and ten requests at
    most.  The loop ends by its condition or its [break], not for want of
    fuel: more fuel gives the same run. *)
Theorem skipAds_skips_at_most_five_ads (s : Session) :
  (exists new,
     YouTubePage.skipAds s = (Ok tt, extend new s) /\
     hd_error new = Some (logged (js "Checking for ads...")) /\
     last new (logged []) = logged (CHECK_MARK ++ js " Ad handling complete") /\
     Forall skip_ad_request (requests new) /\
     (length (filter is_click (requests new)) <= 5)%nat /\
     (length (requests new) <= 10)%nat) /\
  (forall fuel,
     (YouTubePage.maxAds <= fuel)%nat ->
     YouTubePage.skipAds_loop fuel 0 s = YouTubePage.skipAds_loop YouTubePage.maxAds 0 s).
Proof.
  split.
  - unfold YouTubePage.skipAds, try_await, await. rewrite log_run.
    destruct (skipAds_loop_run YouTubePage.maxAds 0 (extend [logged (js "Checking for ads...")] s))
      as (new & n & E & HF & Hc & Hr & Hn); [unfold YouTubePage.maxAds; lia|].
    rewrite E. rewrite extend_extend.
    destruct (YouTubePage.maxAds <=? n)%nat.
    + rewrite log_run, extend_extend, log_run, extend_extend.
      eexists. split; [reflexivity|].
      split; [reflexivity|].
      split; [rewrite app_assoc; apply last_last|].
      rewrite !requests_app. cbn [requests app]. rewrite !app_nil_r.
      split; [exact HF|]. unfold YouTubePage.maxAds in *. lia.
    + unfold resolve. rewrite log_run, extend_extend.
      eexists. split; [reflexivity|].
      split; [reflexivity|].
      split; [apply last_last|].
      rewrite !requests_app. cbn [requests app]. rewrite !app_nil_r.
      split; [exact HF|]. unfold YouTubePage.maxAds in *. lia.
  - intros fuel Hf. apply (skipAds_loop_fuel fuel 0 s). lia.
Qed.

Lemma browser_extend (new : list step) (s : Session) : browser (extend new s) = browser s.
Proof. reflexivity. Qed.

Lemma steps_extend (new : list step) (s : Session) : steps (extend new s) = steps s ++ new.
Proof. reflexivity. Qed.

(** One step of a run: the next line on the console, or the next call
    on the page, which is rejected or not. *)
Ltac log_step :=
  cbv beta iota;
  match goal with
  | |- context [log ?t ?s] => rewrite (log_run t s)
  end;
  cbv beta iota; rewrite ?extend_extend.

Ltac perform_step :=
  cbv beta iota;
  match goal with
  | |- context [perform ?r ?s] =>
    rewrite (perform_run r s); rewrite ?browser_extend;
    let E := fresh "E" in
    destruct (rejects (browser _) (steps s) r) eqn:E
  end;
  cbv beta iota; rewrite ?extend_extend.

Ltac async_unfold :=
  unfold waitFor, click, fill, goto, waitForLoadState, waitForTimeout, waitForURL,
    storageState, screenshot, written, existsSync, mkdirSync, process_cwd,
    await, try_await, settled, resolve, reject.

Section Login.
Import GoogleLoginPage.

Ltac prefix_of_length n :=
  first [ exists n; split; [reflexivity | cbv beta iota; first [reflexivity | lia] ]
        | lazymatch n with
          | 20%nat => fail
          | _ => prefix_of_length (S n)
          end ].

Lemma performLogin_run (email password : jsstring) (s : Session) :
  exists r n,
    performLogin email password s
    = (r, extend (firstn n (performLogin_steps email password)) s) /\
    match r with
    | Ok _ => n = 16%nat
    | Throw _ => (n < 16)%nat
    end.
Proof.
  unfold performLogin, enterEmail, clickNextAfterEmail, enterPassword, clickNextAfterPassword.
  async_unfold.
  repeat first [log_step | perform_step; [eexists; prefix_of_length 0%nat|]].
  eexists. prefix_of_length 0%nat.
Qed.

End Login.

(** X13.  [performLogin] keeps the password off the console.  Every
    line it logs is one of six, of which only the line with the e-mail
    address varies; none is built from the password.  The password is
    typed only after the e-mail address was typed, [Next] clicked and the
    network idle; and when [performLogin] resolves it has made its ten
    requests, in order. *)
Theorem performLogin_keeps_the_password_off_the_console
    (email password : jsstring) (s : Session) :
  exists r new,
    GoogleLoginPage.performLogin email password s = (r, extend new s) /\
    incl (lines new)
      [js "Starting Google login process...";
       CHECK_MARK ++ js " Entered email: " ++ email;
       CHECK_MARK ++ js " Clicked Next after email";
       CHECK_MARK ++ js " Entered password";
       CHECK_MARK ++ js " Clicked Next after password";
       CHECK_MARK ++ js " Google login completed"] /\
    (In (locator_fill GoogleLoginPage.passwordInput password) (requests new) ->
     exists rest,
       requests new
       = [locator_waitFor GoogleLoginPage.emailInput (js "visible") 10000;
          locator_fill GoogleLoginPage.emailInput email;
          locator_waitFor GoogleLoginPage.nextButtonAfterEmail (js "visible") 10000;
          locator_click GoogleLoginPage.nextButtonAfterEmail;
          page_waitForLoadState (js "networkidle") None;
          locator_waitFor GoogleLoginPage.passwordInput (js "visible") 10000;
          locator_fill GoogleLoginPage.passwordInput password] ++ rest) /\
    (r = Ok tt ->
     requests new
     = [locator_waitFor GoogleLoginPage.emailInput (js "visible") 10000;
        locator_fill GoogleLoginPage.emailInput email;
        locator_waitFor GoogleLoginPage.nextButtonAfterEmail (js "visible") 10000;
        locator_click GoogleLoginPage.nextButtonAfterEmail;
        page_waitForLoadState (js "networkidle") None;
        locator_waitFor GoogleLoginPage.passwordInput (js "visible") 10000;
        locator_fill GoogleLoginPage.passwordInput password;
        locator_waitFor GoogleLoginPage.nextButtonAfterPassword (js "visible") 10000;
        locator_click GoogleLoginPage.nextButtonAfterPassword;
        page_waitForTimeout 3000]).
Proof.
  destruct (performLogin_run email password s) as (r & n & E & Hn).
  exists r, (firstn n (performLogin_steps email password)). split; [exact E|].
  clear E.
  do 16 (destruct n as [|n];
         [cbv beta iota delta [firstn performLogin_steps lines requests In incl];
          split; [intros a Ha; tauto|];
          split;
          [intros H; first [ eexists; reflexivity
                           | exfalso;
                             cbv delta [GoogleLoginPage.emailInput GoogleLoginPage.passwordInput
                                        GoogleLoginPage.nextButtonAfterEmail
                                        GoogleLoginPage.nextButtonAfterPassword] in H;
                             repeat match goal with
                                    | H : _ \/ _ |- _ => destruct H as [H|H]
                                    end; first [contradiction | discriminate] ]
          | intros ->; lia]|]).
  assert (n = 0%nat) by (destruct r; lia). subst n.
  cbv beta iota delta [firstn performLogin_steps lines requests In incl].
  split; [intros a Ha; tauto|].
  split; [intros H; eexists; reflexivity|]. intros _. reflexivity.
Qed.

(** X14.  [acceptCookies] never rejects.  It asks once whether the
    button is visible, and clicks the button exactly when that request
    resolved with true; it makes no other request, and logs nothing but
    the line about the missing dialog. *)
Theorem acceptCookies_never_rejects (s : Session) :
  exists new,
    YouTubePage.acceptCookies s = (Ok tt, extend new s) /\
    (In (locator_click YouTubePage.acceptCookiesButton) (requests new) <->
     rejects (browser s) (steps s) (locator_isVisible YouTubePage.acceptCookiesButton 5000)
     = None /\
     visible (browser s) (steps s) YouTubePage.acceptCookiesButton = true) /\
    (exists rest,
       requests new = locator_isVisible YouTubePage.acceptCookiesButton 5000 :: rest /\
       (rest = [] \/ rest = [locator_click YouTubePage.acceptCookiesButton])) /\
    incl (lines new) [js "No cookie consent dialog found or already accepted"].
Proof.
  unfold YouTubePage.acceptCookies, isVisible. async_unfold.
  perform_step.
  - log_step. eexists. split; [reflexivity|].
    cbv beta iota delta [requests lines In incl app].
    split; [split; [intros [H|[]]; discriminate H | intros [H _]; discriminate H]|].
    split; [eexists; split; [reflexivity|left; reflexivity]|].
    intros a Ha; tauto.
  - destruct (visible (browser s) (steps s) YouTubePage.acceptCookiesButton) eqn:V.
    + perform_step.
      * log_step. eexists. split; [reflexivity|].
        cbv beta iota delta [requests lines In incl app].
        split; [split; [intros _; split; reflexivity | intros _; right; left; reflexivity]|].
        split; [eexists; split; [reflexivity|right; reflexivity]|].
        intros a Ha; tauto.
      * eexists. split; [reflexivity|].
        cbv beta iota delta [requests lines In incl app].
        split; [split; [intros _; split; reflexivity | intros _; right; left; reflexivity]|].
        split; [eexists; split; [reflexivity|right; reflexivity]|].
        intros a Ha; tauto.
    + eexists. split; [reflexivity|].
      cbv beta iota delta [requests lines In incl app].
      split; [split; [intros [H|[]]; discriminate H | intros [_ H]; discriminate H]|].
      split; [eexists; split; [reflexivity|left; reflexivity]|].
      intros a Ha; tauto.
Qed.

(** ** Trimming *)

Lemma trimStart_spec (s : jsstring) :
  exists before,
    s = before ++ trimStart s /\ forallb is_white_space before = true /\
    forall c rest, trimStart s = c :: rest -> is_white_space c = false.
Proof.
  induction s as [|c s IH].
  - exists []. split; [reflexivity|]. split; [reflexivity|]. discriminate.
  - cbn [trimStart]. destruct (is_white_space c) eqn:W.
    + destruct IH as (before & E & Hb & Hh). exists (c :: before).
      split; [cbn [app]; rewrite <- E; reflexivity|].
      split; [cbn [forallb]; rewrite W, Hb; reflexivity | exact Hh].
    + exists []. split; [reflexivity|]. split; [reflexivity|].
      intros c' rest E. injection E as <- _. exact W.
Qed.

Lemma trimStart_keeps_last (s : jsstring) (c : N) :
  is_white_space c = false -> exists kept, trimStart (s ++ [c]) = kept ++ [c].
Proof.
  intros W. induction s as [|a s IH].
  - exists []. cbn. rewrite W. reflexivity.
  - cbn [app trimStart]. destruct (is_white_space a).
    + exact IH.
    + exists (a :: s). reflexivity.
Qed.

Lemma forallb_rev {A} (f : A -> bool) (l : list A) : forallb f (rev l) = forallb f l.
Proof.
  induction l as [|a l IH]; [reflexivity|].
  cbn [rev forallb]. rewrite forallb_app, IH. cbn [forallb].
  rewrite andb_true_r. apply andb_comm.
Qed.

Lemma trim_spec (s : jsstring) :
  (exists before after_,
     s = before ++ trim s ++ after_ /\
     forallb is_white_space before = true /\ forallb is_white_space after_ = true) /\
  (forall c rest, trim s = c :: rest -> is_white_space c = false) /\
  (forall c rest, trim s = rest ++ [c] -> is_white_space c = false).
Proof.
  unfold trim, trimEnd.
  destruct (trimStart_spec s) as (before & E1 & Hb & Hh).
  destruct (trimStart_spec (rev (trimStart s))) as (after_ & E2 & Ha & Hl).
  split; [|split].
  - exists before, (rev after_). split.
    + rewrite E1 at 1. f_equal.
      rewrite <- (rev_involutive (trimStart s)) at 1. rewrite E2 at 1.
      rewrite rev_app_distr. reflexivity.
    + split; [exact Hb | rewrite forallb_rev; exact Ha].
  - intros c rest E.
    destruct (trimStart s) as [|c1 t1] eqn:T.
    + cbn in E. discriminate.
    + pose proof (Hh c1 t1 eq_refl) as W1.
      cbn [rev] in E. destruct (trimStart_keeps_last (rev t1) c1 W1) as [kept K].
      rewrite K in E. rewrite rev_app_distr in E. cbn in E. injection E as <- _. exact W1.
  - intros c rest E.
    assert (E' : trimStart (rev (trimStart s)) = c :: rev rest).
    { rewrite <- (rev_involutive (trimStart (rev (trimStart s)))), E, rev_app_distr.
      reflexivity. }
    exact (Hl c (rev rest) E').
Qed.

(** X15.  The video title is trimmed.  When [getVideoTitle] resolves,
    its result is the empty string if the element has no text, and
    otherwise the text of the element without the white space before and
    after it; it neither starts nor ends with white space. *)
Theorem getVideoTitle_is_trimmed (s s' : Session) (title : jsstring) :
  YouTubePage.getVideoTitle s = (Ok title, s') ->
  match content (browser s)
          (steps s ++ [did (locator_waitFor YouTubePage.videoTitle (js "visible") 10000)])
          YouTubePage.videoTitle with
  | None => title = []
  | Some text =>
    exists before after_,
      text = before ++ title ++ after_ /\
      forallb is_white_space before = true /\ forallb is_white_space after_ = true
  end /\
  (forall c rest, title = c :: rest -> is_white_space c = false) /\
  (forall c rest, title = rest ++ [c] -> is_white_space c = false).
Proof.
  unfold YouTubePage.getVideoTitle, textContent. async_unfold.
  perform_step; [discriminate|].
  perform_step; [discriminate|].
  rewrite steps_extend.
  intros H. injection H as <- _.
  destruct (content _ _ _) as [text|].
  - assert (T : YouTubePage.trimmed_or_empty (Some text) = trim text).
    { unfold YouTubePage.trimmed_or_empty. destruct (trim text); reflexivity. }
    rewrite T. apply trim_spec.
  - cbn [YouTubePage.trimmed_or_empty].
    split; [reflexivity|]. split; intros c rest T; [discriminate|].
    destruct rest; discriminate.
Qed.

Lemma getVideoTitle_is_trimmed_witness :
  let s := {| browser := obliging_browser (Some (js "  Playwright in 100 Seconds "));
              steps := []; cwd := js "/home/runner/work"; disk := fun _ => false |} in
  exists before after_,
    js "  Playwright in 100 Seconds " = before ++ js "Playwright in 100 Seconds" ++ after_ /\
    forallb is_white_space before = true /\ forallb is_white_space after_ = true.
Proof.
  intros s.
  exact (proj1 (getVideoTitle_is_trimmed s (snd (YouTubePage.getVideoTitle s))
                  (js "Playwright in 100 Seconds") eq_refl)).
Defined.

(** ** The authentication set-up *)

Lemma acceptCookies_run (s : Session) :
  exists new,
    YouTubePage.acceptCookies s = (Ok tt, extend new s) /\
    Forall cookie_request (requests new) /\
    incl (lines new) [js "No cookie consent dialog found or already accepted"].
Proof.
  unfold YouTubePage.acceptCookies, isVisible. async_unfold.
  perform_step.
  - log_step. eexists. split; [reflexivity|].
    cbv beta iota delta [requests lines In incl app].
    split; [repeat constructor|]. intros a Ha; tauto.
  - destruct (visible (browser s) (steps s) YouTubePage.acceptCookiesButton).
    + perform_step.
      * log_step. eexists. split; [reflexivity|].
        cbv beta iota delta [requests lines In incl app].
        split; [constructor; [left; reflexivity|]; constructor; [right; reflexivity|constructor]|].
        intros a Ha; tauto.
      * eexists. split; [reflexivity|].
        cbv beta iota delta [requests lines In incl app].
        split; [constructor; [left; reflexivity|]; constructor; [right; reflexivity|constructor]|].
        intros a Ha; tauto.
    + eexists. split; [reflexivity|].
      cbv beta iota delta [requests lines In incl app].
      split; [repeat constructor|]. intros a Ha; tauto.
Qed.

Lemma In_requests_firstn (r : request) (n : nat) (l : list step) :
  In r (requests (firstn n l)) -> In r (requests l).
Proof.
  revert n. induction l as [|[r'|t] l IH]; intros [|n] H; cbn in *; try contradiction.
  - destruct H as [H|H]; [left; exact H | right; exact (IH n H)].
  - exact (IH n H).
Qed.

Lemma In_lines_firstn (t : jsstring) (n : nat) (l : list step) :
  In t (lines (firstn n l)) -> In t (lines l).
Proof.
  revert n. induction l as [|[r'|t'] l IH]; intros [|n] H; cbn in *; try contradiction.
  - exact (IH n H).
  - destruct H as [H|H]; [left; exact H | right; exact (IH n H)].
Qed.

Lemma performLogin_no_storageState (email password path : jsstring) (n : nat) :
  ~ In (context_storageState path) (requests (firstn n (performLogin_steps email password))).
Proof.
  intros H. apply In_requests_firstn in H.
  cbv beta iota delta [performLogin_steps requests In] in H.
  repeat match goal with H : _ \/ _ |- _ => destruct H as [H|H] end;
    first [contradiction | discriminate].
Qed.

Lemma cookie_no_storageState (path : jsstring) (l : list request) :
  Forall cookie_request l -> ~ In (context_storageState path) l.
Proof.
  intros HF H. rewrite Forall_forall in HF. destruct (HF _ H) as [E|E]; discriminate.
Qed.

Ltac sub_step :=
  cbv beta iota;
  match goal with
  | |- context [YouTubePage.acceptCookies ?s0] =>
    let new := fresh "cookies" in
    let E := fresh "Ec" in
    let H1 := fresh "Hcr" in
    let H2 := fresh "Hcl" in
    destruct (acceptCookies_run s0) as (new & E & H1 & H2); rewrite E
  | |- context [GoogleLoginPage.performLogin ?u ?p ?s0] =>
    let r := fresh "login" in
    let n := fresh "n" in
    let E := fresh "El" in
    let H := fresh "Hl" in
    destruct (performLogin_run u p s0) as (r & n & E & H); rewrite E; destruct r as [[]|?]
  end;
  cbv beta iota; rewrite ?extend_extend.

Ltac no_save H :=
  rewrite ?requests_app in H;
  repeat (apply in_app_or in H; destruct H as [H|H]);
  first [ exact (cookie_no_storageState _ _ ltac:(eassumption) H)
        | exact (performLogin_no_storageState _ _ _ _ H)
        | cbv beta iota delta [requests In] in H;
          repeat (destruct H as [H|H]); first [contradiction | discriminate] ].

Ltac saved :=
  rewrite ?requests_app;
  repeat first [ apply in_or_app; right; solve [cbv beta iota delta [requests In]; left; reflexivity]
               | apply in_or_app; left ].

Ltac listed := repeat first [left; reflexivity | right].

Ltac known_lines :=
  let a := fresh "a" in
  let H := fresh "H" in
  intros a H; rewrite ?lines_app in H;
  repeat (apply in_app_or in H; destruct H as [H|H]);
  first
    [ match goal with
      | Hc : incl (lines ?c) _ |- _ =>
        match type of H with
        | In _ (lines c) => apply Hc in H; destruct H as [H|[]]; subst a
        end
      end
    | apply In_lines_firstn in H;
      cbv beta iota delta [performLogin_steps lines In] in H;
      repeat (destruct H as [H|H]); try contradiction; subst a
    | cbv beta iota delta [lines In] in H;
      repeat (destruct H as [H|H]); try contradiction; subst a ];
  cbv beta iota delta [authenticate_lines In]; listed.

Lemma disk_extend (new : list step) (s : Session) : disk (extend new s) = disk s.
Proof. reflexivity. Qed.

Lemma jsstring_eqb_refl (s : jsstring) : jsstring_eqb s s = true.
Proof. apply jsstring_eqb_eq. reflexivity. Qed.

Lemma disk_with_path (path : jsstring) (s : Session) :
  disk (with_path path s) path = true.
Proof. cbn [disk with_path]. now rewrite jsstring_eqb_refl. Qed.

(** A run that ends before the state is saved. *)
Ltac early_leaf :=
  cbn [fst snd]; eexists; eexists; split; [reflexivity|];
  split; [reflexivity|];
  split; [ let H := fresh "H" in intros H; exfalso; no_save H |];
  split; [ let H := fresh "H" in intros H; discriminate H |];
  split; [ known_lines | let H := fresh "H" in intros H; discriminate H ].

(** A run that reaches the request to save the state. *)
Ltac late_leaf :=
  cbn [fst snd]; eexists; eexists; split; [reflexivity|];
  split; [first [reflexivity | apply steps_with_path]|];
  split;
  [ intros _;
    match goal with
    | E : rejects _ (steps (extend ?before _))
            (locator_waitFor YouTubePage.userAvatar _ _) = None |- _ =>
      exists before; eexists;
      split; [rewrite <- !app_assoc; reflexivity|];
      split; [exact E|];
      cbv beta iota delta [requests In]; left; reflexivity
    end |];
  split; [ intros _; saved |];
  split; [ known_lines |];
  let H := fresh "H" in
  intros H; first [ discriminate H | rewrite ?disk_extend; apply disk_with_path ].

(** X16.  The set-up saves the state of a signed-in session only.  The
    request to save the storage state is made only after the wait for the
    avatar has resolved, and it is made whenever the set-up resolves: the
    state file is there then.  Every line logged is one of thirteen, none
    of them built from the password. *)
Theorem authenticate_saves_the_state_only_when_signed_in
    (username password baseURL authFile : jsstring) (s : Session) :
  exists r new,
    fst (authenticate username password baseURL authFile s) = r /\
    steps (snd (authenticate username password baseURL authFile s)) = steps s ++ new /\
    (In (context_storageState authFile) (requests new) ->
     exists before after_,
       new = before ++ did AVATAR_CHECK :: after_ /\
       rejects (browser s) (steps s ++ before) AVATAR_CHECK = None /\
       In (context_storageState authFile) (requests after_)) /\
    (r = Ok tt -> In (context_storageState authFile) (requests new)) /\
    incl (lines new) (authenticate_lines username authFile) /\
    (r = Ok tt ->
     disk (snd (authenticate username password baseURL authFile s)) authFile = true).
Proof.
  unfold authenticate, YouTubePage.navigate, YouTubePage.clickSignIn, YouTubePage.isSignedIn,
    expect_toBeTruthy.
  async_unfold.
  repeat first [ log_step
               | sub_step; [|early_leaf]
               | sub_step
               | perform_step; [first [early_leaf | late_leaf]|] ].
  late_leaf.
Qed.

(** X17.  The two checks of the sign-in never reject.  [isSignedIn] makes
    one request, the wait for the avatar, and returns true exactly when it
    resolved.  [isLoginSuccessful] makes one request, whether the error
    message is visible, and returns false exactly when it resolved with
    true: a check that is itself rejected counts as a successful login. *)
Theorem sign_in_probes_never_reject (s : Session) :
  (exists signedIn,
     YouTubePage.isSignedIn s = (Ok signedIn, extend [did AVATAR_CHECK] s) /\
     (signedIn = true <-> rejects (browser s) (steps s) AVATAR_CHECK = None)) /\
  (exists successful,
     GoogleLoginPage.isLoginSuccessful s
     = (Ok successful, extend [did (locator_isVisible GoogleLoginPage.errorMessage 3000)] s) /\
     (successful = false <->
      rejects (browser s) (steps s) (locator_isVisible GoogleLoginPage.errorMessage 3000)
      = None /\
      visible (browser s) (steps s) GoogleLoginPage.errorMessage = true)).
Proof.
  split.
  - unfold YouTubePage.isSignedIn, AVATAR_CHECK. async_unfold. perform_step.
    + eexists. split; [reflexivity|]. split; discriminate.
    + eexists. split; [reflexivity|]. split; reflexivity.
  - unfold GoogleLoginPage.isLoginSuccessful, isVisible. async_unfold. perform_step.
    + eexists. split; [reflexivity|]. split; [discriminate | intros [H _]; discriminate H].
    + eexists. split; [reflexivity|].
      destruct (visible (browser s) (steps s) GoogleLoginPage.errorMessage); cbn [negb].
      * split; [intros _; split; reflexivity | reflexivity].
      * split; [discriminate | intros [_ H]; discriminate H].
Qed.

(* ================================================================== *)
(** * Part IX.  The screenshot paths                                    *)
(* ================================================================== *)

(** ** Paths *)

Lemma split_app_sep (c : N) (a b : jsstring) :
  split c (a ++ c :: b) = split c a ++ split c b.
Proof.
  induction a as [|u a IH].
  - cbn [app split]. rewrite N.eqb_refl. reflexivity.
  - cbn [app split]. destruct (u =? c)%N.
    + rewrite IH. reflexivity.
    + rewrite IH. pose proof (split_nonempty c a) as Hne.
      destruct (split c a) as [|piece pieces]; [contradiction|]. reflexivity.
Qed.

Lemma split_no_slash (s : jsstring) : no_slash s = true -> split SLASH s = [s].
Proof.
  induction s as [|u s IH]; [reflexivity|].
  cbn [no_slash forallb]. intros H. apply andb_true_iff in H. destruct H as [Hu Hs].
  cbn [split]. destruct (u =? SLASH)%N; [discriminate|].
  rewrite (IH Hs). reflexivity.
Qed.

Lemma split_pieces_no_slash (s : jsstring) : Forall (fun p => no_slash p = true) (split SLASH s).
Proof.
  induction s as [|u s IH]; [repeat constructor|].
  cbn [split]. destruct (u =? SLASH)%N eqn:E.
  - constructor; [reflexivity | exact IH].
  - destruct (split SLASH s) as [|piece pieces]; [repeat constructor; cbn; rewrite E; reflexivity|].
    inversion IH as [|? ? Hp Hps]; subst. constructor; [|exact Hps].
    cbn [no_slash forallb]. rewrite E. exact Hp.
Qed.

Lemma split_join_segments (pieces : list jsstring) :
  pieces <> [] -> Forall (fun p => no_slash p = true) pieces ->
  split SLASH (join_segments pieces) = pieces.
Proof.
  induction pieces as [|p pieces IH]; [congruence|]. intros _ HF.
  inversion HF as [|? ? Hp Hps]; subst.
  destruct pieces as [|q rest].
  - cbn [join_segments]. apply split_no_slash, Hp.
  - change (join_segments (p :: q :: rest)) with (p ++ SLASH :: join_segments (q :: rest)).
    rewrite split_app_sep, (split_no_slash p Hp), IH by (congruence || exact Hps).
    reflexivity.
Qed.

Lemma join_segments_snoc (pieces : list jsstring) (p : jsstring) :
  pieces <> [] -> join_segments (pieces ++ [p]) = join_segments pieces ++ SLASH :: p.
Proof.
  induction pieces as [|q pieces IH]; [congruence|]. intros _.
  destruct pieces as [|q' rest]; [reflexivity|].
  change (join_segments ((q :: q' :: rest) ++ [p]))
    with (q ++ SLASH :: join_segments ((q' :: rest) ++ [p])).
  rewrite IH by congruence.
  change (join_segments (q :: q' :: rest)) with (q ++ SLASH :: join_segments (q' :: rest)).
  rewrite <- app_assoc. reflexivity.
Qed.

Lemma normalize_segments_app (allow : bool) (kept xs ys : list jsstring) :
  normalize_segments allow kept (xs ++ ys)
  = normalize_segments allow (normalize_segments allow kept xs) ys.
Proof.
  revert kept. induction xs as [|x xs IH]; intros kept; [reflexivity|].
  cbn [app normalize_segments].
  destruct (empty_string x || jsstring_eqb x DOT); [apply IH|].
  destruct (jsstring_eqb x DOT_DOT); [|apply IH].
  destruct kept as [|top below]; [apply IH|].
  destruct (jsstring_eqb top DOT_DOT); apply IH.
Qed.

Lemma dot_dots_normal (kept : list jsstring) :
  forallb is_dot_dot kept = true -> normal true kept = true.
Proof.
  induction kept as [|s kept IH]; [reflexivity|].
  cbn [forallb normal]. intros H. apply andb_true_iff in H. destruct H as [Hs Hk].
  rewrite Hs, Hk. reflexivity.
Qed.

Lemma normal_below (allow : bool) (segment : jsstring) (below : list jsstring) :
  normal allow (segment :: below) = true -> normal allow below = true.
Proof.
  cbn [normal]. destruct (is_dot_dot segment).
  - intros H. apply andb_true_iff in H. destruct H as [-> H]. apply dot_dots_normal, H.
  - intros H. apply andb_true_iff in H. apply H.
Qed.

Lemma normal_suffix (allow : bool) (xs ys : list jsstring) :
  normal allow (xs ++ ys) = true -> normal allow ys = true.
Proof.
  induction xs as [|x xs IH]; [trivial|]. intros H. apply IH. exact (normal_below _ _ _ H).
Qed.

Lemma normalize_segments_normal (allow : bool) (segments kept : list jsstring) :
  normal allow kept = true -> Forall (fun p => no_slash p = true) segments ->
  normal allow (normalize_segments allow kept segments) = true.
Proof.
  revert kept. induction segments as [|x xs IH]; intros kept Hk HF; [exact Hk|].
  inversion HF as [|? ? Hx Hxs]; subst.
  cbn [normalize_segments].
  destruct (empty_string x || jsstring_eqb x DOT) eqn:E1; [apply IH; assumption|].
  destruct (jsstring_eqb x DOT_DOT) eqn:E2.
  - destruct kept as [|top below].
    + apply IH; [|exact Hxs]. destruct allow; reflexivity.
    + destruct (jsstring_eqb top DOT_DOT) eqn:E3.
      * apply IH; [|exact Hxs]. destruct allow; [|exact Hk].
        cbn [normal] in Hk. unfold is_dot_dot in Hk at 1. rewrite E3 in Hk.
        cbn [normal forallb]. unfold is_dot_dot at 1 2. rewrite E3.
        change (jsstring_eqb DOT_DOT DOT_DOT) with true. exact Hk.
      * apply IH; [|exact Hxs]. exact (normal_below _ _ _ Hk).
  - apply IH; [|exact Hxs]. cbn [normal]. unfold is_dot_dot at 1. rewrite E2.
    unfold regular, is_dot_dot. rewrite E2, Hx, Hk.
    apply orb_false_iff in E1. destruct E1 as [-> ->]. reflexivity.
Qed.

(** Taking the kept segments again, first one first, keeps them all. *)
Lemma normalize_segments_kept (allow : bool) (segments kept : list jsstring) :
  normal allow (rev segments ++ kept) = true ->
  normalize_segments allow kept segments = rev segments ++ kept.
Proof.
  revert kept. induction segments as [|x xs IH]; intros kept H; [reflexivity|].
  cbn [rev] in H. rewrite <- app_assoc in H. cbn [app] in H.
  pose proof (normal_suffix _ _ _ H) as Hx.
  cbn [rev]. rewrite <- app_assoc. cbn [app]. rewrite <- (IH (x :: kept) H).
  cbn [normalize_segments]. cbn [normal] in Hx.
  destruct (is_dot_dot x) eqn:D.
  - apply andb_true_iff in Hx. destruct Hx as [-> Hall].
    unfold is_dot_dot in D. rewrite D.
    assert (Ex : x = DOT_DOT) by (apply jsstring_eqb_eq, D). subst x.
    change (empty_string DOT_DOT || jsstring_eqb DOT_DOT DOT) with false. cbv iota.
    destruct kept as [|top below]; [reflexivity|].
    cbn [forallb] in Hall. apply andb_true_iff in Hall. destruct Hall as [Ht _].
    unfold is_dot_dot in Ht. rewrite Ht. reflexivity.
  - apply andb_true_iff in Hx. destruct Hx as [Hr _]. unfold regular in Hr.
    rewrite D in Hr. unfold is_dot_dot in D. rewrite D.
    destruct (empty_string x); [discriminate|]. destruct (jsstring_eqb x DOT); [discriminate|].
    reflexivity.
Qed.

Lemma normal_segments (allow : bool) (kept : list jsstring) :
  normal allow kept = true ->
  Forall (fun p => p <> [] /\ no_slash p = true) kept.
Proof.
  induction kept as [|s kept IH]; intros H; [constructor|].
  pose proof (normal_below _ _ _ H) as Hb.
  constructor; [|exact (IH Hb)].
  cbn [normal] in H. destruct (is_dot_dot s) eqn:D.
  - unfold is_dot_dot in D. apply jsstring_eqb_eq in D. subst s.
    split; [discriminate | reflexivity].
  - apply andb_true_iff in H. destruct H as [Hr _]. unfold regular in Hr.
    destruct (empty_string s) eqn:Es; [discriminate|].
    destruct (jsstring_eqb s DOT); [discriminate|]. rewrite D in Hr.
    split; [intros ->; discriminate | exact Hr].
Qed.

Lemma hd_join_segments (p : jsstring) (pieces : list jsstring) :
  p <> [] -> hd 0%N (join_segments (p :: pieces)) = hd 0%N p.
Proof.
  intros Hp. destruct p as [|c p]; [congruence|].
  destruct pieces; reflexivity.
Qed.

Lemma join_segments_nonempty (p : jsstring) (pieces : list jsstring) :
  p <> [] -> join_segments (p :: pieces) <> [].
Proof.
  intros Hp. destruct p as [|c p]; [congruence|]. destruct pieces; discriminate.
Qed.

Lemma last_app_nonempty {A} (xs ys : list A) (d : A) : ys <> [] -> last (xs ++ ys) d = last ys d.
Proof.
  intros Hy. induction xs as [|x xs IH]; [reflexivity|].
  cbn [app]. destruct (xs ++ ys) eqn:E.
  - destruct xs; [cbn in E; congruence | discriminate].
  - exact IH.
Qed.

Lemma last_join_segments (pieces : list jsstring) (p : jsstring) :
  p <> [] -> last (join_segments (pieces ++ [p])) 0%N = last p 0%N.
Proof.
  intros Hp. induction pieces as [|q pieces IH]; [reflexivity|].
  destruct pieces as [|q' rest].
  - cbn [app join_segments]. rewrite last_app_nonempty by discriminate.
    destruct p as [|c p]; [congruence|]. reflexivity.
  - change (join_segments ((q :: q' :: rest) ++ [p]))
      with (q ++ SLASH :: join_segments ((q' :: rest) ++ [p])).
    rewrite last_app_nonempty by discriminate.
    assert (Hne : join_segments ((q' :: rest) ++ [p]) <> []).
    { destruct rest; cbn; destruct q'; discriminate || (destruct p; [congruence|discriminate]). }
    change (SLASH :: join_segments ((q' :: rest) ++ [p]))
      with ([SLASH] ++ join_segments ((q' :: rest) ++ [p])).
    rewrite last_app_nonempty by exact Hne. exact IH.
Qed.

Lemma no_slash_hd (p : jsstring) :
  p <> [] -> no_slash p = true -> (hd 0%N p =? SLASH)%N = false.
Proof.
  destruct p as [|c p]; [congruence|]. intros _ H. cbn [no_slash forallb] in H.
  apply andb_true_iff in H. destruct H as [H _]. cbn [hd].
  destruct (c =? SLASH)%N; [discriminate | reflexivity].
Qed.

Lemma join_segments_start (pieces : list jsstring) :
  pieces <> [] -> Forall (fun p => p <> [] /\ no_slash p = true) pieces ->
  join_segments pieces <> [] /\ (hd 0%N (join_segments pieces) =? SLASH)%N = false.
Proof.
  destruct pieces as [|p ps]; [congruence|]. intros _ HF.
  apply Forall_inv in HF. destruct HF as [Hp Hs].
  split; [apply join_segments_nonempty, Hp|].
  rewrite hd_join_segments by exact Hp. apply no_slash_hd; assumption.
Qed.

Lemma path_normalize_assemble (path : jsstring) :
  path <> [] ->
  path_normalize path
  = assemble (isAbsolute path) (trailingSeparator path)
      (normalize_segments (negb (isAbsolute path)) [] (split SLASH path)).
Proof. destruct path; [congruence | reflexivity]. Qed.

(** The path [path.join(cwd, 'screenshots')] normalizes, and what
    normalizing makes of it. *)
Lemma screenshots_directory (current : jsstring) :
  let x := join_segments (filter (fun p => negb (empty_string p)) [current; SCREENSHOTS]) in
  let allow := negb (isAbsolute x) in
  let d := path_normalize x in
  x <> [] /\ d <> [] /\
  path_join [current; SCREENSHOTS] = d /\
  isAbsolute d = isAbsolute x /\
  trailingSeparator d = trailingSeparator x /\
  normalize_segments allow [] (split SLASH d) = normalize_segments allow [] (split SLASH x).
Proof.
  cbv zeta.
  set (x := join_segments (filter (fun p => negb (empty_string p)) [current; SCREENSHOTS])).
  set (allow := negb (isAbsolute x)).
  (* the segments of x end with the directory name *)
  assert (Hx : exists before,
             Forall (fun p => no_slash p = true) before /\
             split SLASH x = before ++ [SCREENSHOTS] /\
             trailingSeparator x = false /\ x <> []).
  { unfold x. destruct current as [|c current].
    - exists []. change (filter (fun p => negb (empty_string p)) [[]; SCREENSHOTS])
        with [SCREENSHOTS].
      split; [constructor|]. split; [reflexivity|]. split; [reflexivity | discriminate].
    - change (join_segments (filter (fun p => negb (empty_string p))
                               [c :: current; SCREENSHOTS]))
        with ((c :: current) ++ SLASH :: SCREENSHOTS).
      exists (split SLASH (c :: current)).
      split; [apply split_pieces_no_slash|].
      split; [rewrite split_app_sep; reflexivity|].
      split; [|discriminate].
      unfold trailingSeparator.
      change ((c :: current) ++ SLASH :: SCREENSHOTS)
        with ((c :: current) ++ [SLASH] ++ SCREENSHOTS).
      rewrite app_assoc, last_app_nonempty by discriminate. reflexivity. }
  destruct Hx as (before & Hb & Hsplit & Htrail & Hne).
  set (below := normalize_segments allow [] before).
  assert (Hbelow : normal allow below = true)
    by (apply normalize_segments_normal; [reflexivity | exact Hb]).
  assert (Hkept : normalize_segments allow [] (split SLASH x) = SCREENSHOTS :: below).
  { rewrite Hsplit, normalize_segments_app. reflexivity. }
  assert (Hnormal : normal allow (SCREENSHOTS :: below) = true).
  { cbn [normal]. change (is_dot_dot SCREENSHOTS) with false.
    change (regular SCREENSHOTS) with true. exact Hbelow. }
  assert (Hpieces : Forall (fun p => p <> [] /\ no_slash p = true) (rev below ++ [SCREENSHOTS])).
  { apply Forall_app. split.
    - apply Forall_rev. exact (normal_segments _ _ Hbelow).
    - constructor; [split; [discriminate | reflexivity] | constructor]. }
  assert (Hd : path_normalize x
               = (if isAbsolute x then [SLASH] else [])
                 ++ join_segments (rev below ++ [SCREENSHOTS])).
  { rewrite (path_normalize_assemble x Hne). fold allow. rewrite Hkept.
    unfold assemble. rewrite Htrail. cbn [rev].
    destruct (join_segments (rev below ++ [SCREENSHOTS])) eqn:E.
    - exfalso. revert E. apply join_segments_start; [|exact Hpieces].
      destruct (rev below); discriminate.
    - rewrite app_nil_r. reflexivity. }
  assert (Hres : join_segments (rev below ++ [SCREENSHOTS]) <> []
                 /\ (hd 0%N (join_segments (rev below ++ [SCREENSHOTS])) =? SLASH)%N = false).
  { apply join_segments_start; [|exact Hpieces]. destruct (rev below); discriminate. }
  destruct Hres as [Hres Hhd].
  split; [exact Hne|].
  split; [rewrite Hd; destruct (isAbsolute x); [discriminate|exact Hres]|].
  split.
  { unfold path_join. fold x.
    destruct (filter (fun p => negb (empty_string p)) [current; SCREENSHOTS]) as [|p ps] eqn:F;
      [|reflexivity].
    exfalso. cbn [filter] in F. destruct (negb (empty_string current)); discriminate. }
  split.
  { rewrite Hd. unfold isAbsolute at 1. destruct (isAbsolute x) eqn:A.
    - reflexivity.
    - cbn [app]. exact Hhd. }
  split.
  { rewrite Hd, Htrail. unfold trailingSeparator.
    rewrite last_app_nonempty by exact Hres.
    rewrite last_join_segments by discriminate. reflexivity. }
  rewrite Hkept, Hd.
  assert (Hs : split SLASH (join_segments (rev below ++ [SCREENSHOTS]))
               = rev below ++ [SCREENSHOTS]).
  { apply split_join_segments.
    - destruct (rev below); discriminate.
    - eapply Forall_impl; [|exact Hpieces]. intros p [_ Hp]. exact Hp. }
  assert (Hw : normalize_segments allow [] (rev below ++ [SCREENSHOTS]) = SCREENSHOTS :: below).
  { pose proof (normalize_segments_kept allow (rev below ++ [SCREENSHOTS]) []) as K.
    rewrite rev_app_distr, rev_involutive, app_nil_r in K. cbn [rev app] in K.
    exact (K Hnormal). }
  destruct (isAbsolute x).
  - change ([SLASH] ++ join_segments (rev below ++ [SCREENSHOTS]))
      with ([] ++ SLASH :: join_segments (rev below ++ [SCREENSHOTS])).
    rewrite split_app_sep, Hs. cbn [split app normalize_segments empty_string orb].
    exact Hw.
  - cbn [app]. rewrite Hs. exact Hw.
Qed.

Lemma isAbsolute_app (a b : jsstring) : a <> [] -> isAbsolute (a ++ b) = isAbsolute a.
Proof. destruct a; [congruence | reflexivity]. Qed.

Lemma trailingSeparator_app (a b : jsstring) :
  b <> [] -> trailingSeparator (a ++ b) = trailingSeparator b.
Proof. intros Hb. unfold trailingSeparator. rewrite last_app_nonempty by exact Hb. reflexivity. Qed.

Lemma path_normalize_idempotent_after (d x : jsstring) :
  x <> [] -> d <> [] ->
  isAbsolute d = isAbsolute x ->
  trailingSeparator d = trailingSeparator x ->
  normalize_segments (negb (isAbsolute x)) [] (split SLASH d)
  = normalize_segments (negb (isAbsolute x)) [] (split SLASH x) ->
  path_normalize d = path_normalize x /\
  forall rest, rest <> [] ->
    path_normalize (d ++ SLASH :: rest) = path_normalize (x ++ SLASH :: rest).
Proof.
  intros Hx Hd Ha Ht Hw. split.
  - rewrite (path_normalize_assemble d Hd), (path_normalize_assemble x Hx).
    rewrite Ha, Ht, Hw. reflexivity.
  - intros rest Hr.
    rewrite (path_normalize_assemble (d ++ SLASH :: rest)) by (destruct d; discriminate).
    rewrite (path_normalize_assemble (x ++ SLASH :: rest)) by (destruct x; discriminate).
    rewrite (isAbsolute_app d _ Hd), (isAbsolute_app x _ Hx), Ha.
    rewrite (trailingSeparator_app d (SLASH :: rest)) by discriminate.
    rewrite (trailingSeparator_app x (SLASH :: rest)) by discriminate.
    rewrite !split_app_sep, !normalize_segments_app, Hw. reflexivity.
Qed.

Lemma path_join_screenshot (current filename : jsstring) :
  path_join [path_join [current; SCREENSHOTS]; filename]
  = path_join [current; SCREENSHOTS; filename].
Proof.
  destruct (screenshots_directory current) as (Hx & Hd & Hj & Ha & Ht & Hw).
  cbv zeta in *. rewrite Hj.
  set (parts := filter (fun p => negb (empty_string p)) [current; SCREENSHOTS]) in *.
  set (x := join_segments parts) in *. set (d := path_normalize x) in *.
  destruct (path_normalize_idempotent_after d x Hx Hd Ha Ht Hw) as [Hi Hrest].
  assert (Hparts : parts <> []).
  { unfold parts. cbn [filter]. destruct (negb (empty_string current)); discriminate. }
  assert (Hr : path_join [current; SCREENSHOTS; filename]
               = match filename with
                 | [] => path_normalize x
                 | _ :: _ => path_normalize (x ++ SLASH :: filename)
                 end).
  { unfold path_join.
    change (filter (fun p => negb (empty_string p)) [current; SCREENSHOTS; filename])
      with (filter (fun p => negb (empty_string p)) ([current; SCREENSHOTS] ++ [filename])).
    rewrite filter_app. fold parts.
    destruct filename as [|c filename].
    - cbn [filter empty_string negb]. rewrite app_nil_r. fold x.
      destruct parts; [congruence | reflexivity].
    - cbn [filter empty_string negb]. rewrite <- (join_segments_snoc parts _ Hparts).
      destruct parts; [congruence|]. reflexivity. }
  assert (Hl : path_join [d; filename]
               = match filename with
                 | [] => path_normalize d
                 | _ :: _ => path_normalize (d ++ SLASH :: filename)
                 end).
  { unfold path_join. cbn [filter]. destruct d as [|c0 d0]; [congruence|].
    cbn [empty_string negb]. destruct filename; reflexivity. }
  rewrite Hl, Hr. destruct filename as [|c filename]; [exact Hi|].
  apply Hrest. discriminate.
Qed.

(** X18.  [takeScreenshot] saves where [screenshotExists] looks.  For
    every working directory and file name, joining the file name to the
    joined directory gives the path that joining the three parts gives.
    After [takeScreenshot] the directory of the screenshots exists; when
    the page takes the screenshot, [takeScreenshot] returns that path,
    logs it, and [screenshotExists] is then true for the file name; when
    the page rejects, the error is passed on and nothing is logged. *)
Theorem takeScreenshot_saves_where_screenshotExists_looks (filename : jsstring) (s : Session) :
  path_join [path_join [cwd s; js "screenshots"]; filename]
  = path_join [cwd s; js "screenshots"; filename] /\
  disk (snd (takeScreenshot filename s)) (path_join [cwd s; js "screenshots"]) = true /\
  match rejects (browser s) (steps s)
          (page_screenshot (path_join [cwd s; js "screenshots"; filename]) false) with
  | None =>
    fst (takeScreenshot filename s) = Ok (path_join [cwd s; js "screenshots"; filename]) /\
    steps (snd (takeScreenshot filename s))
    = steps s ++ [did (page_screenshot (path_join [cwd s; js "screenshots"; filename]) false);
                  logged (js "Screenshot saved to: "
                          ++ path_join [cwd s; js "screenshots"; filename])] /\
    screenshotExists filename (snd (takeScreenshot filename s))
    = (Ok true, snd (takeScreenshot filename s))
  | Some error =>
    fst (takeScreenshot filename s) = Throw error /\
    steps (snd (takeScreenshot filename s))
    = steps s ++ [did (page_screenshot (path_join [cwd s; js "screenshots"; filename]) false)]
  end.
Proof.
  pose proof (path_join_screenshot (cwd s) filename) as J.
  change SCREENSHOTS with (js "screenshots") in J.
  split; [exact J|].
  unfold takeScreenshot, screenshotExists. async_unfold. rewrite J.
  set (dir := path_join [cwd s; js "screenshots"]).
  set (path := path_join [cwd s; js "screenshots"; filename]).
  destruct (disk s dir) eqn:D; cbn [negb]; cbv beta iota; unfold perform, log;
    cbn [with_path browser steps];
    destruct (rejects (browser s) (steps s) (page_screenshot path false)) eqn:R;
    cbv beta iota; cbn [fst snd after with_path disk steps browser cwd];
    fold path; rewrite ?jsstring_eqb_refl, ?D, ?orb_true_r; cbn [orb];
    rewrite <- ?app_assoc; repeat split; reflexivity.
Qed.

(* ================================================================== *)
(** * Part X.  The models on examples                                   *)
(* ================================================================== *)

Example toISOString_epoch : Date.toISOString 0 = js "1970-01-01T00:00:00.000Z".
Proof. vm_compute. reflexivity. Qed.

Example toISOString_leap_day :
  Date.toISOString 1709251199999 = js "2024-02-29T23:59:59.999Z".
Proof. vm_compute. reflexivity. Qed.

Example toISOString_before_the_epoch :
  Date.toISOString (-1) = js "1969-12-31T23:59:59.999Z".
Proof. vm_compute. reflexivity. Qed.

Example toISOString_expanded_year :
  Date.toISOString 253402300800000 = js "+010000-01-01T00:00:00.000Z".
Proof. vm_compute. reflexivity. Qed.

(** A code unit above 0xFF is read by its low byte: U+0141 is an [A],
    so 108 of them are 81 zero bytes, an envelope with one byte of tag;
    and U+3D3D is an [=], which ends the input. *)
Example base64_decode_low_byte : base64_decode (repeat 0x141%N 108) = repeat x00 81.
Proof. vm_compute. reflexivity. Qed.

Example base64_decode_low_byte_pad :
  base64_decode (js "c2hv" ++ 0x3D3D%N :: js "cnQ=") = base64_decode (js "c2hv").
Proof. vm_compute. reflexivity. Qed.

Example decrypt_low_byte_envelope :
  fst (@decrypt stub_primitives (repeat 0x141%N 108) (js "k") (sample_world 0 None))
  = Throw (INVALID_TAG_LENGTH 1).
Proof.
  rewrite (@decrypt_run _ stub_laws). cbn [fst].
  rewrite base64_decode_low_byte. reflexivity.
Qed.

Example generateScreenshotFilename_sample :
  generateScreenshotFilename 1762128000123 = js "screenshot-2025-11-03T00-00-00.png".
Proof. vm_compute. reflexivity. Qed.

Example path_join_sample :
  path_join [js "/foo"; js "bar"; js "baz/asdf"; js "quux"; js ".."] = js "/foo/bar/baz/asdf".
Proof. vm_compute. reflexivity. Qed.

Example path_join_above_the_start : path_join [js "a"; js ".."; js ".."] = js "..".
Proof. vm_compute. reflexivity. Qed.

Example path_normalize_sample :
  path_normalize (js "/foo/bar//baz/asdf/quux/..") = js "/foo/bar/baz/asdf".
Proof. vm_compute. reflexivity. Qed.

Example path_normalize_trailing : path_normalize (js "a/../") = js "./".
Proof. vm_compute. reflexivity. Qed.

Example takeScreenshot_sample :
  fst (takeScreenshot (js "shot.png") (sample_session (obliging_browser None)))
  = Ok (js "/home/runner/work/e2e/screenshots/shot.png").
Proof. vm_compute. reflexivity. Qed.

Example trim_sample : trim (js "  Playwright in 100 Seconds ") = js "Playwright in 100 Seconds".
Proof. vm_compute. reflexivity. Qed.

Example skipAds_two_ads :
  lines (steps (snd (YouTubePage.skipAds (sample_session (browser_with_ads 2)))))
  = [js "Checking for ads...";
     js "Ad 1 detected, waiting for skip button to be clickable...";
     CHECK_MARK ++ js " Skipped ad 1";
     js "Ad 2 detected, waiting for skip button to be clickable...";
     CHECK_MARK ++ js " Skipped ad 2";
     js "No additional ads detected after 2 ad(s)";
     CHECK_MARK ++ js " Ad handling complete"].
Proof. vm_compute. reflexivity. Qed.

Example skipAds_seven_ads :
  length (filter is_click
            (requests (steps (snd (YouTubePage.skipAds (sample_session (browser_with_ads 7)))))))
  = 5%nat /\
  In (YouTubePage.WARNING_SIGN ++ js " Reached maximum ad limit (5), continuing with test")
     (lines (steps (snd (YouTubePage.skipAds (sample_session (browser_with_ads 7)))))).
Proof. vm_compute. split; [reflexivity|]. do 11 right. left. reflexivity. Qed.

Example authenticate_sample :
  fst (authenticate (js "tester@example.com") (js "Automation@Tester@1990")
         (js "https://www.youtube.com") (js "playwright/.auth/user.json")
         (sample_session (obliging_browser None)))
  = Ok tt.
Proof. vm_compute. reflexivity. Qed.
